(** * The asyncpg adapter of the PostgreSQL dialect

    A shallow embedding of [lib/sqlalchemy/dialects/postgresql/asyncpg.py]:
    the DBAPI facade ([AsyncAdapt_asyncpg_dbapi]), the adapted connection
    ([AsyncAdapt_asyncpg_connection]), the plain and the server side cursor
    ([AsyncAdapt_asyncpg_cursor], [AsyncAdapt_asyncpg_ss_cursor]) and the
    JSONB codec hooks of [PGDialect_asyncpg.on_connect].

    Python objects are records, attribute assignment is a record update, and
    a method is a computation in a state and exception monad over the
    connection, the cursor and the native driver.  Whatever the asyncpg
    library does is left open: it is a value of the class [Native]. *)

From Stdlib Require Import ZArith QArith List String Ascii Bool Lia.
From Stdlib Require Import DecimalString.
Import ListNotations.
Local Open Scope string_scope.
Local Open Scope Z_scope.

Set Implicit Arguments.

(** ** Python classes and exception objects *)

(** The classes that occur in an inheritance chain ([__mro__]) of an
    exception: the generic classes declared by [AsyncAdapt_asyncpg_dbapi],
    the six [asyncpg.exceptions] classes that key the translation table, the
    built in roots, and any other class, known by its qualified name. *)
Inductive pyclass : Type :=
  | Error
  | Warning
  | InterfaceError
  | DatabaseError
  | InternalError
  | OperationalError
  | ProgrammingError
  | IntegrityError
  | DataError
  | NotSupportedError
  | InternalServerError
  | InvalidCachedStatementError
  | asyncpg_IntegrityConstraintViolationError
  | asyncpg_PostgresError
  | asyncpg_SyntaxOrAccessError
  | asyncpg_InterfaceError
  | asyncpg_InvalidCachedStatementError
  | asyncpg_InternalServerError
  | py_Exception
  | py_BaseException
  | py_object
  | other_class (qualname : string).

Definition pyclass_eq_dec (a b : pyclass) : {a = b} + {a <> b}.
Proof. decide equality; apply string_dec. Defined.

Definition pyclass_eqb (a b : pyclass) : bool :=
  if pyclass_eq_dec a b then true else false.

(** [type(cls).__mro__] of the generic classes, as the class statements of
    [AsyncAdapt_asyncpg_dbapi] fix it. *)
Definition generic_mro (c : pyclass) : list pyclass :=
  let root := [py_Exception; py_BaseException; py_object] in
  match c with
  | Error => Error :: root
  | Warning => Warning :: root
  | InterfaceError => InterfaceError :: Error :: root
  | DatabaseError => DatabaseError :: Error :: root
  | InternalError => InternalError :: DatabaseError :: Error :: root
  | OperationalError => OperationalError :: DatabaseError :: Error :: root
  | ProgrammingError => ProgrammingError :: DatabaseError :: Error :: root
  | IntegrityError => IntegrityError :: DatabaseError :: Error :: root
  | DataError => DataError :: DatabaseError :: Error :: root
  | NotSupportedError => NotSupportedError :: DatabaseError :: Error :: root
  | InternalServerError =>
      InternalServerError :: InternalError :: DatabaseError :: Error :: root
  | InvalidCachedStatementError =>
      InvalidCachedStatementError :: NotSupportedError :: DatabaseError
        :: Error :: root
  | _ => c :: root
  end.

(** What ["%s" % cls] prints for a class: its module and name.  asyncpg
    declares [PostgresError] and [InterfaceError] in its module
    [asyncpg.exceptions._base], the four others in [asyncpg.exceptions]. *)
Definition class_repr (c : pyclass) : string :=
  let q s := "<class '" ++ s ++ "'>" in
  let g s :=
    q ("sqlalchemy.dialects.postgresql.asyncpg.AsyncAdapt_asyncpg_dbapi."
       ++ s) in
  let n s := q ("asyncpg.exceptions." ++ s) in
  match c with
  | Error => g "Error"
  | Warning => g "Warning"
  | InterfaceError => g "InterfaceError"
  | DatabaseError => g "DatabaseError"
  | InternalError => g "InternalError"
  | OperationalError => g "OperationalError"
  | ProgrammingError => g "ProgrammingError"
  | IntegrityError => g "IntegrityError"
  | DataError => g "DataError"
  | NotSupportedError => g "NotSupportedError"
  | InternalServerError => g "InternalServerError"
  | InvalidCachedStatementError => g "InvalidCachedStatementError"
  | asyncpg_IntegrityConstraintViolationError =>
      n "IntegrityConstraintViolationError"
  | asyncpg_PostgresError => n "_base.PostgresError"
  | asyncpg_SyntaxOrAccessError => n "SyntaxOrAccessError"
  | asyncpg_InterfaceError => n "_base.InterfaceError"
  | asyncpg_InvalidCachedStatementError => n "InvalidCachedStatementError"
  | asyncpg_InternalServerError => n "InternalServerError"
  | py_Exception => q "Exception"
  | py_BaseException => q "BaseException"
  | py_object => q "object"
  | other_class s => q s
  end.

(** An exception object: the inheritance chain of its class (the class
    itself first), the text [str(error)], the attributes [sqlstate] and
    [pgcode] when they are set, and the exception it was raised [from]. *)
#[warnings="-register-all"] Inductive exn : Type :=
  Exn (mro : list pyclass) (message : string)
      (sqlstate pgcode : option string) (cause : option exn).

Definition exn_mro (e : exn) : list pyclass :=
  match e with Exn m _ _ _ _ => m end.
Definition exn_message (e : exn) : string :=
  match e with Exn _ m _ _ _ => m end.
Definition exn_sqlstate (e : exn) : option string :=
  match e with Exn _ _ s _ _ => s end.
Definition exn_pgcode (e : exn) : option string :=
  match e with Exn _ _ _ p _ => p end.
Definition exn_cause (e : exn) : option exn :=
  match e with Exn _ _ _ _ c => c end.

(** [type(error)] *)
Definition exn_type (e : exn) : pyclass :=
  match exn_mro e with c :: _ => c | [] => py_object end.

(** [isinstance(error, cls)] *)
Definition isinstance (e : exn) (cls : pyclass) : bool :=
  existsb (pyclass_eqb cls) (exn_mro e).

(** ** AsyncAdapt_asyncpg_dbapi *)

Definition invalidate_notice : string :=
  " (SQLAlchemy asyncpg dialect will now invalidate "
  ++ "all prepared caches in response to this exception)".

(** Calling a generic exception class on one message.  Only
    [InvalidCachedStatementError] overrides [__init__]. *)
Definition new_exception (cls : pyclass) (message : string) : exn :=
  match cls with
  | InvalidCachedStatementError =>
      Exn (generic_mro cls) (message ++ invalidate_notice) None None None
  | _ => Exn (generic_mro cls) message None None None
  end.

(** [_asyncpg_error_translate]: a dict, so a lookup by exact class. *)
Definition _asyncpg_error_translate (c : pyclass) : option pyclass :=
  match c with
  | asyncpg_IntegrityConstraintViolationError => Some IntegrityError
  | asyncpg_PostgresError => Some Error
  | asyncpg_SyntaxOrAccessError => Some ProgrammingError
  | asyncpg_InterfaceError => Some InterfaceError
  | asyncpg_InvalidCachedStatementError => Some InvalidCachedStatementError
  | asyncpg_InternalServerError => Some InternalServerError
  | _ => None
  end.

(** The type tags, [util.symbol] constants of the facade.  [DATETIME] and
    [BINARY] are second names of [TIMESTAMP] and [BYTEA]. *)
Inductive dbapi_type : Type :=
  | STRING | TIMESTAMP | TIMESTAMP_W_TZ | TIME | DATE | INTERVAL | NUMBER
  | FLOAT | BOOLEAN | INTEGER | BIGINTEGER | BYTES | DECIMAL | JSON | JSONB
  | ENUM | UUID | BYTEA.

Definition DATETIME : dbapi_type := TIMESTAMP.
Definition BINARY : dbapi_type := BYTEA.

(** [_pg_types.get(typ)]; the declared type may be [None]. *)
Definition _pg_types (typ : option dbapi_type) : option string :=
  match typ with
  | None => None
  | Some STRING => Some "varchar"
  | Some TIMESTAMP => Some "timestamp"
  | Some TIMESTAMP_W_TZ => Some "timestamp with time zone"
  | Some DATE => Some "date"
  | Some TIME => Some "time"
  | Some INTERVAL => Some "interval"
  | Some NUMBER => Some "numeric"
  | Some FLOAT => Some "float"
  | Some BOOLEAN => Some "bool"
  | Some INTEGER => Some "integer"
  | Some BIGINTEGER => Some "bigint"
  | Some BYTES => Some "bytes"
  | Some DECIMAL => Some "decimal"
  | Some JSON => Some "json"
  | Some JSONB => Some "jsonb"
  | Some ENUM => Some "enum"
  | Some UUID => Some "uuid"
  | Some BYTEA => Some "bytea"
  end.

(** ** Placeholders *)

(** ["%s" % typ] for an optional text *)
Definition fmt_s (typ : option string) : string :=
  match typ with Some t => t | None => "None" end.

(** ["%d" % idx] *)
Definition fmt_d (idx : Z) : string := NilZero.string_of_int (Z.to_int idx).

(** [enumerate(xs, start)] *)
Fixpoint enumerate {A : Type} (xs : list A) (start : Z) : list (Z * A) :=
  match xs with
  | [] => []
  | x :: xs' => (start, x) :: enumerate xs' (start + 1)
  end.

(** Truth value of a string and of an optional tuple. *)
Definition truthy_str (s : option string) : bool :=
  match s with Some (String _ _) => true | _ => false end.

Definition truthy_tuple {A : Type} (t : option (list A)) : bool :=
  match t with Some (_ :: _) => true | _ => false end.

(** [_parameter_placeholders]: [inputsizes] is the cursor's [_inputsizes],
    [None] until [setinputsizes] is called. *)
Definition _parameter_placeholders {P : Type}
    (inputsizes : option (list (option dbapi_type))) (params : list P)
  : list string :=
  if negb (truthy_tuple inputsizes) then
    map (fun it => "$" ++ fmt_d (fst it)) (enumerate params 1)
  else
    map (fun it : Z * option string =>
           let (idx, typ) := it in
           if truthy_str typ then
             "$" ++ fmt_d idx ++ "::" ++ fmt_s typ
           else "$" ++ fmt_d idx)
        (enumerate
           (map _pg_types match inputsizes with Some l => l | None => [] end)
           1).

(** ** Text, bytes and UTF-8

    A [str] is its sequence of code points, a [bytes] its sequence of byte
    values.  [str.encode()] and [bytes.decode()] use UTF-8 and the [strict]
    error handler: lone surrogates are not encoded, and overlong forms,
    encoded surrogates and values above U+10FFFF are not decoded. *)
Definition pystr : Type := list Z.
Definition pybytes : Type := list Z.

Definition text (s : string) : pystr :=
  map (fun c => Z.of_N (N_of_ascii c)) (list_ascii_of_string s).

Definition builtin_exception (name message : string) : exn :=
  Exn [other_class name; py_Exception; py_BaseException; py_object]
      message None None None.

Definition UnicodeEncodeError : exn :=
  builtin_exception "UnicodeEncodeError"
    "'utf-8' codec can't encode character: surrogates not allowed".
Definition UnicodeDecodeError : exn :=
  builtin_exception "UnicodeDecodeError" "'utf-8' codec can't decode byte".

(** A code point that UTF-8 encodes: in range and not a surrogate. *)
Definition is_scalar (c : Z) : bool :=
  (0 <=? c) && (c <=? 1114111) && negb ((55296 <=? c) && (c <=? 57343)).

(** The bytes of one code point; 64 is [1 << 6], 4096 is [1 << 12], 262144
    is [1 << 18], and the leading bytes carry the marks 0xC0, 0xE0, 0xF0 over
    continuation bytes marked 0x80. *)
Definition encode_char (c : Z) : option (list Z) :=
  if negb (is_scalar c) then None
  else if c <? 128 then Some [c]
  else if c <? 2048 then Some [192 + c / 64; 128 + c mod 64]
  else if c <? 65536 then
    Some [224 + c / 4096; 128 + (c / 64) mod 64; 128 + c mod 64]
  else
    Some [240 + c / 262144; 128 + (c / 4096) mod 64; 128 + (c / 64) mod 64;
          128 + c mod 64].

(** [str.encode()] *)
Fixpoint str_encode (s : pystr) : exn + pybytes :=
  match s with
  | [] => inr []
  | c :: s' =>
      match encode_char c with
      | None => inl UnicodeEncodeError
      | Some bs =>
          match str_encode s' with
          | inl e => inl e
          | inr rest => inr (bs ++ rest)%list
          end
      end
  end.

Definition in_range (lo hi b : Z) : bool := (lo <=? b) && (b <=? hi).
Definition is_cont (b : Z) : bool := in_range 128 191 b.

(** The first code point of a byte sequence and the bytes after it.  The
    second byte of a three or four byte form is bounded more tightly after
    the leading bytes 0xE0, 0xED, 0xF0 and 0xF4. *)
Definition decode_char (bs : pybytes) : option (Z * pybytes) :=
  match bs with
  | [] => None
  | b0 :: r0 =>
      if in_range 0 127 b0 then Some (b0, r0)
      else if in_range 194 223 b0 then
        match r0 with
        | b1 :: r1 =>
            if is_cont b1 then Some ((b0 - 192) * 64 + (b1 - 128), r1)
            else None
        | _ => None
        end
      else if in_range 224 239 b0 then
        match r0 with
        | b1 :: b2 :: r2 =>
            let lo := if b0 =? 224 then 160 else 128 in
            let hi := if b0 =? 237 then 159 else 191 in
            if in_range lo hi b1 && is_cont b2 then
              Some ((b0 - 224) * 4096 + (b1 - 128) * 64 + (b2 - 128), r2)
            else None
        | _ => None
        end
      else if in_range 240 244 b0 then
        match r0 with
        | b1 :: b2 :: b3 :: r3 =>
            let lo := if b0 =? 240 then 144 else 128 in
            let hi := if b0 =? 244 then 143 else 191 in
            if in_range lo hi b1 && is_cont b2 && is_cont b3 then
              Some ((b0 - 240) * 262144 + (b1 - 128) * 4096
                    + (b2 - 128) * 64 + (b3 - 128), r3)
            else None
        | _ => None
        end
      else None
  end.

(** [bytes.decode()]; every step takes at least one byte, so the length of
    the input bounds the number of steps. *)
Fixpoint decode_loop (fuel : nat) (bs : pybytes) : exn + pystr :=
  match bs with
  | [] => inr []
  | _ :: _ =>
      match fuel with
      | O => inl UnicodeDecodeError
      | S fuel' =>
          match decode_char bs with
          | None => inl UnicodeDecodeError
          | Some (c, rest) =>
              match decode_loop fuel' rest with
              | inl e => inl e
              | inr s => inr (c :: s)
              end
          end
      end
  end.

Definition bytes_decode (bs : pybytes) : exn + pystr :=
  decode_loop (List.length bs) bs.

(** ** The status message pattern

    [re.match] is a backtracking matcher: it tries the alternatives of a
    choice from left to right and the repetitions of a greedy [+] from the
    longest to the shortest, and keeps the first way that succeeds.  The
    matcher below lists the ways to match a prefix of the subject in that
    order of preference, each with the rest of the subject and the texts of
    the capturing groups; [re_match] keeps the first.

    A status message is a [str], and so is the pattern: [\d] matches every
    decimal digit of Unicode, and [int] reads each one by its decimal
    value. *)
Inductive regex : Type :=
  | Lit (s : string)           (* the characters of s *)
  | Digits                     (* \d+ *)
  | Alt (r1 r2 : regex)        (* r1|r2 *)
  | Seq (r1 r2 : regex)        (* r1r2 *)
  | NonCapture (r : regex)     (* (?:r) *)
  | Capture (r : regex).       (* (r) *)

(** The decimal digits of Unicode 14.0 (general category Nd) come in runs
    of ten, zero to nine; these are the code points of the zeros. *)
Definition decimal_zeros : list Z :=
  [48; 1632; 1776; 1984; 2406; 2534; 2662; 2790; 2918; 3046; 3174; 3302;
   3430; 3558; 3664; 3792; 3872; 4160; 4240; 6112; 6160; 6470; 6608; 6784;
   6800; 6992; 7088; 7232; 7248; 42528; 43216; 43264; 43472; 43504; 43600;
   44016; 65296; 66720; 68912; 69734; 69872; 69942; 70096; 70384; 70736;
   70864; 71248; 71360; 71472; 71904; 72016; 72784; 73040; 73120; 92768;
   92864; 93008; 120782; 120792; 120802; 120812; 120822; 123200; 123632;
   125264; 130032].

(** The value of a decimal digit, [None] for any other code point. *)
Definition decimal_value (c : Z) : option Z :=
  match find (fun zero => (zero <=? c) && (c <=? zero + 9)) decimal_zeros with
  | Some zero => Some (c - zero)
  | None => None
  end.

Definition is_digit (c : Z) : bool :=
  match decimal_value c with Some _ => true | None => false end.

(** [strip_prefix p s]: the rest of [s] after [p], when [s] starts with [p]. *)
Fixpoint strip_prefix (p s : pystr) : option pystr :=
  match p, s with
  | [], _ => Some s
  | a :: p', b :: s' => if a =? b then strip_prefix p' s' else None
  | _ :: _, [] => None
  end.

(** The rests of [s] after a non-empty run of digits, longest run first. *)
Fixpoint digit_runs (s : pystr) : list pystr :=
  match s with
  | c :: s' => if is_digit c then (digit_runs s' ++ [s'])%list else []
  | [] => []
  end.

(** The first [length s - length rest] characters of [s]. *)
Definition consumed (s rest : pystr) : pystr :=
  firstn (List.length s - List.length rest) s.

Fixpoint matches (r : regex) (s : pystr) (groups : list pystr)
  : list (pystr * list pystr) :=
  match r with
  | Lit p =>
      match strip_prefix (text p) s with
      | Some rest => [(rest, groups)]
      | None => []
      end
  | Digits => map (fun rest => (rest, groups)) (digit_runs s)
  | Alt r1 r2 => (matches r1 s groups ++ matches r2 s groups)%list
  | Seq r1 r2 =>
      flat_map (fun m => matches r2 (fst m) (snd m)) (matches r1 s groups)
  | NonCapture r1 => matches r1 s groups
  | Capture r1 =>
      map (fun m => (fst m, (snd m ++ [consumed s (fst m)])%list))
          (matches r1 s groups)
  end.

(** [re.match(r, s)]: the groups of the preferred match, or [None]. *)
Definition re_match (r : regex) (s : pystr) : option (list pystr) :=
  match matches r s [] with
  | m :: _ => Some (snd m)
  | [] => None
  end.

(** [r"(?:UPDATE|DELETE|INSERT \d+) (\d+)"] *)
Definition status_pattern : regex :=
  Seq (NonCapture (Alt (Lit "UPDATE")
                       (Alt (Lit "DELETE") (Seq (Lit "INSERT ") Digits))))
      (Seq (Lit " ") (Capture Digits)).

(** [int(text)] on a text of decimal digits, which a group of the pattern
    is: each digit counts by its decimal value. *)
Definition digit_value (c : Z) : Z :=
  match decimal_value c with Some d => d | None => 0 end.

Fixpoint int_of_digits (acc : Z) (s : pystr) : Z :=
  match s with
  | [] => acc
  | c :: s' => int_of_digits (10 * acc + digit_value c) s'
  end.

Definition py_int (s : pystr) : Z := int_of_digits 0 s.

(** The row count that [_prepare_and_execute] derives from the status
    message of a statement it ran on a cursor that is not server side. *)
Definition rowcount_of_status (status : pystr) : Z :=
  match re_match status_pattern status with
  | Some (g1 :: _) => py_int g1
  | Some [] => -1
  | None => -1
  end.

(** ** The JSON and JSONB codec hooks of [PGDialect_asyncpg.on_connect] *)
Section Codecs.
(** [self._json_deserializer or _py_json.loads] *)
Variable value : Type.
Variable deserializer : pystr -> exn + value.

(** [b"\x01" + str_value.encode()] *)
Definition _jsonb_encoder (str_value : pystr) : exn + pybytes :=
  match str_encode str_value with
  | inl e => inl e
  | inr bs => inr (1 :: bs)
  end.

(** [deserializer(bin_value.decode())] *)
Definition _json_decoder (bin_value : pybytes) : exn + value :=
  match bytes_decode bin_value with
  | inl e => inl e
  | inr s => deserializer s
  end.

(** [deserializer(bin_value[1:].decode())] *)
Definition _jsonb_decoder (bin_value : pybytes) : exn + value :=
  match bytes_decode (skipn 1 bin_value) with
  | inl e => inl e
  | inr s => deserializer s
  end.
End Codecs.

(** The text of the JSON object with the one member a, of value 1: an
    opening brace, the quoted name, a colon, the digit and a closing brace. *)
Definition json_a_1 : pystr :=
  (text "{" ++ [34] ++ text "a" ++ [34] ++ text ":1}")%list.

(** ** Python slices *)

(** [l[0:size]] and [l[size:]]; a negative [size] counts from the end. *)
Definition slice_bound {A : Type} (l : list A) (size : Z) : nat :=
  if size <? 0 then Z.to_nat (Z.max 0 (Z.of_nat (List.length l) + size))
  else Z.to_nat size.

Definition slice_to {A : Type} (l : list A) (size : Z) : list A :=
  firstn (slice_bound l size) l.

Definition slice_from {A : Type} (l : list A) (size : Z) : list A :=
  skipn (slice_bound l size) l.

(** ** Result column descriptors *)

(** An [asyncpg.Attribute], of which the adapter reads [name] and
    [type.oid]. *)
Record attribute : Type := { attr_name : string; attr_type_oid : Z }.

(** A member of [cursor.description]: name and type code; the other five
    members of the DBAPI tuple are [None]. *)
Definition describe (attr : attribute) : string * Z :=
  (attr_name attr, attr_type_oid attr).

(** ** The least recently used cache *)

(** Modelled from the spec: [util.LRUCache], of [lib/sqlalchemy/util], is not
    part of the sources at hand.  It is a bounded mapping, here from the SQL
    text to a cache entry, that evicts the least recently used entry when it
    exceeds its capacity; reading an entry counts as a use.  The entries are
    kept most recently used first. *)
Section LRU.
Variable V : Type.

Record LRUCache : Type := { capacity : nat; entries : list (string * V) }.

Definition lru_new (capacity : nat) : LRUCache :=
  {| capacity := capacity; entries := [] |}.

Fixpoint assoc (key : string) (l : list (string * V)) : option V :=
  match l with
  | [] => None
  | (k, v) :: l' => if String.eqb key k then Some v else assoc key l'
  end.

Fixpoint assoc_remove (key : string) (l : list (string * V))
  : list (string * V) :=
  match l with
  | [] => []
  | (k, v) :: l' =>
      if String.eqb key k then assoc_remove key l'
      else (k, v) :: assoc_remove key l'
  end.

(** [key in cache] *)
Definition lru_contains (key : string) (c : LRUCache) : bool :=
  match assoc key (entries c) with Some _ => true | None => false end.

(** [cache[key]]: the value, and the cache with the entry moved first. *)
Definition lru_getitem (key : string) (c : LRUCache)
  : option (V * LRUCache) :=
  match assoc key (entries c) with
  | Some v =>
      Some (v, {| capacity := capacity c;
                  entries := (key, v) :: assoc_remove key (entries c) |})
  | None => None
  end.

(** [cache[key] = v] *)
Definition lru_setitem (key : string) (v : V) (c : LRUCache) : LRUCache :=
  let es := (key, v) :: assoc_remove key (entries c) in
  {| capacity := capacity c;
     entries := if (capacity c <? List.length es)%nat then removelast es
                else es |}.
End LRU.

(** ** The native driver

    What the adapter consumes from asyncpg and from the Python runtime.  The
    [world] is whatever the answers depend on: the native connection, the
    server behind it, the clock.  Every call takes the world, may raise, and
    leaves a world; no law relates the calls. *)
Class Native : Type := {
  world : Type;
  statement : Type;        (* asyncpg PreparedStatement *)
  transaction : Type;      (* asyncpg Transaction *)
  stream : Type;           (* asyncpg Cursor, of a server side cursor *)
  row : Type;              (* asyncpg Record *)
  param : Type;            (* a bound parameter value *)
  asyncpg_connect : world -> (exn + unit) * world;
  reload_schema_state : world -> (exn + unit) * world;
  prepare : string -> world -> (exn + statement) * world;
  get_attributes : statement -> world -> (exn + list attribute) * world;
  stmt_fetch : statement -> list param -> world -> (exn + list row) * world;
  get_statusmsg : statement -> world -> (exn + pystr) * world;
  stmt_cursor : statement -> list param -> world -> (exn + stream) * world;
  stream_fetch : stream -> Z -> world -> (exn + list row) * world;
  conn_executemany :
    string -> list (list param) -> world -> (exn + unit) * world;
  conn_transaction :
    string -> bool -> bool -> world -> (exn + transaction) * world;
  txn_start : transaction -> world -> (exn + unit) * world;
  txn_commit : transaction -> world -> (exn + unit) * world;
  txn_rollback : transaction -> world -> (exn + unit) * world;
  is_closed : world -> bool * world;
  conn_close : world -> (exn + unit) * world;
  (** [time.time()] *)
  time_time : world -> Q * world;
  (** [operation % placeholders], the formatting operator of [str] *)
  str_percent : string -> list string -> exn + string
}.

Section Adapter.
Context {native : Native}.

(** The calls into the driver, as the log of a run records them. *)
Inductive native_call : Type :=
  | call_connect
  | call_reload_schema_state
  | call_prepare (operation : string)
  | call_get_attributes (stmt : statement)
  | call_fetch (stmt : statement) (parameters : list param)
  | call_get_statusmsg (stmt : statement)
  | call_cursor (stmt : statement) (parameters : list param)
  | call_stream_fetch (cursor : stream) (n : Z)
  | call_executemany (operation : string) (seq : list (list param))
  | call_transaction (isolation : string) (readonly deferrable : bool)
  | call_start (t : transaction)
  | call_commit (t : transaction)
  | call_rollback (t : transaction)
  | call_is_closed
  | call_close.

(** *** Objects *)

(** A cache entry: [(prepared_stmt, attributes, cached_timestamp)]. *)
Definition cache_entry : Type := (statement * list attribute * Q)%type.

(** [AsyncAdapt_asyncpg_connection].  The native connection [_connection]
    is part of the world; [_execute_mutex] is free whenever a method is
    entered, there being one caller. *)
Record connection : Type := {
  isolation_level : string;
  _isolation_setting : string;
  readonly : bool;
  deferrable : bool;
  _transaction : option transaction;
  _started : bool;
  _prepared_statement_cache : option (LRUCache cache_entry);
  _invalidate_schema_cache_asof : Q
}.

(** [AsyncAdapt_asyncpg_cursor] and, with [server_side] set and the slot
    [_rowbuffer], [AsyncAdapt_asyncpg_ss_cursor]. *)
Record cursor : Type := {
  server_side : bool;
  _rows : list row;
  _cursor : option stream;
  description : option (list (string * Z));
  arraysize : Z;
  rowcount : Z;
  _inputsizes : option (list (option dbapi_type));
  cursor_invalidate_schema_cache_asof : Q;
  _rowbuffer : option (list row)
}.

(** The state a method runs in: the connection, the cursor at hand, the
    world and the log of the native calls made so far. *)
Record state : Type := {
  conn : connection;
  cur : cursor;
  the_world : world;
  log : list native_call
}.

(** *** Computations *)

Inductive result (A : Type) : Type :=
  | Return (a : A)
  | Raise (e : exn)
  | OutOfFuel.
Arguments Return {A} a.
Arguments Raise {A} e.
Arguments OutOfFuel {A}.

Definition M (A : Type) : Type := state -> result A * state.

Definition ret {A : Type} (a : A) : M A := fun s => (Return a, s).

Definition bind {A B : Type} (m : M A) (k : A -> M B) : M B :=
  fun s =>
    match m s with
    | (Return a, s') => k a s'
    | (Raise e, s') => (Raise e, s')
    | (OutOfFuel, s') => (OutOfFuel, s')
    end.

Definition raise {A : Type} (e : exn) : M A := fun s => (Raise e, s).

Notation "x <- m ;; k" := (bind m (fun x => k))
  (at level 61, m at next level, right associativity).
Notation "m ;;; k" := (bind m (fun _ => k))
  (at level 61, right associativity).

(** [try: body / except Exception as error: handler error] *)
Definition try_except {A : Type} (body : M A) (handler : exn -> M A) : M A :=
  fun s =>
    match body s with
    | (Raise e, s') =>
        if isinstance e py_Exception then handler e s' else (Raise e, s')
    | other => other
    end.

(** [try: body / except Exception as error: handler error / else: orelse] *)
Definition try_except_else (body : M unit) (handler : exn -> M unit)
    (orelse : M unit) : M unit :=
  fun s =>
    match body s with
    | (Return _, s') => orelse s'
    | (Raise e, s') =>
        if isinstance e py_Exception then handler e s' else (Raise e, s')
    | (OutOfFuel, s') => (OutOfFuel, s')
    end.

(** [try: body / finally: final] *)
Definition try_finally {A : Type} (body : M A) (final : M unit) : M A :=
  fun s =>
    match body s with
    | (OutOfFuel, s') => (OutOfFuel, s')
    | (r, s') =>
        match final s' with
        | (Return _, s'') => (r, s'')
        | (Raise e, s'') => (Raise e, s'')
        | (OutOfFuel, s'') => (OutOfFuel, s'')
        end
    end.

Definition get_conn : M connection := fun s => (Return (conn s), s).
Definition get_cur : M cursor := fun s => (Return (cur s), s).

Definition update_conn (f : connection -> connection) : M unit :=
  fun s => (Return tt, {| conn := f (conn s); cur := cur s;
                          the_world := the_world s; log := log s |}).

Definition update_cur (f : cursor -> cursor) : M unit :=
  fun s => (Return tt, {| conn := conn s; cur := f (cur s);
                          the_world := the_world s; log := log s |}).

(** A call into the driver: it is logged, the world moves on, and an
    exception of the driver is raised in the caller.  [await_] runs a
    coroutine of the driver to its end, so an awaited call is one call. *)
Definition call {A : Type} (c : native_call)
    (f : world -> (exn + A) * world) : M A :=
  fun s =>
    let (r, w) := f (the_world s) in
    (match r with inl e => Raise e | inr a => Return a end,
     {| conn := conn s; cur := cur s; the_world := w;
        log := (log s ++ [c])%list |}).

Definition call_pure {A : Type} (c : native_call)
    (f : world -> A * world) : M A :=
  call c (fun w => let (a, w') := f w in (inr a, w')).

(** [time.time()] is read off the world and is not a call of the driver. *)
Definition now : M Q :=
  fun s =>
    let (t, w) := time_time (the_world s) in
    (Return t, {| conn := conn s; cur := cur s; the_world := w;
                  log := log s |}).

Definition AttributeError (attr : string) : exn :=
  builtin_exception "AttributeError"
    ("'NoneType' object has no attribute '" ++ attr ++ "'").
Definition TypeError (message : string) : exn :=
  builtin_exception "TypeError" message.
Definition IndexError : exn :=
  builtin_exception "IndexError" "list index out of range".
Definition KeyError (key : string) : exn :=
  builtin_exception "KeyError" key.
Definition NotImplementedError (message : string) : exn :=
  builtin_exception "NotImplementedError" message.

(** *** Field assignments *)

Definition set_isolation (level setting : string) (c : connection)
  : connection :=
  {| isolation_level := level; _isolation_setting := setting;
     readonly := readonly c; deferrable := deferrable c;
     _transaction := _transaction c; _started := _started c;
     _prepared_statement_cache := _prepared_statement_cache c;
     _invalidate_schema_cache_asof := _invalidate_schema_cache_asof c |}.

Definition set_flags (ro de : bool) (c : connection) : connection :=
  {| isolation_level := isolation_level c;
     _isolation_setting := _isolation_setting c;
     readonly := ro; deferrable := de;
     _transaction := _transaction c; _started := _started c;
     _prepared_statement_cache := _prepared_statement_cache c;
     _invalidate_schema_cache_asof := _invalidate_schema_cache_asof c |}.

Definition set_transaction (t : option transaction) (c : connection)
  : connection :=
  {| isolation_level := isolation_level c;
     _isolation_setting := _isolation_setting c;
     readonly := readonly c; deferrable := deferrable c;
     _transaction := t; _started := _started c;
     _prepared_statement_cache := _prepared_statement_cache c;
     _invalidate_schema_cache_asof := _invalidate_schema_cache_asof c |}.

Definition set_started (b : bool) (c : connection) : connection :=
  {| isolation_level := isolation_level c;
     _isolation_setting := _isolation_setting c;
     readonly := readonly c; deferrable := deferrable c;
     _transaction := _transaction c; _started := b;
     _prepared_statement_cache := _prepared_statement_cache c;
     _invalidate_schema_cache_asof := _invalidate_schema_cache_asof c |}.

Definition set_cache (k : option (LRUCache cache_entry)) (c : connection)
  : connection :=
  {| isolation_level := isolation_level c;
     _isolation_setting := _isolation_setting c;
     readonly := readonly c; deferrable := deferrable c;
     _transaction := _transaction c; _started := _started c;
     _prepared_statement_cache := k;
     _invalidate_schema_cache_asof := _invalidate_schema_cache_asof c |}.

Definition set_asof (t : Q) (c : connection) : connection :=
  {| isolation_level := isolation_level c;
     _isolation_setting := _isolation_setting c;
     readonly := readonly c; deferrable := deferrable c;
     _transaction := _transaction c; _started := _started c;
     _prepared_statement_cache := _prepared_statement_cache c;
     _invalidate_schema_cache_asof := t |}.

Definition set_rows (rs : list row) (c : cursor) : cursor :=
  {| server_side := server_side c; _rows := rs; _cursor := _cursor c;
     description := description c; arraysize := arraysize c;
     rowcount := rowcount c; _inputsizes := _inputsizes c;
     cursor_invalidate_schema_cache_asof :=
       cursor_invalidate_schema_cache_asof c;
     _rowbuffer := _rowbuffer c |}.

Definition set_stream (h : option stream) (c : cursor) : cursor :=
  {| server_side := server_side c; _rows := _rows c; _cursor := h;
     description := description c; arraysize := arraysize c;
     rowcount := rowcount c; _inputsizes := _inputsizes c;
     cursor_invalidate_schema_cache_asof :=
       cursor_invalidate_schema_cache_asof c;
     _rowbuffer := _rowbuffer c |}.

Definition set_description (d : option (list (string * Z))) (c : cursor)
  : cursor :=
  {| server_side := server_side c; _rows := _rows c; _cursor := _cursor c;
     description := d; arraysize := arraysize c;
     rowcount := rowcount c; _inputsizes := _inputsizes c;
     cursor_invalidate_schema_cache_asof :=
       cursor_invalidate_schema_cache_asof c;
     _rowbuffer := _rowbuffer c |}.

Definition set_rowcount (n : Z) (c : cursor) : cursor :=
  {| server_side := server_side c; _rows := _rows c; _cursor := _cursor c;
     description := description c; arraysize := arraysize c;
     rowcount := n; _inputsizes := _inputsizes c;
     cursor_invalidate_schema_cache_asof :=
       cursor_invalidate_schema_cache_asof c;
     _rowbuffer := _rowbuffer c |}.

Definition set_inputsizes (i : option (list (option dbapi_type)))
    (c : cursor) : cursor :=
  {| server_side := server_side c; _rows := _rows c; _cursor := _cursor c;
     description := description c; arraysize := arraysize c;
     rowcount := rowcount c; _inputsizes := i;
     cursor_invalidate_schema_cache_asof :=
       cursor_invalidate_schema_cache_asof c;
     _rowbuffer := _rowbuffer c |}.

Definition set_rowbuffer (b : option (list row)) (c : cursor) : cursor :=
  {| server_side := server_side c; _rows := _rows c; _cursor := _cursor c;
     description := description c; arraysize := arraysize c;
     rowcount := rowcount c; _inputsizes := _inputsizes c;
     cursor_invalidate_schema_cache_asof :=
       cursor_invalidate_schema_cache_asof c;
     _rowbuffer := b |}.

(** *** AsyncAdapt_asyncpg_connection *)

(** [a > b] on timestamps.  A timestamp is a finite float, so a rational,
    and the order of floats is the order of the rationals they denote. *)
Definition gt (a b : Q) : bool := negb (Qle_bool a b).

(** [__init__] *)
Definition connection_init (prepared_statement_cache_size : nat) (t : Q)
  : connection :=
  {| isolation_level := "read_committed";
     _isolation_setting := "read_committed";
     readonly := false;
     deferrable := false;
     _transaction := None;
     _started := false;
     _prepared_statement_cache :=
       match prepared_statement_cache_size with
       | O => None
       | S _ => Some (lru_new cache_entry prepared_statement_cache_size)
       end;
     _invalidate_schema_cache_asof := t |}.

(** [_check_type_cache_invalidation] *)
Definition _check_type_cache_invalidation (invalidate_timestamp : Q)
  : M unit :=
  c <- get_conn ;;
  if gt invalidate_timestamp (_invalidate_schema_cache_asof c) then
    call call_reload_schema_state reload_schema_state ;;;
    update_conn (set_asof invalidate_timestamp)
  else ret tt.

(** The tail of [_prepare]: compile, read the attributes and store. *)
Definition prepare_and_store (operation : string)
    (cache : LRUCache cache_entry) : M (statement * list attribute) :=
  prepared_stmt <- call (call_prepare operation) (prepare operation) ;;
  attributes <- call (call_get_attributes prepared_stmt)
                     (get_attributes prepared_stmt) ;;
  t <- now ;;
  update_conn
    (set_cache
       (Some (lru_setitem operation (prepared_stmt, attributes, t) cache)))
  ;;;
  ret (prepared_stmt, attributes).

(** [_prepare] *)
Definition _prepare (operation : string) (invalidate_timestamp : Q)
  : M (statement * list attribute) :=
  _check_type_cache_invalidation invalidate_timestamp ;;;
  c <- get_conn ;;
  match _prepared_statement_cache c with
  | None =>
      prepared_stmt <- call (call_prepare operation) (prepare operation) ;;
      attributes <- call (call_get_attributes prepared_stmt)
                         (get_attributes prepared_stmt) ;;
      ret (prepared_stmt, attributes)
  | Some cache =>
      if lru_contains operation cache then
        match lru_getitem operation cache with
        | Some ((prepared_stmt, attributes, cached_timestamp), cache') =>
            update_conn (set_cache (Some cache')) ;;;
            if gt cached_timestamp invalidate_timestamp then
              ret (prepared_stmt, attributes)
            else prepare_and_store operation cache'
        | None => raise (KeyError operation)
        end
      else prepare_and_store operation cache
  end.

(** The exception that [_handle_exception] raises for [error]: the walk
    of [type(error).__mro__] over the translation table. *)
Fixpoint translate_walk (error : exn) (mro : list pyclass) : exn :=
  match mro with
  | [] => error
  | super_ :: mro' =>
      match _asyncpg_error_translate super_ with
      | Some generic =>
          let translated_error :=
            new_exception generic
              (class_repr (exn_type error) ++ ": " ++ exn_message error) in
          Exn (exn_mro translated_error) (exn_message translated_error)
              (exn_sqlstate error) (exn_sqlstate error) (Some error)
      | None => translate_walk error mro'
      end
  end.

Definition translate (error : exn) : exn :=
  if negb (isinstance error Error) then translate_walk error (exn_mro error)
  else error.

(** [_handle_exception]; it never returns. *)
Definition _handle_exception {A : Type} (error : exn) : M A :=
  closed <- call_pure call_is_closed is_closed ;;
  (if closed : bool then
     update_conn (fun c => set_started false (set_transaction None c))
   else ret tt) ;;;
  raise (translate error).

(** The [autocommit] property and its setter *)
Definition autocommit (c : connection) : bool :=
  String.eqb (isolation_level c) "autocommit".

Definition set_autocommit (value : bool) : M unit :=
  update_conn (fun c =>
    if value then set_isolation "autocommit" (_isolation_setting c) c
    else set_isolation (_isolation_setting c) (_isolation_setting c) c).

(** [_start_transaction] *)
Definition _start_transaction : M unit :=
  c <- get_conn ;;
  if String.eqb (isolation_level c) "autocommit" then ret tt
  else
    try_except_else
      (t <- call (call_transaction (isolation_level c) (readonly c)
                                   (deferrable c))
                 (conn_transaction (isolation_level c) (readonly c)
                                   (deferrable c)) ;;
       update_conn (set_transaction (Some t)) ;;;
       call (call_start t) (txn_start t))
      _handle_exception
      (update_conn (set_started true)).

(** [self._transaction = None; self._started = False] *)
Definition clear_transaction : M unit :=
  update_conn (set_transaction None) ;;;
  update_conn (set_started false).

(** [rollback] *)
Definition rollback : M unit :=
  c <- get_conn ;;
  if _started c then
    try_finally
      (try_except
         match _transaction c with
         | Some t => call (call_rollback t) (txn_rollback t)
         | None => raise (AttributeError "rollback")
         end
         _handle_exception)
      clear_transaction
  else ret tt.

(** [commit] *)
Definition commit : M unit :=
  c <- get_conn ;;
  if _started c then
    try_finally
      (try_except
         match _transaction c with
         | Some t => call (call_commit t) (txn_commit t)
         | None => raise (AttributeError "commit")
         end
         _handle_exception)
      clear_transaction
  else ret tt.

(** [set_isolation_level] *)
Definition set_isolation_level (level : string) : M unit :=
  c <- get_conn ;;
  (if _started c then rollback else ret tt) ;;;
  update_conn (set_isolation level level).

(** [close] *)
Definition close : M unit :=
  rollback ;;;
  call call_close conn_close.

(** *** AsyncAdapt_asyncpg_cursor *)

(** [__init__], of the plain cursor or of the server side one *)
Definition cursor_init (ss : bool) : cursor :=
  {| server_side := ss; _rows := []; _cursor := None;
     description := None; arraysize := 1; rowcount := -1;
     _inputsizes := None; cursor_invalidate_schema_cache_asof := 0%Q;
     _rowbuffer := None |}.

Definition lift_exn {A : Type} (r : exn + A) : M A :=
  match r with inl e => raise e | inr a => ret a end.

Definition out_of_fuel {A : Type} : M A := fun s => (OutOfFuel, s).

(** [_prepare_and_execute], the coroutine of [execute] *)
Definition _prepare_and_execute (operation : string)
    (parameters : option (list param)) : M unit :=
  c <- get_conn ;;
  (if negb (_started c) then _start_transaction else ret tt) ;;;
  k <- get_cur ;;
  operation <- match parameters with
               | Some ps =>
                   lift_exn
                     (str_percent operation
                        (_parameter_placeholders (_inputsizes k) ps))
               | None => ret operation
               end ;;
  let parameters := match parameters with Some ps => ps | None => [] end in
  try_except
    (pa <- _prepare operation (cursor_invalidate_schema_cache_asof k) ;;
     let (prepared_stmt, attributes) := pa : statement * list attribute in
     update_cur
       (set_description
          match attributes with
          | [] => None
          | _ :: _ => Some (map describe attributes)
          end) ;;;
     if server_side k then
       h <- call (call_cursor prepared_stmt parameters)
                 (stmt_cursor prepared_stmt parameters) ;;
       update_cur (set_stream (Some h)) ;;;
       update_cur (set_rowcount (-1))
     else
       rows <- call (call_fetch prepared_stmt parameters)
                    (stmt_fetch prepared_stmt parameters) ;;
       update_cur (set_rows rows) ;;;
       status <- call (call_get_statusmsg prepared_stmt)
                      (get_statusmsg prepared_stmt) ;;
       update_cur (set_rowcount (rowcount_of_status status)))
    _handle_exception.

Definition execute (operation : string) (parameters : option (list param))
  : M unit :=
  _prepare_and_execute operation parameters.

(** [_executemany] *)
Definition _executemany (operation : string)
    (seq_of_parameters : list (list param)) : M unit :=
  k <- get_cur ;;
  _check_type_cache_invalidation (cursor_invalidate_schema_cache_asof k) ;;;
  c <- get_conn ;;
  (if negb (_started c) then _start_transaction else ret tt) ;;;
  first <- match seq_of_parameters with
           | p :: _ => ret p
           | [] => raise IndexError
           end ;;
  operation <- lift_exn
                 (str_percent operation
                    (_parameter_placeholders (_inputsizes k) first)) ;;
  try_except
    (call (call_executemany operation seq_of_parameters)
          (conn_executemany operation seq_of_parameters))
    _handle_exception.

(** [executemany]; the server side cursor overrides it. *)
Definition executemany (operation : string)
    (seq_of_parameters : list (list param)) : M unit :=
  k <- get_cur ;;
  if server_side k then
    raise (NotImplementedError
             "server side cursor doesn't support executemany yet")
  else _executemany operation seq_of_parameters.

Definition setinputsizes (inputsizes : list (option dbapi_type)) : M unit :=
  update_cur (set_inputsizes (Some inputsizes)).

(** [close], [fetchone], [fetchmany] and [fetchall] of the plain cursor *)
Definition cursor_close : M unit := update_cur (set_rows []).

Definition fetchone : M (option row) :=
  k <- get_cur ;;
  match _rows k with
  | r :: rs => update_cur (set_rows rs) ;;; ret (Some r)
  | [] => ret None
  end.

Definition fetchmany (size : option Z) : M (list row) :=
  k <- get_cur ;;
  let size := match size with Some n => n | None => arraysize k end in
  update_cur (set_rows (slice_from (_rows k) size)) ;;;
  ret (slice_to (_rows k) size).

Definition fetchall : M (list row) :=
  k <- get_cur ;;
  update_cur (set_rows []) ;;;
  ret (_rows k).

(** *** AsyncAdapt_asyncpg_ss_cursor *)

Definition ss_close : M unit :=
  update_cur (set_stream None) ;;;
  update_cur (set_rowbuffer None).

(** [self._cursor.fetch(n)], awaited *)
Definition cursor_fetch (n : Z) : M (list row) :=
  k <- get_cur ;;
  match _cursor k with
  | Some h => call (call_stream_fetch h n) (stream_fetch h n)
  | None => raise (AttributeError "fetch")
  end.

(** [list(self._rowbuffer)] *)
Definition list_rowbuffer : M (list row) :=
  k <- get_cur ;;
  match _rowbuffer k with
  | Some buf => ret buf
  | None => raise (TypeError "'NoneType' object is not iterable")
  end.

(** [not self._rowbuffer]: the buffer is [None] or holds no row. *)
Definition rowbuffer_empty (k : cursor) : bool :=
  match _rowbuffer k with Some (_ :: _) => false | _ => true end.

Definition _buffer_rows : M unit :=
  new_rows <- cursor_fetch 50 ;;
  update_cur (set_rowbuffer (Some new_rows)).

Definition ss_fetchone : M (option row) :=
  k <- get_cur ;;
  (if rowbuffer_empty k then _buffer_rows else ret tt) ;;;
  k <- get_cur ;;
  match _rowbuffer k with
  | Some (r :: rs) => update_cur (set_rowbuffer (Some rs)) ;;; ret (Some r)
  | _ => ret None
  end.

(** [_all]: the loop runs until the stream answers with no row, which
    nothing in the adapter bounds; [fuel] counts the fetches allowed. *)
Fixpoint all_loop (fuel : nat) (rows : list row) : M (list row) :=
  match fuel with
  | O => out_of_fuel
  | S fuel' =>
      batch <- cursor_fetch 1000 ;;
      match batch with
      | _ :: _ => all_loop fuel' (rows ++ batch)%list
      | [] => ret rows
      end
  end.

Definition _all (fuel : nat) : M (list row) := all_loop fuel [].

Definition ss_fetchall (fuel : nat) : M (list row) :=
  buffered <- list_rowbuffer ;;
  rows <- _all fuel ;;
  update_cur (set_rowbuffer (Some [])) ;;;
  ret (buffered ++ rows)%list.

Definition ss_fetchmany (fuel : nat) (size : option Z) : M (list row) :=
  match size with
  | None => ss_fetchall fuel
  | Some size =>
      k <- get_cur ;;
      (if rowbuffer_empty k then _buffer_rows else ret tt) ;;;
      buf <- list_rowbuffer ;;
      let lb := Z.of_nat (List.length buf) in
      buf <- (if size >? lb then
                more <- cursor_fetch (size - lb) ;;
                ret (buf ++ more)%list
              else ret buf) ;;
      update_cur (set_rowbuffer (Some (slice_from buf size))) ;;;
      ret (slice_to buf size)
  end.

(** *** AsyncAdapt_asyncpg_dbapi.connect *)

(** [connect]: the native connection is opened, then wrapped. *)
Definition connect (prepared_statement_cache_size : nat) (w : world)
  : result connection * world :=
  match asyncpg_connect w with
  | (inl e, w') => (Raise e, w')
  | (inr _, w') =>
      let (t, w'') := time_time w' in
      (Return (connection_init prepared_statement_cache_size t), w'')
  end.

(** *** Runs of a connection *)

(** What a caller does with a connection and its cursors.  [use_cursor]
    takes up a cursor of the connection, [cursor] a new one; [pre_exec]
    is the execution context handing the timestamp of the dialect to the
    cursor at hand. *)
Inductive operation : Type :=
  | op_execute (operation : string) (parameters : option (list param))
  | op_executemany (operation : string) (seq : list (list param))
  | op_start_transaction
  | op_commit
  | op_rollback
  | op_close
  | op_set_isolation_level (level : string)
  | op_set_autocommit (value : bool)
  | op_set_flags (readonly deferrable : bool)
  | op_cursor (server_side : bool)
  | op_use_cursor (k : cursor)
  | op_pre_exec (asof : Q)
  | op_setinputsizes (inputsizes : list (option dbapi_type))
  | op_fetchone
  | op_fetchmany (size : option Z)
  | op_fetchall
  | op_cursor_close.

Definition forget {A : Type} (m : M A) : M unit := m ;;; ret tt.

Definition replace_cur (k : cursor) : M unit := update_cur (fun _ => k).

Definition set_cursor_asof (t : Q) (c : cursor) : cursor :=
  {| server_side := server_side c; _rows := _rows c; _cursor := _cursor c;
     description := description c; arraysize := arraysize c;
     rowcount := rowcount c; _inputsizes := _inputsizes c;
     cursor_invalidate_schema_cache_asof := t;
     _rowbuffer := _rowbuffer c |}.

Definition perform (fuel : nat) (op : operation) : M unit :=
  match op with
  | op_execute o ps => execute o ps
  | op_executemany o seq => executemany o seq
  | op_start_transaction => _start_transaction
  | op_commit => commit
  | op_rollback => rollback
  | op_close => close
  | op_set_isolation_level level => set_isolation_level level
  | op_set_autocommit value => set_autocommit value
  | op_set_flags ro de => update_conn (set_flags ro de)
  | op_cursor ss => replace_cur (cursor_init ss)
  | op_use_cursor k => replace_cur k
  | op_pre_exec t => update_cur (set_cursor_asof t)
  | op_setinputsizes i => setinputsizes i
  | op_fetchone =>
      k <- get_cur ;;
      if server_side k then forget ss_fetchone else forget fetchone
  | op_fetchmany size =>
      k <- get_cur ;;
      if server_side k then forget (ss_fetchmany fuel size)
      else forget (fetchmany size)
  | op_fetchall =>
      k <- get_cur ;;
      if server_side k then forget (ss_fetchall fuel) else forget fetchall
  | op_cursor_close =>
      k <- get_cur ;;
      if server_side k then ss_close else cursor_close
  end.

(** The states of an adapted connection: those that [connect] leaves, and
    those an operation leaves, whether it returns or raises; between two
    operations the world may move on by itself. *)
Inductive reachable : state -> Prop :=
  | reach_connect size w c w' k :
      connect size w = (Return c, w') ->
      reachable {| conn := c; cur := k; the_world := w';
                   log := [call_connect] |}
  | reach_perform s fuel op :
      reachable s -> reachable (snd (perform fuel op s))
  | reach_world s w :
      reachable s ->
      reachable {| conn := conn s; cur := cur s; the_world := w;
                   log := log s |}.

End Adapter.

Arguments Return {A} a.
Arguments Raise {A} e.
Arguments OutOfFuel {A}.

(** ** The iterator, the execution context and the dialect *)

(** [str.replace("_", " ")] *)
Fixpoint replace_underscores (s : string) : string :=
  match s with
  | EmptyString => EmptyString
  | String c s' =>
      String (if Ascii.eqb c "_" then " " else c) (replace_underscores s')
  end.

(** [sub in s] *)
Fixpoint contains (sub s : string) : bool :=
  match s with
  | EmptyString => prefix sub EmptyString
  | String _ s' => prefix sub s || contains sub s'
  end.

(** [", ".join(names)] *)
Fixpoint join_comma (names : list string) : string :=
  match names with
  | [] => ""
  | [n] => n
  | n :: names' => n ++ ", " ++ join_comma names'
  end.

(** [_isolation_lookup]: the keys in the order of the dict, and the
    lookup. *)
Definition isolation_names : list string :=
  ["AUTOCOMMIT"; "READ COMMITTED"; "REPEATABLE READ"; "SERIALIZABLE"].

Definition _isolation_lookup (key : string) : option string :=
  if String.eqb key "AUTOCOMMIT" then Some "autocommit"
  else if String.eqb key "READ COMMITTED" then Some "read_committed"
  else if String.eqb key "REPEATABLE READ" then Some "repeatable_read"
  else if String.eqb key "SERIALIZABLE" then Some "serializable"
  else None.

(** [exc.ArgumentError], raised in place of the [KeyError] of the lookup. *)
Definition ArgumentError (message key : string) : exn :=
  Exn [other_class "sqlalchemy.exc.ArgumentError";
       other_class "sqlalchemy.exc.SQLAlchemyError";
       py_Exception; py_BaseException; py_object]
      message None None
      (Some (builtin_exception "KeyError" ("'" ++ key ++ "'"))).

(** [PGDialect_asyncpg], as far as the adapter goes: its name and the
    timestamp of the last invalidation of the schema caches, 0 at first. *)
Record dialect : Type := {
  dialect_name : string;
  dialect_invalidate_schema_cache_asof : Q
}.

Section Dialect.
Context {native : Native}.

Notation "x <- m ;; k" := (bind m (fun x => k))
  (at level 61, m at next level, right associativity).
Notation "m ;;; k" := (bind m (fun _ => k))
  (at level 61, right associativity).

(** [__iter__] of the plain cursor, run to its end as [list(cursor)] does:
    the generator pops the first row while there is one.  [fuel] counts the
    rows it may yield. *)
Fixpoint iterate (fuel : nat) : M (list row) :=
  k <- get_cur ;;
  match _rows k with
  | [] => ret []
  | r :: rs =>
      match fuel with
      | O => out_of_fuel
      | S fuel' =>
          update_cur (set_rows rs) ;;;
          rest <- iterate fuel' ;;
          ret (r :: rest)
      end
  end.

(** [PGDialect_asyncpg._invalidate_schema_cache] *)
Definition _invalidate_schema_cache (d : dialect) : M dialect :=
  t <- now ;;
  ret {| dialect_name := dialect_name d;
         dialect_invalidate_schema_cache_asof := t |}.

(** [PGExecutionContext_asyncpg.handle_dbapi_exception] *)
Definition handle_dbapi_exception (e : exn) (d : dialect) : M dialect :=
  if isinstance e InvalidCachedStatementError
     || isinstance e InternalServerError
  then _invalidate_schema_cache d
  else ret d.

(** [PGExecutionContext_asyncpg.pre_exec]: the dialect after it and the
    [exclude_set_input_sizes] it assigns, if it does. *)
Definition pre_exec (isddl compiled : bool) (d : dialect)
  : M (dialect * option (list dbapi_type)) :=
  d <- (if isddl then _invalidate_schema_cache d else ret d) ;;
  update_cur
    (set_cursor_asof (dialect_invalidate_schema_cache_asof d)) ;;;
  if negb compiled then ret (d, None)
  else ret (d, Some [ENUM]).

(** [PGDialect_asyncpg.set_isolation_level] *)
Definition dialect_set_isolation_level (d : dialect) (level : string)
  : M unit :=
  match _isolation_lookup (replace_underscores level) with
  | Some found => set_isolation_level found
  | None =>
      raise (ArgumentError
               ("Invalid value '" ++ level ++ "' for isolation_level. "
                ++ "Valid isolation levels for " ++ dialect_name d ++ " are "
                ++ join_comma isolation_names)
               (replace_underscores level))
  end.

(** [PGDialect_asyncpg.is_disconnect]; [connection] says whether a
    connection is given. *)
Definition is_disconnect (e : exn) (connection : bool) : M bool :=
  if connection then call_pure call_is_closed is_closed
  else ret (isinstance e InterfaceError
            && contains "connection is closed" (exn_message e)).

End Dialect.

(** ** A scripted driver

    A driver small enough to run: its statements are their SQL text, it has
    one transaction and one stream, and the world says which calls fail,
    whether the connection is closed, what time it is and which rows the
    stream still holds.  The clock advances by one at each reading.  With
    [start_can_fail] off the native [start] never raises. *)
Record script : Type := {
  fail_start : bool;
  fail_end : bool;
  fail_reload : bool;
  closed : bool;
  clock : Q;
  pending : list Z
}.

Definition connection_lost : exn :=
  Exn [other_class "asyncpg.exceptions.ConnectionDoesNotExistError";
       asyncpg_PostgresError; py_Exception; py_BaseException; py_object]
      "connection was closed in the middle of operation" (Some "08003")
      None None.

Definition answer (fails : bool) (w : script) : (exn + unit) * script :=
  (if fails then inl connection_lost else inr tt, w).

(** The command tag that the scripted server reports for a statement. *)
Definition status_of (sql : string) : pystr :=
  if prefix "UPDATE" sql then text "UPDATE 3"
  else if prefix "INSERT" sql then text "INSERT 0 1"
  else text "SELECT 1".

Definition take_rows (n : Z) (w : script) : script :=
  {| fail_start := fail_start w; fail_end := fail_end w;
     fail_reload := fail_reload w; closed := closed w; clock := clock w;
     pending := skipn (Z.to_nat n) (pending w) |}.

Definition tick (w : script) : script :=
  {| fail_start := fail_start w; fail_end := fail_end w;
     fail_reload := fail_reload w; closed := closed w;
     clock := clock w + 1; pending := pending w |}.

Definition scripted_driver (start_can_fail : bool) : Native := {|
  world := script;
  statement := string;
  transaction := unit;
  stream := unit;
  row := Z;
  param := Z;
  asyncpg_connect := answer false;
  reload_schema_state := fun w => answer (fail_reload w) w;
  prepare := fun sql w => (inr sql, w);
  get_attributes := fun _ w =>
    (inr [{| attr_name := "id"; attr_type_oid := 23 |}], w);
  stmt_fetch := fun _ _ w => (inr (pending w), w);
  get_statusmsg := fun sql w => (inr (status_of sql), w);
  stmt_cursor := fun _ _ w => (inr tt, w);
  stream_fetch := fun _ n w =>
    (inr (firstn (Z.to_nat n) (pending w)), take_rows n w);
  conn_executemany := fun _ _ => answer false;
  conn_transaction := fun _ _ _ w => (inr tt, w);
  txn_start := fun _ w => answer (start_can_fail && fail_start w) w;
  txn_commit := fun _ w => answer (fail_end w) w;
  txn_rollback := fun _ w => answer (fail_end w) w;
  is_closed := fun w => (closed w, w);
  conn_close := answer false;
  time_time := fun w => (clock w, tick w);
  str_percent := fun operation _ => inr operation
|}.

#[global] Instance scripted : Native := scripted_driver true.

Definition steady : Native := scripted_driver false.

(** A world where every call succeeds, with 120 rows to stream, and the
    worlds where [start], [commit] and [rollback], or the reload fail. *)
Definition calm : script :=
  {| fail_start := false; fail_end := false; fail_reload := false;
     closed := false; clock := 100;
     pending := map Z.of_nat (seq 1 120) |}.

Definition start_fails : script :=
  {| fail_start := true; fail_end := false; fail_reload := false;
     closed := false; clock := 100; pending := [] |}.

Definition start_fails_closed : script :=
  {| fail_start := true; fail_end := false; fail_reload := false;
     closed := true; clock := 100; pending := [] |}.

Definition end_fails : script :=
  {| fail_start := false; fail_end := true; fail_reload := false;
     closed := false; clock := 100; pending := [] |}.

Definition reload_fails : script :=
  {| fail_start := false; fail_end := false; fail_reload := true;
     closed := false; clock := 100; pending := [] |}.

(** The state that [connect] leaves in the world [w], with a new cursor. *)
Definition connected {native : Native} (size : nat) (w : world) (ss : bool)
  : state :=
  match connect size w with
  | (Return c, w') =>
      {| conn := c; cur := cursor_init ss; the_world := w';
         log := [call_connect] |}
  | (_, w') =>
      {| conn := connection_init size 0; cur := cursor_init ss;
         the_world := w'; log := [call_connect] |}
  end.

(** The state after a run of operations. *)
Fixpoint after {native : Native} (ops : list operation) (s : state) : state :=
  match ops with
  | [] => s
  | op :: ops' => after ops' (snd (perform 2 op s))
  end.

(** The states of the runs below: a new connection; one with a transaction
    open; the same where commit and rollback will fail; one whose server
    side cursor has run a statement and fetched nothing yet; and that one
    after a [fetchmany(48)], with two rows left in the buffer. *)
Definition idle : @state scripted := @connected scripted 100 calm false.

Definition busy : @state scripted :=
  @after scripted [op_execute "SELECT 1" None] idle.

Definition busy_end_fails : @state scripted :=
  @after scripted [op_execute "SELECT 1" None]
    (@connected scripted 100 end_fails false).

Definition streaming : @state scripted :=
  @after scripted [op_execute "SELECT 1" None]
    (@connected scripted 100 calm true).

Definition buffered : @state scripted :=
  @after scripted [op_fetchmany (Some 48)] streaming.

Definition uncached : @state scripted := @connected scripted 0 calm false.

Definition reload_down : @state scripted :=
  @connected scripted 100 reload_fails false.

Definition start_failed : @state scripted :=
  @after scripted [op_execute "SELECT 1" None]
    (@connected scripted 100 start_fails false).

(** The worlds where neither [start] nor the reload fails. *)
Definition obliging (w : script) : Prop :=
  fail_start w = false /\ fail_reload w = false.

(** The state [busy] once the server has dropped the connection; a new
    connection whose cursor carries an invalidation timestamp of 200 while
    the reload will fail; the dialect before any invalidation; and two
    native exceptions: the one that asyncpg raises on a closed connection
    and the one for a cached plan that is no longer valid. *)
Definition dropped : @state scripted :=
  {| conn := conn busy; cur := cur busy;
     the_world :=
       {| fail_start := false; fail_end := false; fail_reload := false;
          closed := true; clock := 200; pending := [] |};
     log := log busy |}.

Definition stale_reload_down : @state scripted :=
  @after scripted [op_pre_exec 200] reload_down.


Definition postgresql : dialect :=
  {| dialect_name := "postgresql";
     dialect_invalidate_schema_cache_asof := 0 |}.

Definition connection_is_closed : exn :=
  Exn [asyncpg_InterfaceError; py_Exception; py_BaseException; py_object]
      "cannot perform operation: connection is closed" None None None.

Definition plan_invalid : exn :=
  Exn [asyncpg_InvalidCachedStatementError;
       other_class "asyncpg.exceptions.FeatureNotSupportedError";
       asyncpg_PostgresError; py_Exception; py_BaseException; py_object]
      "cached statement plan is invalid due to a database schema or configuration change"
      (Some "0A000") None None.

(** ** Vocabulary of the properties *)

(** The generic class of the first class of a chain that the table maps. *)
Fixpoint first_mapped (mro : list pyclass) : option pyclass :=
  match mro with
  | [] => None
  | c :: mro' =>
      match _asyncpg_error_translate c with
      | Some generic => Some generic
      | None => first_mapped mro'
      end
  end.

(** The texts a pattern matches. *)
Definition all_digits (s : pystr) : bool := forallb is_digit s.

Definition number (s : pystr) : Prop := s <> [] /\ all_digits s = true.

Fixpoint lang (r : regex) (x : pystr) : Prop :=
  match r with
  | Lit p => x = text p
  | Digits => number x
  | Alt r1 r2 => lang r1 x \/ lang r2 x
  | Seq r1 r2 =>
      exists x1 x2, x = (x1 ++ x2)%list /\ lang r1 x1 /\ lang r2 x2
  | NonCapture r1 => lang r1 x
  | Capture r1 => lang r1 x
  end.

(** The command tags of the pattern: UPDATE, DELETE, or INSERT and a
    number (the OID field of the tag of an INSERT). *)
Definition command_tag (tag : pystr) : Prop :=
  tag = text "UPDATE" \/ tag = text "DELETE"
  \/ exists oid, number oid /\ tag = (text "INSERT " ++ oid)%list.

(** The digits a text starts with, and the text after them. *)
Fixpoint leading_digits (s : pystr) : pystr :=
  match s with
  | c :: s' => if is_digit c then c :: leading_digits s' else []
  | [] => []
  end.

Fixpoint after_digits (s : pystr) : pystr :=
  match s with
  | c :: s' => if is_digit c then after_digits s' else s
  | [] => []
  end.

Definition no_digit_ahead (s : pystr) : Prop :=
  match s with
  | c :: _ => is_digit c = false
  | [] => True
  end.

Section Vocabulary.
Context {native : Native}.

Definition with_world (s : state) (w : world) (calls : list native_call)
  : state :=
  {| conn := conn s; cur := cur s; the_world := w;
     log := (log s ++ calls)%list |}.

Definition with_conn (s : state) (c : connection) : state :=
  {| conn := c; cur := cur s; the_world := the_world s; log := log s |}.

Definition with_cur (s : state) (k : cursor) : state :=
  {| conn := conn s; cur := k; the_world := the_world s; log := log s |}.

(** The stream [h], asked for 1000 rows again and again from the world
    [w], answers with the batches [batches], none empty, and then with no
    row, leaving the world [w']. *)
Inductive drains (h : stream) : world -> list (list row) -> world -> Prop :=
  | drains_done w w' :
      stream_fetch h 1000 w = (inr [], w') -> drains h w [] w'
  | drains_batch w w1 w' r batch batches :
      stream_fetch h 1000 w = (inr (r :: batch), w1) ->
      drains h w1 batches w' ->
      drains h w ((r :: batch) :: batches) w'.

(** The rows that a server side cursor holds in its buffer. *)
Definition buffered_rows (k : cursor) : list row :=
  match _rowbuffer k with Some buf => buf | None => [] end.

(** A relation [I] between the transaction handle and the started flag
    holds of a connection; a computation keeps it. *)
Definition holds (I : option transaction -> bool -> Prop)
    (c : connection) : Prop :=
  I (_transaction c) (_started c).

Definition preserves (I : option transaction -> bool -> Prop)
    {A : Type} (m : M A) : Prop :=
  forall s, holds I (conn s) -> holds I (conn (snd (m s))).
(** The calls of a statement all answer in the worlds [W], and lead from
    one of them to another. *)
Record answering (W : world -> Prop) : Prop := {
  answers_transaction :
    forall level ro de w, W w ->
      exists t w', conn_transaction level ro de w = (inr t, w') /\ W w';
  answers_start :
    forall t w, W w -> exists w', txn_start t w = (inr tt, w') /\ W w';
  answers_reload :
    forall w, W w -> exists w', reload_schema_state w = (inr tt, w') /\ W w';
  answers_prepare :
    forall sql w, W w -> exists stmt w', prepare sql w = (inr stmt, w') /\ W w';
  answers_attributes :
    forall stmt w, W w ->
      exists attrs w', get_attributes stmt w = (inr attrs, w') /\ W w';
  answers_fetch :
    forall stmt ps w, W w ->
      exists rows w', stmt_fetch stmt ps w = (inr rows, w') /\ W w';
  answers_status :
    forall stmt w, W w ->
      exists status w', get_statusmsg stmt w = (inr status, w') /\ W w';
  answers_cursor :
    forall stmt ps w, W w ->
      exists h w', stmt_cursor stmt ps w = (inr h, w') /\ W w';
  answers_clock : forall w, W w -> W (snd (time_time w))
}.

(** A computation that returns from every state whose world is in [W], in
    a state whose world is in [W]. *)
Definition succeeds (W : world -> Prop) {A : Type} (m : M A) : Prop :=
  forall s, W (the_world s) ->
    exists a s', m s = (Return a, s') /\ W (the_world s').
End Vocabulary.

Section Runs.
Context {native : Native}.

(** A relation [R] between the state before and the state after holds of
    every run of a computation. *)
Definition steps (R : state -> state -> Prop) {A : Type} (m : M A) : Prop :=
  forall s, R s (snd (m s)).

(** The calls of a statement: schema reload, compilation, execution. *)
Definition statement_call (c : native_call) : bool :=
  match c with
  | call_reload_schema_state | call_prepare _ | call_get_attributes _
  | call_fetch _ _ | call_get_statusmsg _ | call_cursor _ _
  | call_executemany _ _ | call_is_closed => true
  | _ => false
  end.

(** The calls of transaction control. *)
Definition transaction_call (c : native_call) : bool :=
  match c with
  | call_transaction _ _ _ | call_start _ | call_commit _ | call_rollback _
  | call_is_closed => true
  | _ => false
  end.

(** The part of [_prepare_and_execute] under [try], for the statement
    [operation] with the parameters [parameters] on the cursor [k]. *)
Definition execute_body (operation : string) (parameters : list param)
    (k : cursor) : M unit :=
  bind (_prepare operation (cursor_invalidate_schema_cache_asof k))
    (fun pa =>
       let (prepared_stmt, attributes) := pa : statement * list attribute in
       bind
         (update_cur
            (set_description
               match attributes with
               | [] => None
               | _ :: _ => Some (map describe attributes)
               end))
         (fun _ =>
            if server_side k then
              bind (call (call_cursor prepared_stmt parameters)
                         (stmt_cursor prepared_stmt parameters))
                (fun h =>
                   bind (update_cur (set_stream (Some h)))
                     (fun _ => update_cur (set_rowcount (-1))))
            else
              bind (call (call_fetch prepared_stmt parameters)
                         (stmt_fetch prepared_stmt parameters))
                (fun rows =>
                   bind (update_cur (set_rows rows))
                     (fun _ =>
                        bind (call (call_get_statusmsg prepared_stmt)
                                   (get_statusmsg prepared_stmt))
                          (fun status =>
                             update_cur
                               (set_rowcount
                                  (rowcount_of_status status))))))).

(** What [_prepare_and_execute] does once the transaction is seen to. *)
Definition execute_tail (operation : string)
    (parameters : option (list param)) : M unit :=
  bind get_cur
    (fun k =>
       bind
         match parameters with
         | Some ps =>
             lift_exn
               (str_percent operation
                  (_parameter_placeholders (_inputsizes k) ps))
         | None => ret operation
         end
         (fun operation =>
            try_except
              (execute_body operation
                 match parameters with Some ps => ps | None => [] end k)
              _handle_exception)).

(** From [s] to [s'] the log grew by calls that all satisfy [P]. *)
Definition appends (P : native_call -> Prop) (s s' : state) : Prop :=
  exists calls, log s' = (log s ++ calls)%list /\ Forall P calls.

(** The calls that open a transaction. *)
Definition start_call (c : native_call) : bool :=
  match c with
  | call_transaction _ _ _ | call_start _ => true
  | _ => false
  end.

(** From [s] to [s'] no transaction was begun and no setting changed: the
    started flag did not turn on, the handle is the same or gone, and the
    isolation level, its sticky setting and the two flags are the same. *)
Definition settled (s s' : state) : Prop :=
  (_started (conn s') = true -> _started (conn s) = true)
  /\ (_transaction (conn s') = _transaction (conn s)
      \/ _transaction (conn s') = None)
  /\ isolation_level (conn s') = isolation_level (conn s)
  /\ _isolation_setting (conn s') = _isolation_setting (conn s)
  /\ readonly (conn s') = readonly (conn s)
  /\ deferrable (conn s') = deferrable (conn s).

(** Both at once. *)
Definition quiet (s s' : state) : Prop :=
  appends (fun c => start_call c = false) s s' /\ settled s s'.

(** The dialect [d] once [_invalidate_schema_cache] has stamped it with the
    time [t]. *)
Definition stamped (d : dialect) (t : Q) : dialect :=
  {| dialect_name := dialect_name d;
     dialect_invalidate_schema_cache_asof := t |}.

End Runs.

(** * Properties *)

(** ** The examples of the specification, run *)

Example placeholders_plain :
  _parameter_placeholders None ["a"; "b"; "c"] = ["$1"; "$2"; "$3"].
Proof. reflexivity. Qed.

Example rowcount_update_3 : rowcount_of_status (text "UPDATE 3") = 3.
Proof. reflexivity. Qed.

Example rowcount_insert_0_1 : rowcount_of_status (text "INSERT 0 1") = 1.
Proof. reflexivity. Qed.

Example rowcount_select : rowcount_of_status (text "SELECT") = -1.
Proof. reflexivity. Qed.

Example rowcount_delete_120_tail :
  rowcount_of_status (text "DELETE 120 rows") = 120.
Proof. reflexivity. Qed.

(** UPDATE and the Arabic-Indic digit three, U+0663. *)
Example rowcount_arabic_indic :
  rowcount_of_status (text "UPDATE " ++ [1635])%list = 3.
Proof. reflexivity. Qed.

Example jsonb_encode_object :
  _jsonb_encoder json_a_1 = inr [1; 123; 34; 97; 34; 58; 49; 125].
Proof. reflexivity. Qed.

Example utf8_four_forms :
  str_encode [36; 233; 8364; 128512]
  = inr [36; 195; 169; 226; 130; 172; 240; 159; 152; 128]
  /\ bytes_decode [36; 195; 169; 226; 130; 172; 240; 159; 152; 128]
     = inr [36; 233; 8364; 128512].
Proof. split; reflexivity. Qed.

(** ** Messages of the generic exceptions *)

Lemma length_append (a b : string) :
  String.length (a ++ b) = (String.length a + String.length b)%nat.
Proof. induction a as [|c a IH]; simpl; [reflexivity | now rewrite IH]. Qed.

Lemma append_neq_self (a b : string) : b <> "" -> a ++ b <> a.
Proof.
  intros Hb Heq.
  assert (Hlen : String.length (a ++ b) = String.length a) by now rewrite Heq.
  rewrite length_append in Hlen.
  destruct b as [|c b]; [now apply Hb | simpl in Hlen; lia].
Qed.

(** C10: an [InvalidCachedStatementError] built on a message [m] carries [m]
    followed by the fixed notice about the invalidation of the prepared
    caches, and so never [m] itself. *)
Theorem invalid_cached_statement_message (m : string) :
  exn_message (new_exception InvalidCachedStatementError m)
  = m ++ " (SQLAlchemy asyncpg dialect will now invalidate all prepared caches in response to this exception)"
  /\ exn_message (new_exception InvalidCachedStatementError m) <> m.
Proof.
  split; [reflexivity |].
  simpl. apply append_neq_self. discriminate.
Qed.

(** ** Placeholders *)

Lemma enumerate_nth {A : Type} (xs : list A) (start : Z) (i : nat) (x : A) :
  nth_error xs i = Some x ->
  nth_error (enumerate xs start) i = Some (start + Z.of_nat i, x).
Proof.
  revert start i; induction xs as [|y ys IH]; intros start [|i] H;
    simpl in *; try discriminate.
  - inversion H; subst. now rewrite Z.add_0_r.
  - rewrite (IH (start + 1) i H). do 2 f_equal. lia.
Qed.

Lemma enumerate_length {A : Type} (xs : list A) (start : Z) :
  List.length (enumerate xs start) = List.length xs.
Proof.
  revert start; induction xs as [|y ys IH]; intros start; simpl;
    [reflexivity | now rewrite IH].
Qed.

(** The cast names of the table are not empty. *)
Lemma _pg_types_truthy (typ : option dbapi_type) (name : string) :
  _pg_types typ = Some name -> truthy_str (Some name) = true.
Proof.
  destruct typ as [[]|]; simpl; intros H; inversion H; reflexivity.
Qed.

(** C6: without declared input types a tuple of n parameters renders as
    $1 to $n, bare; with declared types there is one placeholder for each
    declared position, $i::name where the declared tag has the cast name
    name in the table and $i where None is declared; the declaration
    (INTEGER, None, JSON) renders as ($1::integer, $2, $3::json). *)
Theorem parameter_placeholders_rendering (P : Type) (params : list P) :
  (forall inputsizes, inputsizes = None \/ inputsizes = Some [] ->
     List.length (_parameter_placeholders inputsizes params)
     = List.length params
     /\ forall i, (i < List.length params)%nat ->
          nth_error (_parameter_placeholders inputsizes params) i
          = Some ("$" ++ fmt_d (Z.of_nat i + 1)))
  /\ (forall t ts,
        let declared := t :: ts in
        List.length (_parameter_placeholders (Some declared) params)
        = List.length declared
        /\ (forall i tag name,
              nth_error declared i = Some (Some tag) ->
              _pg_types (Some tag) = Some name ->
              nth_error (_parameter_placeholders (Some declared) params) i
              = Some ("$" ++ fmt_d (Z.of_nat i + 1) ++ "::" ++ name))
        /\ (forall i,
              nth_error declared i = Some None ->
              nth_error (_parameter_placeholders (Some declared) params) i
              = Some ("$" ++ fmt_d (Z.of_nat i + 1))))
  /\ (List.length params = 3%nat ->
      _parameter_placeholders None params = ["$1"; "$2"; "$3"]
      /\ _parameter_placeholders (Some [Some INTEGER; None; Some JSON]) params
         = ["$1::integer"; "$2"; "$3::json"]).
Proof.
  split; [|split].
  - intros inputsizes Hn.
    assert (Hdef : _parameter_placeholders inputsizes params
                   = map (fun it => "$" ++ fmt_d (fst it))
                         (enumerate params 1))
      by (destruct Hn; subst; reflexivity).
    rewrite Hdef, length_map, enumerate_length. split; [reflexivity |].
    intros i Hi.
    destruct (nth_error params i) as [x|] eqn:Hx.
    + rewrite nth_error_map, (enumerate_nth _ 1 _ Hx). simpl.
      now rewrite Z.add_comm.
    + apply nth_error_None in Hx. lia.
  - intros t ts declared. subst declared.
    unfold _parameter_placeholders. simpl negb. cbv iota.
    split; [|split].
    + now rewrite length_map, enumerate_length, length_map.
    + intros i tag name Hi Hname.
      rewrite nth_error_map.
      rewrite (enumerate_nth _ 1 i (x := Some name)).
      * cbv beta iota delta [option_map].
        rewrite (_pg_types_truthy _ Hname).
        now rewrite (Z.add_comm 1).
      * rewrite nth_error_map, Hi. simpl option_map. now rewrite <- Hname.
    + intros i Hi.
      rewrite nth_error_map.
      rewrite (enumerate_nth _ 1 i (x := None)).
      * cbv beta iota delta [option_map truthy_str].
        now rewrite (Z.add_comm 1).
      * now rewrite nth_error_map, Hi.
  - intros Hlen.
    destruct params as [|a [|b [|c [|d l]]]]; try discriminate.
    split; reflexivity.
Qed.

Lemma parameter_placeholders_rendering_witness :
  nth_error (_parameter_placeholders None ["a"; "b"; "c"]) 2 = Some "$3"
  /\ nth_error (_parameter_placeholders
                  (Some [Some INTEGER; None; Some JSON]) ["a"; "b"; "c"]) 0
     = Some "$1::integer"
  /\ nth_error (_parameter_placeholders
                  (Some [Some INTEGER; None; Some JSON]) ["a"; "b"; "c"]) 1
     = Some "$2"
  /\ _parameter_placeholders None ["a"; "b"; "c"] = ["$1"; "$2"; "$3"]
  /\ _parameter_placeholders (Some [Some INTEGER; None; Some JSON])
       ["a"; "b"; "c"]
     = ["$1::integer"; "$2"; "$3::json"].
Proof.
  destruct (parameter_placeholders_rendering ["a"; "b"; "c"])
    as (Hplain & Hdeclared & Hexample).
  split; [|split; [|split]].
  - apply (Hplain None); [left; reflexivity | simpl; lia].
  - destruct (Hdeclared (Some INTEGER) [None; Some JSON]) as (_ & Htag & _).
    apply (Htag 0%nat INTEGER "integer"); reflexivity.
  - destruct (Hdeclared (Some INTEGER) [None; Some JSON]) as (_ & _ & Hnone).
    apply (Hnone 1%nat). reflexivity.
  - apply Hexample. reflexivity.
Defined.

(** ** Exception translation *)

Lemma first_mapped_split (mro : list pyclass) (generic : pyclass) :
  first_mapped mro = Some generic <->
  exists before c after,
    mro = (before ++ c :: after)%list
    /\ Forall (fun b => _asyncpg_error_translate b = None) before
    /\ _asyncpg_error_translate c = Some generic.
Proof.
  split.
  - induction mro as [|c mro IH]; simpl; [discriminate |].
    destruct (_asyncpg_error_translate c) as [g|] eqn:Hc.
    + intros H; inversion H; subst. now exists [], c, mro.
    + intros H. destruct (IH H) as (before & c' & after & -> & Hb & Hc').
      exists (c :: before), c', after. repeat split; auto.
  - intros (before & c & after & -> & Hb & Hc).
    induction Hb as [|b before Hb' _ IH]; simpl.
    + now rewrite Hc.
    + now rewrite Hb'.
Qed.

Lemma first_mapped_none (mro : list pyclass) :
  first_mapped mro = None <->
  Forall (fun b => _asyncpg_error_translate b = None) mro.
Proof.
  induction mro as [|c mro IH]; simpl.
  - split; auto.
  - destruct (_asyncpg_error_translate c) eqn:Hc; split; intros H.
    + discriminate.
    + inversion H; congruence.
    + constructor; [assumption | now apply IH].
    + inversion H; now apply IH.
Qed.

Lemma new_exception_mro (cls : pyclass) (message : string) :
  exn_mro (new_exception cls message) = generic_mro cls.
Proof. destruct cls; reflexivity. Qed.

Lemma translate_walk_spec (error : exn) (mro : list pyclass) :
  match first_mapped mro with
  | Some generic =>
      let made :=
        new_exception generic
          (class_repr (exn_type error) ++ ": " ++ exn_message error) in
      translate_walk error mro
      = Exn (generic_mro generic) (exn_message made)
            (exn_sqlstate error) (exn_sqlstate error) (Some error)
  | None => translate_walk error mro = error
  end.
Proof.
  induction mro as [|c mro IH]; simpl; [reflexivity |].
  destruct (_asyncpg_error_translate c) as [g|]; [|exact IH].
  simpl. now rewrite new_exception_mro.
Qed.

Section Properties.
Context {native : Native}.

Lemma handle_exception_raises (A : Type) (error : exn) (s : state) :
  fst (_handle_exception (A := A) error s) = Raise (translate error).
Proof.
  unfold _handle_exception, bind, call_pure, call, raise, update_conn, ret.
  destruct (is_closed (the_world s)) as [[|] w]; reflexivity.
Qed.

(** C7: for an exception of the driver that is not an instance of the
    generic [Error], [_handle_exception] always raises: an instance of the
    generic class that the table gives for the first class of the
    inheritance chain it maps, built on the printed class and message of
    the native exception, carrying its [sqlstate] and raised from it; or,
    when the table maps no class of the chain, the native exception
    itself, as it is. *)
Theorem handle_exception_translates (A : Type) (error : exn) (s : state) :
  isinstance error Error = false ->
  exists raised,
    fst (_handle_exception (A := A) error s) = Raise raised
    /\ (forall before c after generic,
          exn_mro error = (before ++ c :: after)%list ->
          Forall (fun b => _asyncpg_error_translate b = None) before ->
          _asyncpg_error_translate c = Some generic ->
          exn_mro raised = generic_mro generic
          /\ exn_type raised = generic
          /\ exn_message raised
             = exn_message
                 (new_exception generic
                    (class_repr (exn_type error) ++ ": "
                     ++ exn_message error))
          /\ exn_sqlstate raised = exn_sqlstate error
          /\ exn_pgcode raised = exn_sqlstate error
          /\ exn_cause raised = Some error)
    /\ (Forall (fun c => _asyncpg_error_translate c = None) (exn_mro error)
        -> raised = error).
Proof.
  intros Hnative. exists (translate error).
  split; [apply handle_exception_raises |].
  unfold translate. rewrite Hnative. simpl negb. cbv iota.
  pose proof (translate_walk_spec error (exn_mro error)) as Hwalk.
  split.
  - intros before c after generic Hmro Hbefore Hc.
    assert (Hfirst : first_mapped (exn_mro error) = Some generic)
      by (apply first_mapped_split; now exists before, c, after).
    rewrite Hfirst in Hwalk. rewrite Hwalk. simpl.
    repeat split; try reflexivity.
    unfold exn_type. simpl. destruct generic; reflexivity.
  - intros Hnone. apply first_mapped_none in Hnone.
    now rewrite Hnone in Hwalk.
Qed.

(** ** Transaction control *)

Ltac run :=
  unfold commit, rollback, clear_transaction, try_finally, try_except,
    try_except_else, _handle_exception, bind, call_pure, call, raise,
    update_conn, get_conn, ret in *;
  simpl in *.

Lemma end_transaction_clears (s : state) (body : M unit) :
  (forall s0, fst (body s0) <> OutOfFuel) ->
  let r := try_finally (try_except body _handle_exception)
                       clear_transaction s in
  (fst r = Return tt \/ exists e, fst r = Raise e)
  /\ _transaction (conn (snd r)) = None
  /\ _started (conn (snd r)) = false.
Proof.
  intros Hfuel. specialize (Hfuel s). run.
  destruct (body s) as [[[]|e|] s1]; simpl in *.
  - repeat split; auto.
  - destruct (isinstance e py_Exception).
    + destruct (is_closed (the_world s1)) as [[|] w]; simpl;
        repeat split; eauto.
    + simpl. repeat split; eauto.
  - now contradiction Hfuel.
Qed.

(** C2: with no transaction started, [commit] and [rollback] return at
    once: no call of the driver, nothing changed.  With a transaction
    started they call the native handle, and whether that call returns or
    raises, and so whether the method returns or raises, the connection is
    left with no transaction handle and the started flag off. *)
Theorem commit_rollback_cleanup (s : state) :
  (_started (conn s) = false ->
     commit s = (Return tt, s) /\ rollback s = (Return tt, s))
  /\ (_started (conn s) = true ->
      forall m, m = commit \/ m = rollback ->
        (fst (m s) = Return tt \/ exists e, fst (m s) = Raise e)
        /\ _transaction (conn (snd (m s))) = None
        /\ _started (conn (snd (m s))) = false)
  /\ (_started (conn s) = true ->
      forall t, _transaction (conn s) = Some t ->
        (exists rest,
           log (snd (commit s)) = (log s ++ call_commit t :: rest)%list)
        /\ (exists rest,
             log (snd (rollback s))
             = (log s ++ call_rollback t :: rest)%list)).
Proof.
  split; [|split].
  - intros Hidle. unfold commit, rollback, bind, get_conn, ret.
    now rewrite Hidle.
  - intros Hopen m [-> | ->].
    + replace (commit s) with
        (try_finally
           (try_except
              match _transaction (conn s) with
              | Some t => call (call_commit t) (txn_commit t)
              | None => raise (AttributeError "commit")
              end _handle_exception) clear_transaction s)
        by (unfold commit, bind, get_conn; now rewrite Hopen).
      apply (end_transaction_clears s).
      intros s0. destruct (_transaction (conn s)); run;
        [destruct (txn_commit _ _) as [[|] ?] |]; discriminate.
    + replace (rollback s) with
        (try_finally
           (try_except
              match _transaction (conn s) with
              | Some t => call (call_rollback t) (txn_rollback t)
              | None => raise (AttributeError "rollback")
              end _handle_exception) clear_transaction s)
        by (unfold rollback, bind, get_conn; now rewrite Hopen).
      apply (end_transaction_clears s).
      intros s0. destruct (_transaction (conn s)); run;
        [destruct (txn_rollback _ _) as [[|] ?] |]; discriminate.
  - intros Hopen t Ht. split; run; rewrite Hopen, Ht; simpl.
    + destruct (txn_commit t (the_world s)) as [[e|[]] w]; simpl.
      * destruct (isinstance e py_Exception); simpl;
          [destruct (is_closed w) as [[|] w']; simpl |].
        -- exists [call_is_closed]. now rewrite <- app_assoc.
        -- exists [call_is_closed]. now rewrite <- app_assoc.
        -- now exists [].
      * now exists [].
    + destruct (txn_rollback t (the_world s)) as [[e|[]] w]; simpl.
      * destruct (isinstance e py_Exception); simpl;
          [destruct (is_closed w) as [[|] w']; simpl |].
        -- exists [call_is_closed]. now rewrite <- app_assoc.
        -- exists [call_is_closed]. now rewrite <- app_assoc.
        -- now exists [].
      * now exists [].
Qed.

(** ** The transaction handle and the started flag *)

(** A relation between the handle and the flag that holds of a cleared
    connection, of a started one, and of a connection left with the handle
    of a transaction whose native [start] raised, is kept by every
    operation. *)
Section Invariant.
Variable I : option transaction -> bool -> Prop.
Hypothesis I_clear : I None false.
Hypothesis I_started : forall t, I (Some t) true.
Hypothesis I_start_raised :
  forall t w e w' b, txn_start t w = (inl e, w') -> I (Some t) b.

Local Abbreviation holds := (holds I).
Local Abbreviation preserves := (preserves I).

Lemma preserves_ret (A : Type) (a : A) : preserves (ret a).
Proof. intros s H; exact H. Qed.

Lemma preserves_raise (A : Type) (e : exn) : preserves (raise (A := A) e).
Proof. intros s H; exact H. Qed.

Lemma preserves_out_of_fuel (A : Type) : preserves (out_of_fuel (A := A)).
Proof. intros s H; exact H. Qed.

Lemma preserves_lift_exn (A : Type) (r : exn + A) : preserves (lift_exn r).
Proof. destruct r; intros s H; exact H. Qed.

Lemma preserves_get_conn : preserves get_conn.
Proof. intros s H; exact H. Qed.

Lemma preserves_get_cur : preserves get_cur.
Proof. intros s H; exact H. Qed.

Lemma preserves_update_cur (f : cursor -> cursor) : preserves (update_cur f).
Proof. intros s H; exact H. Qed.

Lemma preserves_now : preserves now.
Proof.
  intros s H. unfold now. now destruct (time_time (the_world s)).
Qed.

Lemma preserves_call (A : Type) (c : native_call)
    (f : world -> (exn + A) * world) : preserves (call c f).
Proof.
  intros s H. unfold call. now destruct (f (the_world s)) as [[|] ?].
Qed.

Lemma preserves_update_conn (f : connection -> connection) :
  (forall c, holds c -> holds (f c)) ->
  preserves (update_conn f).
Proof. intros Hf s H. now apply Hf. Qed.

Lemma preserves_bind (A B : Type) (m : M A) (k : A -> M B) :
  preserves m -> (forall a, preserves (k a)) -> preserves (bind m k).
Proof.
  intros Hm Hk s H. unfold bind. specialize (Hm s H).
  destruct (m s) as [[a|e|] s']; simpl in *; auto. now apply Hk.
Qed.

Lemma preserves_try_except (A : Type) (body : M A) (handler : exn -> M A) :
  preserves body -> (forall e, preserves (handler e)) ->
  preserves (try_except body handler).
Proof.
  intros Hb Hh s H. unfold try_except. specialize (Hb s H).
  destruct (body s) as [[a|e|] s']; simpl in *; auto.
  destruct (isinstance e py_Exception); simpl; auto. now apply Hh.
Qed.

Lemma preserves_try_finally (A : Type) (body : M A) (final : M unit) :
  preserves body -> preserves final -> preserves (try_finally body final).
Proof.
  intros Hb Hf s H. unfold try_finally. specialize (Hb s H).
  destruct (body s) as [[a|e|] s']; simpl in *; auto;
    specialize (Hf s' Hb); destruct (final s') as [[[]|e'|] s''];
    simpl in *; auto.
Qed.

Lemma preserves_handle_exception (A : Type) (error : exn) :
  preserves (_handle_exception (A := A) error).
Proof.
  intros s H. unfold _handle_exception, bind, call_pure, call, raise,
    update_conn, ret.
  destruct (is_closed (the_world s)) as [[|] w]; simpl; auto.
Qed.

Lemma preserves_start_transaction : preserves _start_transaction.
Proof.
  intros s H.
  unfold _start_transaction, try_except_else, _handle_exception, bind,
    call_pure, call, raise, update_conn, get_conn, ret.
  simpl.
  destruct (String.eqb (isolation_level (conn s)) "autocommit"); auto.
  simpl.
  destruct (conn_transaction _ _ _ _) as [[e|t] w]; simpl.
  - destruct (isinstance e py_Exception); simpl; auto.
    destruct (is_closed w) as [[|] w']; simpl; auto.
  - destruct (txn_start t w) as [[e|[]] w1] eqn:Hstart; simpl.
    + destruct (isinstance e py_Exception); simpl.
      * destruct (is_closed w1) as [[|] w']; simpl; auto.
        eapply I_start_raised; exact Hstart.
      * eapply I_start_raised; exact Hstart.
    + apply I_started.
Qed.

Lemma preserves_clear_transaction : preserves clear_transaction.
Proof. intros s H. exact I_clear. Qed.

Lemma preserves_rollback : preserves rollback.
Proof.
  unfold rollback. apply preserves_bind; [apply preserves_get_conn |].
  intros c. destruct (_started c); [|apply preserves_ret].
  apply preserves_try_finally; [|apply preserves_clear_transaction].
  apply preserves_try_except; [|intros; apply preserves_handle_exception].
  destruct (_transaction c); [apply preserves_call | apply preserves_raise].
Qed.

Lemma preserves_commit : preserves commit.
Proof.
  unfold commit. apply preserves_bind; [apply preserves_get_conn |].
  intros c. destruct (_started c); [|apply preserves_ret].
  apply preserves_try_finally; [|apply preserves_clear_transaction].
  apply preserves_try_except; [|intros; apply preserves_handle_exception].
  destruct (_transaction c); [apply preserves_call | apply preserves_raise].
Qed.

Ltac preserve :=
  repeat first
    [ apply preserves_ret | apply preserves_raise
    | apply preserves_out_of_fuel | apply preserves_lift_exn
    | apply preserves_get_conn | apply preserves_get_cur
    | apply preserves_update_cur | apply preserves_now
    | apply preserves_call | apply preserves_handle_exception
    | apply preserves_start_transaction | apply preserves_rollback
    | apply preserves_commit
    | apply preserves_update_conn; intros ? H; exact H
    | apply preserves_bind; [|intros ?]
    | apply preserves_try_except; [|intros ?]
    | match goal with
      | |- preserves (if ?b then _ else _) => destruct b
      | |- preserves (match ?x with _ => _ end) => destruct x
      | |- preserves (let (_, _) := ?x in _) => destruct x
      end ].

Lemma preserves_check : forall t, preserves (_check_type_cache_invalidation t).
Proof. intros t. unfold _check_type_cache_invalidation. preserve. Qed.

Lemma preserves_prepare : forall o t, preserves (_prepare o t).
Proof.
  intros o t. unfold _prepare, prepare_and_store.
  apply preserves_bind; [apply preserves_check | intros ?]. preserve.
Qed.

Lemma preserves_cursor_fetch : forall n, preserves (cursor_fetch n).
Proof. intros n. unfold cursor_fetch. preserve. Qed.

Lemma preserves_all_loop :
  forall fuel rows, preserves (all_loop fuel rows).
Proof.
  induction fuel as [|fuel IH]; intros rows; simpl; [preserve |].
  apply preserves_bind; [apply preserves_cursor_fetch |].
  intros [|r batch]; [preserve | apply IH].
Qed.

Lemma preserves_ss_fetchall : forall fuel, preserves (ss_fetchall fuel).
Proof.
  intros fuel. unfold ss_fetchall, list_rowbuffer, _all.
  apply preserves_bind; [preserve | intros ?].
  apply preserves_bind; [apply preserves_all_loop | intros ?]. preserve.
Qed.

Lemma preserves_perform : forall fuel op, preserves (perform fuel op).
Proof.
  intros fuel op. destruct op; simpl.
  - unfold execute, _prepare_and_execute.
    apply preserves_bind; [preserve | intros ?].
    apply preserves_bind; [preserve | intros ?].
    apply preserves_bind; [preserve | intros ?].
    apply preserves_bind; [preserve | intros ?].
    apply preserves_try_except; [|intros; preserve].
    apply preserves_bind; [apply preserves_prepare | intros ?]. preserve.
  - unfold executemany, _executemany.
    apply preserves_bind; [preserve | intros k].
    destruct (server_side k); [preserve |].
    apply preserves_bind; [preserve | intros ?].
    apply preserves_bind; [apply preserves_check | intros ?]. preserve.
  - preserve.
  - preserve.
  - preserve.
  - unfold close. preserve.
  - unfold set_isolation_level. preserve.
  - unfold set_autocommit. apply preserves_update_conn.
    intros c H. now destruct value.
  - preserve.
  - unfold replace_cur. preserve.
  - unfold replace_cur. preserve.
  - preserve.
  - unfold setinputsizes. preserve.
  - unfold forget, ss_fetchone, fetchone, _buffer_rows.
    apply preserves_bind; [preserve | intros k].
    destruct (server_side k).
    + apply preserves_bind; [|intros; preserve].
      apply preserves_bind; [preserve | intros ?].
      apply preserves_bind;
        [destruct (rowbuffer_empty _);
         [apply preserves_bind; [apply preserves_cursor_fetch|]|] |];
        intros; preserve.
    + preserve.
  - unfold forget, ss_fetchmany, fetchmany, _buffer_rows, list_rowbuffer.
    apply preserves_bind; [preserve | intros k].
    destruct (server_side k); [|preserve].
    apply preserves_bind; [|intros; preserve].
    destruct size as [size|]; [|apply preserves_ss_fetchall].
    apply preserves_bind; [preserve | intros ?].
    apply preserves_bind;
      [destruct (rowbuffer_empty _);
       [apply preserves_bind; [apply preserves_cursor_fetch|]|] |];
      intros; preserve.
  - unfold forget, fetchall.
    apply preserves_bind; [preserve | intros k].
    destruct (server_side k); [|preserve].
    apply preserves_bind; [apply preserves_ss_fetchall | intros; preserve].
  - unfold ss_close, cursor_close. preserve.
Qed.

Lemma reachable_holds (s : state) : reachable s -> holds (conn s).
Proof.
  intros Hreach.
  induction Hreach as [size w c w' k Hconnect | s fuel op _ IH | s w _ IH].
  - unfold connect in Hconnect.
    destruct (asyncpg_connect w) as [[e|[]] w1]; [discriminate |].
    destruct (time_time w1) as [t w2]. inversion Hconnect; subst.
    exact I_clear.
  - now apply preserves_perform.
  - exact IH.
Qed.
End Invariant.

(** What a [start] that raises leaves behind: the exception goes to the
    caller, which is [execute] as well, the started flag stays off, and the
    handle just assigned stays, unless the exception is handled and the
    connection then reports itself closed, which clears it. *)
Lemma start_raises (s : state) (t : transaction) (e : exn)
    (w1 w2 : world) :
  _started (conn s) = false ->
  String.eqb (isolation_level (conn s)) "autocommit" = false ->
  conn_transaction (isolation_level (conn s)) (readonly (conn s))
    (deferrable (conn s)) (the_world s) = (inr t, w1) ->
  txn_start t w1 = (inl e, w2) ->
  (exists raised, fst (_start_transaction s) = Raise raised)
  /\ (forall operation parameters,
        execute operation parameters s = _start_transaction s)
  /\ _started (conn (snd (_start_transaction s))) = false
  /\ _transaction (conn (snd (_start_transaction s)))
     = if isinstance e py_Exception && fst (is_closed w2) then None
       else Some t.
Proof.
  intros Hoff Hlevel Htxn Hstart.
  assert (Hstate :
            _start_transaction s
            = if isinstance e py_Exception then
                _handle_exception e
                  (with_world
                     (with_conn
                        (with_world s w1
                           [call_transaction (isolation_level (conn s))
                              (readonly (conn s)) (deferrable (conn s))])
                        (set_transaction (Some t) (conn s)))
                     w2 [call_start t])
              else
                (Raise e,
                 with_world
                   (with_conn
                      (with_world s w1
                         [call_transaction (isolation_level (conn s))
                            (readonly (conn s)) (deferrable (conn s))])
                      (set_transaction (Some t) (conn s)))
                   w2 [call_start t])).
  { unfold _start_transaction, try_except_else, bind, call, update_conn,
      get_conn, ret.
    rewrite Hlevel. simpl. rewrite Htxn. simpl. rewrite Hstart. simpl.
    reflexivity. }
  assert (Hraised : exists raised, fst (_start_transaction s) = Raise raised).
  { rewrite Hstate. destruct (isinstance e py_Exception);
      [|now exists e].
    exists (translate e). apply handle_exception_raises. }
  split; [exact Hraised | split; [|split]].
  - intros operation parameters. destruct Hraised as (raised & Hraised).
    unfold execute, _prepare_and_execute, bind, get_conn.
    rewrite Hoff. simpl.
    destruct (_start_transaction s) as [r s']. simpl in Hraised.
    now subst r.
  - rewrite Hstate. destruct (isinstance e py_Exception); [|exact Hoff].
    unfold _handle_exception, bind, call_pure, call, update_conn, raise, ret.
    simpl. destruct (is_closed w2) as [[|] w3]; [reflexivity | exact Hoff].
  - rewrite Hstate. destruct (isinstance e py_Exception); [|reflexivity].
    unfold _handle_exception, bind, call_pure, call, update_conn, raise, ret.
    simpl. now destruct (is_closed w2) as [[|] w3].
Qed.

(** C1, as the code has it: in every state of an adapted connection that
    [connect] and any sequence of operations reach, whatever the driver
    answers, a started flag that is on comes with a transaction handle;
    and with a driver whose [start] never raises, the handle is there if
    and only if the flag is on.  A [start] that raises, which [execute]
    passes on, leaves a state, reached as well, with the flag off and the
    handle assigned, unless the exception is handled and the connection
    then reports itself closed: then the handle is cleared. *)
Theorem started_implies_transaction (s : state) :
  reachable s ->
  (_started (conn s) = true -> _transaction (conn s) <> None)
  /\ ((forall t w, exists w', txn_start t w = (inr tt, w')) ->
      (_transaction (conn s) <> None <-> _started (conn s) = true))
  /\ (forall t e w1 w2,
        _started (conn s) = false ->
        String.eqb (isolation_level (conn s)) "autocommit" = false ->
        conn_transaction (isolation_level (conn s)) (readonly (conn s))
          (deferrable (conn s)) (the_world s) = (inr t, w1) ->
        txn_start t w1 = (inl e, w2) ->
        reachable (snd (_start_transaction s))
        /\ (exists raised, fst (_start_transaction s) = Raise raised)
        /\ (forall operation parameters,
              execute operation parameters s = _start_transaction s)
        /\ _started (conn (snd (_start_transaction s))) = false
        /\ _transaction (conn (snd (_start_transaction s)))
           = if isinstance e py_Exception && fst (is_closed w2) then None
             else Some t).
Proof.
  intros Hreach. split; [|split].
  - apply (reachable_holds (fun h b => b = true -> h <> None));
      try assumption; intros; discriminate.
  - intros Hsteady.
    apply (reachable_holds (fun h b => h <> None <-> b = true));
      try assumption.
    + split; [intros H; now contradiction H | discriminate].
    + intros t; split; [reflexivity | discriminate].
    + intros t w e w' b Hraise.
      destruct (Hsteady t w) as [w1 Hok]. congruence.
  - intros t e w1 w2 Hoff Hlevel Htxn Hstart.
    split; [exact (reach_perform O op_start_transaction Hreach) |].
    exact (start_raises s Hoff Hlevel Htxn Hstart).
Qed.

(** ** The prepared statement cache *)

Lemma assoc_remove_same (V : Type) (key : string) (l : list (string * V)) :
  assoc key (assoc_remove key l) = None.
Proof.
  induction l as [|[k v] l IH]; simpl; [reflexivity |].
  destruct (String.eqb key k) eqn:Hk; [exact IH |].
  simpl. now rewrite Hk.
Qed.

Lemma lru_getitem_same (V : Type) (key : string) (v : V) (c c' : LRUCache V) :
  lru_getitem key c = Some (v, c') ->
  assoc key (entries c) = Some v
  /\ assoc key (entries c') = Some v /\ capacity c' = capacity c.
Proof.
  unfold lru_getitem. destruct (assoc key (entries c)) as [v0|] eqn:Hv;
    [|discriminate].
  intros H; inversion H; subst. simpl. now rewrite String.eqb_refl.
Qed.

Lemma lru_setitem_same (V : Type) (key : string) (v : V) (c : LRUCache V) :
  (1 <= capacity c)%nat ->
  assoc key (entries (lru_setitem key v c)) = Some v
  /\ capacity (lru_setitem key v c) = capacity c.
Proof.
  intros Hcap. unfold lru_setitem. simpl.
  destruct (capacity c <? S (List.length (assoc_remove key (entries c))))%nat
    eqn:Hfull; simpl.
  - destruct (assoc_remove key (entries c)) as [|e es] eqn:Hes.
    + apply Nat.ltb_lt in Hfull. simpl in Hfull. lia.
    + simpl. rewrite String.eqb_refl. auto.
  - rewrite String.eqb_refl. auto.
Qed.

Ltac run_prepare :=
  unfold _prepare, prepare_and_store, _check_type_cache_invalidation, now,
    bind, call, raise, update_conn, get_conn, ret, with_world, with_conn
    in *;
  simpl in *.

(** Case analysis on what a run inspects, innermost first. *)
Ltac split_cases :=
  repeat match goal with
         | |- context [match ?x with _ => _ end] =>
             lazymatch x with
             | context [match _ with _ => _ end] => fail
             | _ => destruct x eqn:?; simpl
             end
         end.

(** After the check nothing in [_prepare] assigns to the timestamp. *)
Lemma prepare_keeps_asof (operation : string) (t : Q) (s : state) :
  _invalidate_schema_cache_asof (conn (snd (_prepare operation t s)))
  = _invalidate_schema_cache_asof
      (conn (snd (_check_type_cache_invalidation t s))).
Proof.
  unfold _prepare, bind at 1.
  destruct (_check_type_cache_invalidation t s) as [[[]|e|] s1];
    [|reflexivity | reflexivity].
  unfold prepare_and_store, now, bind, call, raise, update_conn, get_conn,
    ret.
  simpl. split_cases; reflexivity.
Qed.

Lemma prepare_log_reload (operation : string) (t : Q) (s : state) :
  gt t (_invalidate_schema_cache_asof (conn s)) = true ->
  exists rest,
    log (snd (_prepare operation t s))
    = (log s ++ call_reload_schema_state :: rest)%list.
Proof.
  intros Hnewer.
  unfold _prepare, prepare_and_store, _check_type_cache_invalidation, now,
    bind, call, raise, update_conn, get_conn, ret.
  simpl. rewrite Hnewer.
  split_cases; rewrite <- ?app_assoc; simpl; eexists; reflexivity.
Qed.

(** C3: what [_prepare(operation, t)] does on a connection that remembers
    the timestamp r.  (1) With t > r the first thing it does is to call
    [reload_schema_state]; if that raises, [_prepare] raises with the
    cache untouched, and if it returns, the connection remembers t from
    then on; with t <= r there is no reload.  After the check: (2) a
    connection made with a cache size of zero has no cache, and without a
    cache a statement is compiled and returned, and nothing is stored;
    (3) a cached entry for [operation] stamped strictly after t is
    returned without compiling; (4) otherwise a statement is compiled,
    stored under [operation] with the time of the clock, and returned. *)
Theorem prepare_cases (operation : string) (t : Q) (s : state) :
  (forall size stamp,
     match _prepared_statement_cache (connection_init size stamp) with
     | None => size = 0%nat
     | Some cache =>
         capacity cache = size /\ (1 <= size)%nat /\ entries cache = []
     end)
  /\ (gt t (_invalidate_schema_cache_asof (conn s)) = true ->
     (exists rest,
        log (snd (_prepare operation t s))
        = (log s ++ call_reload_schema_state :: rest)%list)
     /\ (forall e w, reload_schema_state (the_world s) = (inl e, w) ->
           _prepare operation t s
           = (Raise e, with_world s w [call_reload_schema_state]))
     /\ (forall w, reload_schema_state (the_world s) = (inr tt, w) ->
           _check_type_cache_invalidation t s
           = (Return tt,
              with_conn (with_world s w [call_reload_schema_state])
                        (set_asof t (conn s)))
           /\ _invalidate_schema_cache_asof
                (conn (snd (_prepare operation t s))) = t))
  /\ (gt t (_invalidate_schema_cache_asof (conn s)) = false ->
      _check_type_cache_invalidation t s = (Return tt, s))
  /\ (forall s1,
        _check_type_cache_invalidation t s = (Return tt, s1) ->
        (_prepared_statement_cache (conn s) = None ->
         forall stmt w1 attrs w2,
           prepare operation (the_world s1) = (inr stmt, w1) ->
           get_attributes stmt w1 = (inr attrs, w2) ->
           _prepare operation t s
           = (Return (stmt, attrs),
              with_world s1 w2
                [call_prepare operation; call_get_attributes stmt])
           /\ _prepared_statement_cache
                (conn (snd (_prepare operation t s))) = None)
        /\ (forall cache stmt attrs stamp,
              _prepared_statement_cache (conn s) = Some cache ->
              assoc operation (entries cache) = Some (stmt, attrs, stamp) ->
              gt stamp t = true ->
              fst (_prepare operation t s) = Return (stmt, attrs)
              /\ log (snd (_prepare operation t s)) = log s1
              /\ the_world (snd (_prepare operation t s)) = the_world s1
              /\ exists cache',
                   _prepared_statement_cache
                     (conn (snd (_prepare operation t s))) = Some cache'
                   /\ assoc operation (entries cache')
                      = Some (stmt, attrs, stamp))
        /\ (forall cache,
              _prepared_statement_cache (conn s) = Some cache ->
              (1 <= capacity cache)%nat ->
              (assoc operation (entries cache) = None
               \/ exists stmt0 attrs0 stamp,
                    assoc operation (entries cache)
                    = Some (stmt0, attrs0, stamp)
                    /\ gt stamp t = false) ->
              forall stmt w1 attrs w2 time w3,
                prepare operation (the_world s1) = (inr stmt, w1) ->
                get_attributes stmt w1 = (inr attrs, w2) ->
                time_time w2 = (time, w3) ->
                fst (_prepare operation t s) = Return (stmt, attrs)
                /\ log (snd (_prepare operation t s))
                   = (log s1 ++ [call_prepare operation;
                                 call_get_attributes stmt])%list
                /\ exists cache',
                     _prepared_statement_cache
                       (conn (snd (_prepare operation t s))) = Some cache'
                     /\ assoc operation (entries cache')
                        = Some (stmt, attrs, time))).
Proof.
  split; [|split; [|split]].
  - intros [|size] stamp; simpl; [reflexivity |].
    repeat split. lia.
  - intros Hnewer. split; [|split].
    + apply prepare_log_reload, Hnewer.
    + intros e w Hreload. run_prepare. now rewrite Hnewer, Hreload.
    + intros w Hreload. split.
      * run_prepare. now rewrite Hnewer, Hreload.
      * rewrite prepare_keeps_asof.
        run_prepare. now rewrite Hnewer, Hreload.
  - intros Hold. run_prepare. now rewrite Hold.
  - intros s1 Hcheck.
    assert (Hconn : _prepared_statement_cache (conn s1)
                    = _prepared_statement_cache (conn s)).
    { revert Hcheck. run_prepare.
      destruct (gt t _); [|now intros H; inversion H].
      destruct (reload_schema_state _) as [[e|[]] w]; intros H;
        inversion H; reflexivity. }
    remember (_prepare operation t s) as r eqn:Hr.
    unfold _prepare, bind at 1 in Hr. rewrite Hcheck in Hr. clear Hcheck.
    split; [|split].
    + intros Hnone stmt w1 attrs w2 Hprepare Hattrs.
      rewrite <- Hconn in Hnone. subst r. run_prepare.
      rewrite Hnone. simpl. rewrite Hprepare. simpl. rewrite Hattrs. simpl.
      rewrite <- app_assoc. simpl. now rewrite Hnone.
    + intros cache stmt attrs stamp Hcache Hentry Hfresh.
      rewrite <- Hconn in Hcache. subst r. run_prepare.
      rewrite Hcache. unfold lru_contains, lru_getitem. rewrite Hentry.
      simpl. rewrite Hfresh. simpl. repeat split.
      eexists; split; [reflexivity |]. simpl. now rewrite String.eqb_refl.
    + intros cache Hcache Hcap Hmiss stmt w1 attrs w2 time w3
             Hprepare Hattrs Htime.
      rewrite <- Hconn in Hcache. subst r. run_prepare. rewrite Hcache.
      unfold lru_contains, lru_getitem.
      destruct Hmiss as [Hmiss | (stmt0 & attrs0 & stamp & Hentry & Hstale)].
      * rewrite Hmiss. simpl. rewrite Hprepare. simpl. rewrite Hattrs.
        simpl. rewrite Htime. simpl. rewrite <- app_assoc.
        repeat split.
        eexists; split; [reflexivity |]. now apply lru_setitem_same.
      * rewrite Hentry. simpl. rewrite Hstale. simpl. rewrite Hprepare.
        simpl. rewrite Hattrs. simpl. rewrite Htime. simpl.
        rewrite <- app_assoc. repeat split.
        eexists; split; [reflexivity |]. now apply lru_setitem_same.
Qed.

(** ** Batches of the server side cursor *)

Lemma all_loop_drains (h : stream) (w w' : world)
    (batches : list (list row)) :
  drains h w batches w' ->
  forall s fuel rows,
    the_world s = w -> _cursor (cur s) = Some h ->
    (List.length batches < fuel)%nat ->
    all_loop fuel rows s
    = (Return (rows ++ List.concat batches)%list,
       with_world s w'
         (repeat (call_stream_fetch h 1000) (S (List.length batches)))).
Proof.
  induction 1 as [w w' Hlast | w w1 w' r batch batches Hfetch _ IH];
    intros s fuel rows Hw Hh Hfuel;
    (destruct fuel as [|fuel]; [simpl in Hfuel; lia |]);
    simpl; unfold bind at 1, cursor_fetch, bind at 1, get_cur, call;
    rewrite Hh, Hw.
  - rewrite Hlast. unfold ret, with_world. now rewrite app_nil_r.
  - rewrite Hfetch.
    rewrite IH; [| reflexivity | exact Hh | simpl in Hfuel; lia].
    unfold with_world. simpl.
    now rewrite <- !app_assoc.
Qed.

(** C4, as the code has it.  A [fetchmany(k)] that finds rows in the
    buffer, fewer than k, makes exactly one fetch on the stream, of size k
    less the number of buffered rows, and returns the first k of the
    buffered and fetched rows, keeping the others.  A [fetchmany(k)] that
    finds no row in the buffer first refills it with a fetch of 50, and
    fetches once more, k less the rows received, only if k exceeds them.
    A [fetchall()] on a buffer that a fetch has filled before returns the
    buffered rows and then the batches of 1000 it fetches until one comes
    back empty, and leaves the buffer empty. *)
Theorem ss_fetch_batching (s : state) (h : stream) :
  _cursor (cur s) = Some h ->
  (forall fuel k r buf,
     _rowbuffer (cur s) = Some (r :: buf) ->
     k > Z.of_nat (List.length (r :: buf)) ->
     let n := k - Z.of_nat (List.length (r :: buf)) in
     let after := ss_fetchmany fuel (Some k) s in
     log (snd after) = (log s ++ [call_stream_fetch h n])%list
     /\ forall rows w,
          stream_fetch h n (the_world s) = (inr rows, w) ->
          fst after = Return (slice_to ((r :: buf) ++ rows) k)
          /\ _rowbuffer (cur (snd after))
             = Some (slice_from ((r :: buf) ++ rows) k))
  /\ (forall fuel k rows w,
        rowbuffer_empty (cur s) = true ->
        stream_fetch h 50 (the_world s) = (inr rows, w) ->
        log (snd (ss_fetchmany fuel (Some k) s))
        = (log s
           ++ call_stream_fetch h 50
              :: (if k >? Z.of_nat (List.length rows)
                  then [call_stream_fetch
                          h (k - Z.of_nat (List.length rows))]
                  else []))%list)
  /\ (forall fuel buf batches w,
        _rowbuffer (cur s) = Some buf ->
        drains h (the_world s) batches w ->
        (List.length batches < fuel)%nat ->
        ss_fetchall fuel s
        = (Return (buf ++ List.concat batches)%list,
           with_cur
             (with_world s w
                (repeat (call_stream_fetch h 1000)
                        (S (List.length batches))))
             (set_rowbuffer (Some []) (cur s)))).
Proof.
  intros Hh. split; [|split].
  - intros fuel k r buf Hbuf Hk n after. subst after.
    unfold ss_fetchmany, list_rowbuffer, cursor_fetch, rowbuffer_empty,
      bind, get_cur, call, update_cur, ret.
    simpl. rewrite Hbuf. simpl. rewrite Hbuf.
    assert (Hgt : (k >? Z.of_nat (List.length (r :: buf))) = true)
      by (apply Z.gtb_lt; lia).
    rewrite Hgt. cbv beta. rewrite Hh. fold n.
    destruct (stream_fetch h n (the_world s)) as [[e|rows] w] eqn:Hfetch;
      simpl.
    + split; [reflexivity | intros; discriminate].
    + split; [reflexivity |].
      intros rows' w' Heq. inversion Heq; subst. split; reflexivity.
  - intros fuel k rows w Hempty Hfetch.
    unfold ss_fetchmany, list_rowbuffer, _buffer_rows, cursor_fetch,
      bind, get_cur, call, update_cur, ret.
    simpl. rewrite Hempty, Hh, Hfetch. simpl.
    destruct (k >? Z.of_nat (List.length rows)); simpl.
    + rewrite Hh. simpl.
      destruct (stream_fetch h (k - Z.of_nat (List.length rows)) w)
        as [[e|rows'] w']; simpl; now rewrite <- app_assoc.
    + reflexivity.
  - intros fuel buf batches w Hbuf Hdrains Hfuel.
    unfold ss_fetchall, _all, list_rowbuffer, bind at 1 2, get_cur, ret.
    rewrite Hbuf. unfold bind at 1.
    rewrite (@all_loop_drains h _ _ _ Hdrains s fuel [] eq_refl Hh Hfuel).
    reflexivity.
Qed.

End Properties.

(** ** The row count of a status message *)

Lemma append_assoc (a b c : string) : (a ++ b) ++ c = a ++ (b ++ c).
Proof. induction a as [|x a IH]; simpl; [reflexivity | now rewrite IH]. Qed.

Lemma leading_after (s : pystr) :
  s = (leading_digits s ++ after_digits s)%list.
Proof.
  induction s as [|c s IH]; simpl; [reflexivity |].
  destruct (is_digit c); simpl; [now rewrite <- IH | reflexivity].
Qed.

Lemma leading_all_digits (s : pystr) : all_digits (leading_digits s) = true.
Proof.
  induction s as [|c s IH]; simpl; [reflexivity |].
  destruct (is_digit c) eqn:Hc; simpl; [now rewrite Hc | reflexivity].
Qed.

Lemma after_no_digit (s : pystr) : no_digit_ahead (after_digits s).
Proof.
  induction s as [|c s IH]; simpl; [exact I |].
  destruct (is_digit c) eqn:Hc; simpl; assumption.
Qed.

Lemma all_digits_app (a b : pystr) :
  all_digits (a ++ b)%list = all_digits a && all_digits b.
Proof. apply forallb_app. Qed.

Lemma strip_prefix_app (p s : pystr) :
  strip_prefix p (p ++ s)%list = Some s.
Proof.
  induction p as [|c p IH]; simpl; [now destruct s |].
  now rewrite Z.eqb_refl.
Qed.

Lemma strip_prefix_sound (p s rest : pystr) :
  strip_prefix p s = Some rest -> s = (p ++ rest)%list.
Proof.
  revert s; induction p as [|c p IH]; intros s; simpl.
  - destruct s; intros H; inversion H; reflexivity.
  - destruct s as [|d s]; [discriminate |].
    destruct (c =? d) eqn:Hcd; [|discriminate].
    apply Z.eqb_eq in Hcd. subst d. intros H. now rewrite (IH s H).
Qed.

(** The runs of digits at the head of a text: the longest comes first, and
    every other one stops before a digit. *)
Lemma digit_runs_head (ds rest : pystr) :
  number ds -> no_digit_ahead rest ->
  exists shorter,
    digit_runs (ds ++ rest)%list = rest :: shorter
    /\ Forall (fun r => ~ no_digit_ahead r /\ r <> []) shorter.
Proof.
  intros [Hne Hds] Hrest. induction ds as [|c ds IH]; [now contradiction Hne |].
  unfold all_digits in *. simpl in *.
  apply andb_prop in Hds. destruct Hds as [Hc Hds]. rewrite Hc.
  destruct ds as [|d ds].
  - simpl. exists [].
    destruct rest as [|x rest]; simpl; [now split |].
    simpl in Hrest. rewrite Hrest. now split.
  - destruct IH as (shorter & Hruns & Hshorter); [discriminate | assumption |].
    rewrite Hruns. exists (shorter ++ [((d :: ds) ++ rest)%list])%list. split.
    + reflexivity.
    + apply Forall_app. split; [assumption |].
      constructor; [|constructor].
      simpl in Hds. apply andb_prop in Hds. destruct Hds as [Hd _].
      simpl. split; [congruence | discriminate].
Qed.

Lemma digit_runs_sound (s rest : pystr) :
  In rest (digit_runs s) -> exists ds, number ds /\ s = (ds ++ rest)%list.
Proof.
  induction s as [|c s IH]; simpl; [contradiction |].
  destruct (is_digit c) eqn:Hc; [|contradiction].
  intros Hin. apply in_app_or in Hin. destruct Hin as [Hin | [<- | []]].
  - destruct (IH Hin) as (ds & [Hne Hds] & ->).
    exists (c :: ds). repeat split; [discriminate |].
    unfold all_digits in *. simpl. now rewrite Hc, Hds.
  - exists [c]. repeat split; [discriminate |].
    unfold all_digits. simpl. now rewrite Hc.
Qed.

Lemma consumed_app (p rest : pystr) : consumed (p ++ rest)%list rest = p.
Proof.
  unfold consumed. rewrite length_app.
  replace (List.length p + List.length rest - List.length rest)%nat
    with (List.length p + 0)%nat by lia.
  now rewrite firstn_app_2, firstn_O, app_nil_r.
Qed.

(** Whatever the matcher lists is a match: the subject is a text of the
    pattern followed by the rest. *)
Lemma matches_sound (r : regex) :
  forall s groups rest groups',
    In (rest, groups') (matches r s groups) ->
    exists p, s = (p ++ rest)%list /\ lang r p.
Proof.
  induction r as [p | | r1 IH1 r2 IH2 | r1 IH1 r2 IH2 | r1 IH1 | r1 IH1];
    intros s groups rest groups' Hin; simpl in *.
  - destruct (strip_prefix (text p) s) as [rest0|] eqn:Hp; [|contradiction].
    destruct Hin as [Heq | []]. inversion Heq; subst.
    exists (text p). split; [now apply strip_prefix_sound | reflexivity].
  - apply in_map_iff in Hin. destruct Hin as (rest0 & Heq & Hin).
    inversion Heq; subst. destruct (digit_runs_sound _ _ Hin) as (ds & Hds & ->).
    now exists ds.
  - apply in_app_or in Hin. destruct Hin as [Hin | Hin].
    + destruct (IH1 _ _ _ _ Hin) as (p & -> & Hp). exists p; auto.
    + destruct (IH2 _ _ _ _ Hin) as (p & -> & Hp). exists p; auto.
  - apply in_flat_map in Hin. destruct Hin as ([mid g] & Hin1 & Hin2).
    simpl in Hin2.
    destruct (IH1 _ _ _ _ Hin1) as (p1 & -> & Hp1).
    destruct (IH2 _ _ _ _ Hin2) as (p2 & -> & Hp2).
    exists (p1 ++ p2)%list. split; [now rewrite app_assoc |].
    now exists p1, p2.
  - eauto.
  - apply in_map_iff in Hin. destruct Hin as ([rest0 g] & Heq & Hin).
    simpl in Heq. inversion Heq; subst. eauto.
Qed.

Lemma status_pattern_lang (p : pystr) :
  lang status_pattern p ->
  exists tag count,
    command_tag tag /\ number count
    /\ p = (tag ++ text " " ++ count)%list.
Proof.
  simpl. intros (tag & x2 & -> & Htag & (sp & count & -> & -> & Hcount)).
  exists tag, count. split; [|split; [assumption | reflexivity]].
  destruct Htag as [-> | [-> | (i & oid & -> & -> & Hoid)]].
  - now left.
  - right; now left.
  - right; right. now exists oid.
Qed.

(** The tail of the pattern, a space and the captured number, on a subject
    that starts with a space and a number that no digit follows. *)
Lemma count_matches (count rest : pystr) (groups : list pystr) :
  number count -> no_digit_ahead rest ->
  exists others,
    matches (Seq (Lit " ") (Capture Digits))
      (text " " ++ count ++ rest)%list groups
    = (rest, (groups ++ [count])%list) :: others.
Proof.
  intros Hcount Hrest.
  destruct (@digit_runs_head count rest Hcount Hrest)
    as (shorter & Hruns & _).
  cbn [matches]. rewrite strip_prefix_app. cbn [flat_map fst snd].
  rewrite Hruns. cbn [map fst snd]. rewrite consumed_app, app_nil_r.
  eexists. reflexivity.
Qed.

Lemma status_match (tag count rest : pystr) :
  command_tag tag -> number count -> no_digit_ahead rest ->
  re_match status_pattern (tag ++ text " " ++ count ++ rest)%list
  = Some [count].
Proof.
  intros Htag Hcount Hrest. unfold re_match, status_pattern.
  destruct (@count_matches count rest [] Hcount Hrest) as (others & Htail).
  set (tail := Seq (Lit " ") (Capture Digits)) in *.
  set (subject := (text " " ++ count ++ rest)%list) in *.
  destruct Htag as [-> | [-> | (oid & Hoid & ->)]].
  - assert (Hhead :
              matches (NonCapture
                         (Alt (Lit "UPDATE")
                              (Alt (Lit "DELETE")
                                   (Seq (Lit "INSERT ") Digits))))
                (text "UPDATE" ++ subject)%list []
              = [(subject, [])]) by reflexivity.
    cbn [matches] in Hhead |- *. rewrite Hhead. cbn [flat_map fst snd].
    rewrite app_nil_r. now rewrite Htail.
  - assert (Hhead :
              matches (NonCapture
                         (Alt (Lit "UPDATE")
                              (Alt (Lit "DELETE")
                                   (Seq (Lit "INSERT ") Digits))))
                (text "DELETE" ++ subject)%list []
              = [(subject, [])]) by reflexivity.
    cbn [matches] in Hhead |- *. rewrite Hhead. cbn [flat_map fst snd].
    rewrite app_nil_r. now rewrite Htail.
  - assert (Hsp : no_digit_ahead subject) by reflexivity.
    destruct (@digit_runs_head oid _ Hoid Hsp) as (shorter & Hruns & _).
    assert (Hhead :
              matches (NonCapture
                         (Alt (Lit "UPDATE")
                              (Alt (Lit "DELETE")
                                   (Seq (Lit "INSERT ") Digits))))
                ((text "INSERT " ++ oid) ++ subject)%list []
              = map (fun rest0 => (rest0, []))
                  (digit_runs (oid ++ subject)%list)).
    { rewrite <- app_assoc. cbn. now rewrite app_nil_r. }
    cbn [matches] in Hhead |- *. rewrite Hhead, Hruns.
    cbn [map flat_map fst snd]. now rewrite Htail.
Qed.

Section RowCount.
Context {native : Native}.

Lemma bind_returns (A B : Type) (m : M A) (k : A -> M B) (s s' : state)
    (b : B) :
  bind m k s = (Return b, s') ->
  exists a s1, m s = (Return a, s1) /\ k a s1 = (Return b, s').
Proof.
  unfold bind. destruct (m s) as [[a|e|] s1]; try discriminate.
  intros H. now exists a, s1.
Qed.

Lemma call_returns (A : Type) (c : native_call)
    (f : world -> (exn + A) * world) (s s' : state) (a : A) :
  call c f s = (Return a, s') ->
  exists w, f (the_world s) = (inr a, w) /\ s' = with_world s w [c].
Proof.
  unfold call. destruct (f (the_world s)) as [[e|a0] w]; [discriminate |].
  intros H. inversion H; subst. now exists w.
Qed.

Lemma try_except_returns (A : Type) (body : M A) (s s' : state) (a : A) :
  try_except body _handle_exception s = (Return a, s') ->
  body s = (Return a, s').
Proof.
  unfold try_except. destruct (body s) as [[a0|e|] s1]; try easy.
  destruct (isinstance e py_Exception); [|discriminate].
  intros H. pose proof (handle_exception_raises A e s1) as Hraise.
  rewrite H in Hraise. discriminate.
Qed.

Lemma start_transaction_cur (s : state) :
  cur (snd (_start_transaction s)) = cur s.
Proof.
  unfold _start_transaction, try_except_else, _handle_exception, bind,
    call_pure, call, raise, update_conn, get_conn, ret.
  simpl.
  destruct (String.eqb _ _); [reflexivity |]. simpl.
  destruct (conn_transaction _ _ _ _) as [[e|t] w]; simpl.
  - destruct (isinstance e py_Exception); simpl; [|reflexivity].
    now destruct (is_closed w) as [[|] w'].
  - destruct (txn_start t w) as [[e|[]] w1]; simpl; [|reflexivity].
    destruct (isinstance e py_Exception); simpl; [|reflexivity].
    now destruct (is_closed w1) as [[|] w'].
Qed.

(** An [execute] that returns on a cursor that is not server side has asked
    the statement for its status message last, and has set the row count
    from it. *)
Lemma execute_rowcount (operation : string) (parameters : option (list param))
    (s : state) :
  server_side (cur s) = false ->
  fst (execute operation parameters s) = Return tt ->
  exists stmt w reported calls,
    get_statusmsg stmt w
    = (inr reported, the_world (snd (execute operation parameters s)))
    /\ log (snd (execute operation parameters s))
       = (calls ++ [call_get_statusmsg stmt])%list
    /\ rowcount (cur (snd (execute operation parameters s)))
       = rowcount_of_status reported.
Proof.
  intros Hplain Hret.
  destruct (execute operation parameters s) as [r s'] eqn:Hrun.
  simpl in Hret. subst r. simpl.
  unfold execute, _prepare_and_execute in Hrun.
  apply bind_returns in Hrun. destruct Hrun as (c & s1 & Hc & Hrun).
  unfold get_conn in Hc. inversion Hc; subst c s1; clear Hc.
  apply bind_returns in Hrun. destruct Hrun as ([] & s2 & Hstart & Hrun).
  assert (Hcur : cur s2 = cur s).
  { destruct (negb (_started (conn s))).
    - pose proof (start_transaction_cur s) as H. now rewrite Hstart in H.
    - unfold ret in Hstart. now inversion Hstart. }
  apply bind_returns in Hrun. destruct Hrun as (k & s3 & Hk & Hrun).
  unfold get_cur in Hk. inversion Hk; subst k s3; clear Hk.
  apply bind_returns in Hrun. destruct Hrun as (sql & s4 & _ & Hrun).
  apply try_except_returns in Hrun.
  apply bind_returns in Hrun.
  destruct Hrun as ([stmt attrs] & s5 & _ & Hrun).
  apply bind_returns in Hrun. destruct Hrun as ([] & s6 & _ & Hrun).
  rewrite Hcur, Hplain in Hrun.
  apply bind_returns in Hrun. destruct Hrun as (rows & s7 & _ & Hrun).
  apply bind_returns in Hrun. destruct Hrun as ([] & s8 & _ & Hrun).
  apply bind_returns in Hrun. destruct Hrun as (reported & s9 & Hstatus & Hrun).
  apply call_returns in Hstatus. destruct Hstatus as (w & Hstatus & ->).
  unfold update_cur in Hrun. inversion Hrun; subst s'; clear Hrun.
  exists stmt, (the_world s8), reported, (log s8).
  split; [exact Hstatus | split; reflexivity].
Qed.

(** *** When the driver answers, [execute] returns *)

Section Answers.
Variable W : world -> Prop.
Hypothesis driver : answering W.

Lemma succeeds_ret (A : Type) (a : A) : succeeds W (ret a).
Proof. intros s Hs. now exists a, s. Qed.

Lemma succeeds_get_conn : succeeds W get_conn.
Proof. intros s Hs. now exists (conn s), s. Qed.

Lemma succeeds_get_cur : succeeds W get_cur.
Proof. intros s Hs. now exists (cur s), s. Qed.

Lemma succeeds_update_conn (f : connection -> connection) :
  succeeds W (update_conn f).
Proof. intros s Hs. eexists tt, _. split; [reflexivity | exact Hs]. Qed.

Lemma succeeds_update_cur (f : cursor -> cursor) : succeeds W (update_cur f).
Proof. intros s Hs. eexists tt, _. split; [reflexivity | exact Hs]. Qed.

Lemma succeeds_now : succeeds W now.
Proof.
  intros s Hs. unfold now.
  pose proof (answers_clock driver _ Hs) as Hw.
  destruct (time_time (the_world s)) as [t w]. simpl in Hw.
  eexists t, _. split; [reflexivity | exact Hw].
Qed.

Lemma succeeds_bind (A B : Type) (m : M A) (k : A -> M B) :
  succeeds W m -> (forall a, succeeds W (k a)) -> succeeds W (bind m k).
Proof.
  intros Hm Hk s Hs. destruct (Hm s Hs) as (a & s1 & Hrun & Hs1).
  destruct (Hk a s1 Hs1) as (b & s2 & Hrun2 & Hs2).
  exists b, s2. unfold bind. now rewrite Hrun.
Qed.

Lemma succeeds_call (A : Type) (c : native_call)
    (f : world -> (exn + A) * world) :
  (forall w, W w -> exists a w', f w = (inr a, w') /\ W w') ->
  succeeds W (call c f).
Proof.
  intros Hf s Hs. destruct (Hf _ Hs) as (a & w' & Hrun & Hw').
  unfold call. rewrite Hrun. eexists a, _. split; [reflexivity | exact Hw'].
Qed.

Lemma succeeds_try_except (A : Type) (body : M A) (handler : exn -> M A) :
  succeeds W body -> succeeds W (try_except body handler).
Proof.
  intros Hbody s Hs. destruct (Hbody s Hs) as (a & s1 & Hrun & Hs1).
  exists a, s1. unfold try_except. now rewrite Hrun.
Qed.

Lemma succeeds_try_except_else (body : M unit) (handler : exn -> M unit)
    (orelse : M unit) :
  succeeds W body -> succeeds W orelse ->
  succeeds W (try_except_else body handler orelse).
Proof.
  intros Hbody Helse s Hs. destruct (Hbody s Hs) as (a & s1 & Hrun & Hs1).
  destruct (Helse s1 Hs1) as (b & s2 & Hrun2 & Hs2).
  exists b, s2. unfold try_except_else. now rewrite Hrun.
Qed.

Lemma succeeds_unit_call (c : native_call)
    (f : world -> (exn + unit) * world) :
  (forall w, W w -> exists w', f w = (inr tt, w') /\ W w') ->
  succeeds W (call c f).
Proof.
  intros Hf. apply succeeds_call. intros w Hw.
  destruct (Hf w Hw) as (w' & Hrun & Hw'). now exists tt, w'.
Qed.

Lemma succeeds_start_transaction : succeeds W _start_transaction.
Proof.
  unfold _start_transaction.
  apply succeeds_bind; [apply succeeds_get_conn | intros c].
  destruct (String.eqb _ _); [apply succeeds_ret |].
  apply succeeds_try_except_else; [|apply succeeds_update_conn].
  apply succeeds_bind;
    [apply succeeds_call, (answers_transaction driver) | intros t].
  apply succeeds_bind; [apply succeeds_update_conn | intros _].
  apply succeeds_unit_call, (answers_start driver).
Qed.

Lemma succeeds_prepare_and_store (operation : string)
    (cache : LRUCache cache_entry) :
  succeeds W (prepare_and_store operation cache).
Proof.
  unfold prepare_and_store.
  apply succeeds_bind;
    [apply succeeds_call, (answers_prepare driver) | intros stmt].
  apply succeeds_bind;
    [apply succeeds_call, (answers_attributes driver) | intros attrs].
  apply succeeds_bind; [apply succeeds_now | intros t].
  apply succeeds_bind; [apply succeeds_update_conn | intros _].
  apply succeeds_ret.
Qed.

Lemma succeeds_prepare (operation : string) (t : Q) :
  succeeds W (_prepare operation t).
Proof.
  unfold _prepare, _check_type_cache_invalidation.
  apply succeeds_bind.
  - apply succeeds_bind; [apply succeeds_get_conn | intros c].
    destruct (gt t _); [|apply succeeds_ret].
    apply succeeds_bind;
      [apply succeeds_unit_call, (answers_reload driver) | intros _].
    apply succeeds_update_conn.
  - intros _. apply succeeds_bind; [apply succeeds_get_conn | intros c].
    destruct (_prepared_statement_cache c) as [cache|].
    + unfold lru_contains, lru_getitem.
      destruct (assoc operation (entries cache)) as [[[stmt attrs] ts]|];
        [|apply succeeds_prepare_and_store].
      apply succeeds_bind; [apply succeeds_update_conn | intros _].
      destruct (gt ts t);
        [apply succeeds_ret | apply succeeds_prepare_and_store].
    + apply succeeds_bind;
        [apply succeeds_call, (answers_prepare driver) | intros stmt].
      apply succeeds_bind;
        [apply succeeds_call, (answers_attributes driver) | intros attrs].
      apply succeeds_ret.
Qed.

(** With a driver that answers, and an operation that the parameters
    format, [execute] returns. *)
Lemma succeeds_execute (operation : string)
    (parameters : option (list param)) :
  (forall sizes ps,
     parameters = Some ps ->
     exists sql,
       str_percent operation (_parameter_placeholders sizes ps) = inr sql) ->
  succeeds W (execute operation parameters).
Proof.
  intros Hformat. unfold execute, _prepare_and_execute.
  apply succeeds_bind; [apply succeeds_get_conn | intros c].
  apply succeeds_bind.
  { destruct (negb (_started c));
      [apply succeeds_start_transaction | apply succeeds_ret]. }
  intros _. apply succeeds_bind; [apply succeeds_get_cur | intros k].
  apply succeeds_bind.
  { destruct parameters as [ps|]; [|apply succeeds_ret].
    destruct (Hformat (_inputsizes k) ps eq_refl) as (sql & Hsql).
    rewrite Hsql. apply succeeds_ret. }
  intros sql. apply succeeds_try_except.
  apply succeeds_bind; [apply succeeds_prepare | intros [stmt attrs]].
  apply succeeds_bind; [apply succeeds_update_cur | intros _].
  destruct (server_side k).
  - apply succeeds_bind;
      [apply succeeds_call, (answers_cursor driver) | intros h].
    apply succeeds_bind; [apply succeeds_update_cur | intros _].
    apply succeeds_update_cur.
  - apply succeeds_bind;
      [apply succeeds_call, (answers_fetch driver) | intros rows].
    apply succeeds_bind; [apply succeeds_update_cur | intros _].
    apply succeeds_bind;
      [apply succeeds_call, (answers_status driver) | intros status].
    apply succeeds_update_cur.
Qed.

End Answers.

(** C5: the row count of a cursor that is not server side is read off the
    status message that the driver reports.  Where the calls of a statement
    answer, [execute] returns, its last call has asked the statement for
    its status message, and the row count is the one of that message; and
    this is so of every [execute] that returns.  A status message that
    starts with UPDATE, DELETE or INSERT and a number, then a space and
    digits, gives the integer those digits write, taken as far as digits
    go; so UPDATE 3 gives 3 and INSERT 0 1 gives 1.  A status message that
    does not start so, as SELECT, gives -1. *)
Theorem rowcount_of_status_spec (status : pystr) :
  (forall (W : world -> Prop) operation parameters s,
     answering W -> W (the_world s) ->
     (forall sizes ps,
        parameters = Some ps ->
        exists sql,
          str_percent operation (_parameter_placeholders sizes ps)
          = inr sql) ->
     server_side (cur s) = false ->
     fst (execute operation parameters s) = Return tt
     /\ exists stmt w reported calls,
          get_statusmsg stmt w
          = (inr reported, the_world (snd (execute operation parameters s)))
          /\ log (snd (execute operation parameters s))
             = (calls ++ [call_get_statusmsg stmt])%list
          /\ rowcount (cur (snd (execute operation parameters s)))
             = rowcount_of_status reported)
  /\ (forall operation parameters s,
        server_side (cur s) = false ->
        fst (execute operation parameters s) = Return tt ->
        exists stmt w reported calls,
          get_statusmsg stmt w
          = (inr reported, the_world (snd (execute operation parameters s)))
          /\ log (snd (execute operation parameters s))
             = (calls ++ [call_get_statusmsg stmt])%list
          /\ rowcount (cur (snd (execute operation parameters s)))
             = rowcount_of_status reported)
  /\ (forall tag count rest,
        command_tag tag -> number count ->
        status = (tag ++ text " " ++ count ++ rest)%list ->
        re_match status_pattern status
        = Some [(count ++ leading_digits rest)%list]
        /\ rowcount_of_status status
           = py_int (count ++ leading_digits rest)%list)
  /\ ((forall tag count rest,
         command_tag tag -> number count ->
         status <> (tag ++ text " " ++ count ++ rest)%list) ->
      re_match status_pattern status = None
      /\ rowcount_of_status status = -1)
  /\ (status = text "UPDATE 3" -> rowcount_of_status status = 3)
  /\ (status = text "INSERT 0 1" -> rowcount_of_status status = 1)
  /\ (status = text "SELECT" -> rowcount_of_status status = -1).
Proof.
  split.
  { intros W operation parameters s Hdriver Hs Hformat Hplain.
    destruct (@succeeds_execute W Hdriver operation parameters Hformat s Hs)
      as ([] & s' & Hrun & _).
    assert (Hret : fst (execute operation parameters s) = Return tt)
      by now rewrite Hrun.
    split; [exact Hret | now apply execute_rowcount]. }
  split; [exact execute_rowcount |].
  split; [|split; [|repeat split; intros ->; reflexivity]].
  - intros tag count rest Htag [Hne Hcount] ->.
    assert (Hmatch :
              re_match status_pattern (tag ++ text " " ++ count ++ rest)%list
              = Some [(count ++ leading_digits rest)%list]).
    { rewrite (leading_after rest) at 1. rewrite (app_assoc count).
      apply status_match; [assumption | | apply after_no_digit].
      split.
      - destruct count; [now contradiction Hne | discriminate].
      - now rewrite all_digits_app, Hcount, leading_all_digits. }
    split; [exact Hmatch |].
    unfold rowcount_of_status. now rewrite Hmatch.
  - intros Hnone.
    assert (Hmatch : re_match status_pattern status = None).
    { unfold re_match.
      destruct (matches status_pattern status []) as [|[rest groups] l] eqn:Hm;
        [reflexivity |].
      exfalso.
      destruct (@matches_sound status_pattern status [] rest groups)
        as (p & Hp & Hlang); [rewrite Hm; now left |].
      destruct (status_pattern_lang Hlang) as (tag & count & Htag & Hcount & ->).
      apply (Hnone tag count rest Htag Hcount).
      now rewrite Hp, <- !app_assoc. }
    split; [exact Hmatch |].
    unfold rowcount_of_status. now rewrite Hmatch.
Qed.

End RowCount.

Example execute_update_rowcount :
  rowcount (cur (snd (execute "UPDATE t SET x = 1" None idle))) = 3.
Proof. reflexivity. Qed.

Lemma scripted_answers : @answering scripted obliging.
Proof.
  split; unfold obliging; simpl.
  - intros level ro de w Hw. now exists tt, w.
  - intros t w [Hstart Hreload]. exists w. unfold answer.
    now rewrite Hstart.
  - intros w [Hstart Hreload]. exists w. unfold answer. now rewrite Hreload.
  - intros sql w Hw. now exists sql, w.
  - intros stmt w Hw. now eexists _, w.
  - intros stmt ps w Hw. now eexists _, w.
  - intros stmt w Hw. now eexists _, w.
  - intros stmt ps w Hw. now exists tt, w.
  - intros w Hw. exact Hw.
Qed.

Lemma rowcount_of_status_spec_witness :
  fst (execute "UPDATE t SET x = 1" None idle) = Return tt
  /\ rowcount (cur (snd (execute "UPDATE t SET x = 1" None idle))) = 3
  /\ rowcount_of_status (text "DELETE 120 rows") = 120
  /\ rowcount_of_status (text "INSERT x 1") = -1
  /\ rowcount_of_status (text "UPDATE 3") = 3
  /\ rowcount_of_status (text "INSERT 0 1") = 1
  /\ rowcount_of_status (text "SELECT") = -1.
Proof.
  destruct (@rowcount_of_status_spec scripted (text "UPDATE 3"))
    as (Hanswers & _ & _ & _ & Hupdate & _).
  destruct (Hanswers obliging "UPDATE t SET x = 1" None idle
              scripted_answers ltac:(split; reflexivity)
              ltac:(intros; discriminate) eq_refl)
    as (Hreturns & stmt & w & reported & calls & Hstatus & Hlog & Hcount).
  split; [exact Hreturns |].
  split; [|split; [|split; [|split; [|split]]]].
  - apply (f_equal (fun l => last l call_connect)) in Hlog.
    rewrite last_last in Hlog. vm_compute in Hlog.
    injection Hlog as <-.
    rewrite Hcount. injection Hstatus as <- _. now apply Hupdate.
  - destruct (@rowcount_of_status_spec scripted (text "DELETE 120 rows"))
      as (_ & _ & Hmatch & _).
    apply (Hmatch (text "DELETE") (text "1") (text "20 rows")).
    + right; now left.
    + split; [discriminate | reflexivity].
    + reflexivity.
  - destruct (@rowcount_of_status_spec scripted (text "INSERT x 1"))
      as (_ & _ & _ & Hnone & _).
    apply Hnone. intros tag count rest [-> | [-> | (oid & [Hne Hoid] & ->)]] _;
      try discriminate.
    destruct oid as [|c oid]; [now contradiction Hne |].
    unfold all_digits in Hoid. simpl in Hoid.
    apply andb_prop in Hoid. destruct Hoid as [Hc _].
    intros Heq. injection Heq as <- _. discriminate.
  - now apply (@rowcount_of_status_spec scripted (text "UPDATE 3")).
  - now apply (@rowcount_of_status_spec scripted (text "INSERT 0 1")).
  - now apply (@rowcount_of_status_spec scripted (text "SELECT")).
Defined.

(** ** UTF-8 and the JSONB payload *)

Ltac to_arith :=
  repeat match goal with
         | H : (_ && _)%bool = true |- _ =>
             apply andb_prop in H; destruct H
         | H : negb _ = true |- _ => apply negb_true_iff in H
         | H : negb _ = false |- _ => apply negb_false_iff in H
         | H : (_ <=? _) = true |- _ => apply Z.leb_le in H
         | H : (_ <=? _) = false |- _ => apply Z.leb_gt in H
         | H : (_ <? _) = true |- _ => apply Z.ltb_lt in H
         | H : (_ <? _) = false |- _ => apply Z.ltb_ge in H
         | H : (_ =? _) = true |- _ => apply Z.eqb_eq in H
         | H : (_ =? _) = false |- _ => apply Z.eqb_neq in H
         end.

Lemma in_range_true (lo hi b : Z) : lo <= b <= hi -> in_range lo hi b = true.
Proof.
  intros [Hlo Hhi]. unfold in_range.
  apply andb_true_intro. split; now apply Z.leb_le.
Qed.

Lemma in_range_false (lo hi b : Z) :
  b < lo \/ hi < b -> in_range lo hi b = false.
Proof.
  intros H. unfold in_range. apply andb_false_iff.
  destruct H; [left | right]; now apply Z.leb_gt.
Qed.

Lemma is_scalar_spec (c : Z) :
  is_scalar c = true -> 0 <= c <= 1114111 /\ (c < 55296 \/ 57343 < c).
Proof.
  unfold is_scalar. intros H. to_arith.
  apply andb_false_iff in H0. destruct H0; to_arith; lia.
Qed.

(** The decoder reads back the bytes of one code point, whatever follows. *)
Lemma decode_encode_char (c : Z) (bs rest : pybytes) :
  encode_char c = Some bs -> decode_char (bs ++ rest)%list = Some (c, rest).
Proof.
  unfold encode_char.
  destruct (is_scalar c) eqn:Hscalar; cbn [negb]; [|discriminate].
  apply is_scalar_spec in Hscalar.
  destruct (c <? 128) eqn:H1; [|destruct (c <? 2048) eqn:H2;
                                 [|destruct (c <? 65536) eqn:H3]];
    intros Hbs;
    match type of Hbs with
    | Some ?l = Some _ => assert (Hl : bs = l) by congruence
    end;
    subst bs; clear Hbs; to_arith; cbn [app decode_char].
  - rewrite in_range_true by lia. reflexivity.
  - rewrite (@in_range_false 0 127 _) by (Z.div_mod_to_equations; lia).
    rewrite (@in_range_true 194 223 _) by (Z.div_mod_to_equations; lia).
    unfold is_cont.
    rewrite (@in_range_true 128 191 _) by (Z.div_mod_to_equations; lia).
    apply f_equal, (f_equal (fun x => (x, rest))).
    Z.div_mod_to_equations; lia.
  - rewrite (@in_range_false 0 127 _) by (Z.div_mod_to_equations; lia).
    rewrite (@in_range_false 194 223 _) by (Z.div_mod_to_equations; lia).
    rewrite (@in_range_true 224 239 _) by (Z.div_mod_to_equations; lia).
    unfold is_cont.
    rewrite (@in_range_true 128 191 (128 + c mod 64))
      by (Z.div_mod_to_equations; lia).
    rewrite in_range_true.
    + cbn [andb]. apply f_equal, (f_equal (fun x => (x, rest))).
      Z.div_mod_to_equations; lia.
    + destruct (224 + c / 4096 =? 224) eqn:Hlo;
        destruct (224 + c / 4096 =? 237) eqn:Hhi; to_arith;
        Z.div_mod_to_equations; lia.
  - rewrite (@in_range_false 0 127 _) by (Z.div_mod_to_equations; lia).
    rewrite (@in_range_false 194 223 _) by (Z.div_mod_to_equations; lia).
    rewrite (@in_range_false 224 239 _) by (Z.div_mod_to_equations; lia).
    rewrite (@in_range_true 240 244 _) by (Z.div_mod_to_equations; lia).
    unfold is_cont.
    rewrite (@in_range_true 128 191 (128 + c mod 64))
      by (Z.div_mod_to_equations; lia).
    rewrite (@in_range_true 128 191 (128 + (c / 64) mod 64))
      by (Z.div_mod_to_equations; lia).
    rewrite in_range_true.
    + cbn [andb]. apply f_equal, (f_equal (fun x => (x, rest))).
      Z.div_mod_to_equations; lia.
    + destruct (240 + c / 262144 =? 240) eqn:Hlo;
        destruct (240 + c / 262144 =? 244) eqn:Hhi; to_arith;
        Z.div_mod_to_equations; lia.
Qed.

Lemma encode_char_length (c : Z) (bs : pybytes) :
  encode_char c = Some bs -> (1 <= List.length bs)%nat.
Proof.
  unfold encode_char.
  destruct (negb (is_scalar c)); [discriminate |].
  destruct (c <? 128); [|destruct (c <? 2048); [|destruct (c <? 65536)]];
    intros H; inversion H; simpl; lia.
Qed.

Lemma decode_loop_encode (s : pystr) :
  forall bs fuel,
    str_encode s = inr bs -> (List.length bs <= fuel)%nat ->
    decode_loop fuel bs = inr s.
Proof.
  induction s as [|c s IH]; intros bs fuel; simpl.
  - intros H; inversion H. now destruct fuel.
  - destruct (encode_char c) as [bc|] eqn:Hc; [|discriminate].
    destruct (str_encode s) as [e|rest] eqn:Hrest; [discriminate |].
    intros H Hfuel; inversion H; subst bs; clear H.
    pose proof (encode_char_length _ Hc) as Hlen.
    rewrite length_app in Hfuel.
    destruct fuel as [|fuel]; [lia |].
    destruct (bc ++ rest)%list as [|b0 tail] eqn:Happ.
    + apply (f_equal (@List.length Z)) in Happ. rewrite length_app in Happ.
      simpl in Happ. lia.
    + cbn [decode_loop]. rewrite <- Happ.
      rewrite (decode_encode_char _ rest Hc).
      rewrite (IH rest fuel eq_refl); [reflexivity | lia].
Qed.

Lemma str_encode_scalar (s : pystr) :
  forallb is_scalar s = true -> exists bs, str_encode s = inr bs.
Proof.
  induction s as [|c s IH]; simpl; [now exists [] |].
  intros H. apply andb_prop in H. destruct H as [Hc Hs].
  destruct (IH Hs) as (rest & Hrest). rewrite Hrest.
  unfold encode_char. rewrite Hc. simpl.
  destruct (c <? 128); [|destruct (c <? 2048); [|destruct (c <? 65536)]];
    eexists; reflexivity.
Qed.

(** C8: for a text that UTF-8 encodes, the JSONB encoder gives the byte 1
    and then the UTF-8 bytes of the text; the JSONB decoder drops the first
    byte of what it is given, whichever it is, decodes the others and hands
    the text to the deserializer; so decoding an encoded text is
    deserializing it, as for the text of the object with member a, 1. *)
Theorem jsonb_round_trip (value : Type) (deserializer : pystr -> exn + value)
    (s : pystr) :
  forallb is_scalar s = true ->
  exists payload,
    str_encode s = inr payload
    /\ bytes_decode payload = inr s
    /\ _jsonb_encoder s = inr (1 :: payload)
    /\ (forall b bs,
          _jsonb_decoder deserializer (b :: bs)
          = match bytes_decode bs with
            | inl e => inl e
            | inr t => deserializer t
            end)
    /\ _jsonb_decoder deserializer (1 :: payload) = deserializer s
    /\ (s = json_a_1 ->
        payload = [123; 34; 97; 34; 58; 49; 125]
        /\ _jsonb_decoder deserializer [1; 123; 34; 97; 34; 58; 49; 125]
           = deserializer json_a_1).
Proof.
  intros Hscalar. destruct (str_encode_scalar s Hscalar) as (payload & Henc).
  assert (Hdec : bytes_decode payload = inr s)
    by (apply decode_loop_encode; [assumption | apply Nat.le_refl]).
  exists payload. repeat split.
  - exact Henc.
  - exact Hdec.
  - unfold _jsonb_encoder. now rewrite Henc.
  - unfold _jsonb_decoder. simpl. now rewrite Hdec.
  - subst s. vm_compute in Henc. now inversion Henc.
Qed.

Lemma jsonb_round_trip_witness :
  _jsonb_decoder (fun t => inr t) [1; 123; 34; 97; 34; 58; 49; 125]
  = inr json_a_1.
Proof.
  destruct (@jsonb_round_trip pystr (fun t => inr t) json_a_1 eq_refl)
    as (payload & _ & _ & _ & _ & _ & Hexample).
  now apply Hexample.
Defined.

(** ** Runs on the scripted driver *)

Lemma connected_reachable (native : Native) (size : nat) (w : world)
    (ss : bool) (c : connection) (w' : world) :
  connect size w = (Return c, w') -> reachable (connected size w ss).
Proof.
  intros Hconnect. unfold connected. rewrite Hconnect.
  now apply reach_connect with (size := size) (w := w).
Qed.

Lemma after_reachable (native : Native) (ops : list operation) (s : state) :
  reachable s -> reachable (after ops s).
Proof.
  revert s; induction ops as [|op ops IH]; intros s Hs; simpl;
    [assumption |].
  apply IH. now apply reach_perform.
Qed.

(** C1, as stated, fails: when the native [start] of a transaction raises
    and the connection is not closed, the execute that started it leaves the
    handle assigned and the started flag off. *)
Lemma handle_without_started :
  reachable start_failed
  /\ ~ (_transaction (conn start_failed) <> None
        <-> _started (conn start_failed) = true).
Proof.
  split.
  - apply after_reachable.
    now apply (@connected_reachable scripted 100 start_fails false
                 (connection_init 100 100) (tick start_fails)).
  - vm_compute. intros [H _]. specialize (H ltac:(discriminate)).
    discriminate.
Qed.

Lemma started_implies_transaction_witness :
  _transaction
    (conn (after [op_execute "SELECT 1" None] (connected 100 calm false)))
  <> None
  /\ (_transaction
        (conn (@after steady [op_execute "SELECT 1" None; op_commit]
                 (@connected steady 100 start_fails false))) <> None
      <-> _started
            (conn (@after steady [op_execute "SELECT 1" None; op_commit]
                     (@connected steady 100 start_fails false))) = true)
  /\ (_started
        (conn (snd (execute "SELECT 1" None
                      (@connected scripted 100 start_fails false)))) = false
      /\ _transaction
           (conn (snd (execute "SELECT 1" None
                         (@connected scripted 100 start_fails false))))
         = Some tt)
  /\ _transaction
       (conn (snd (execute "SELECT 1" None
                     (@connected scripted 100 start_fails_closed false))))
     = None.
Proof.
  split; [|split; [|split]].
  - assert (Hreach : reachable (after [op_execute "SELECT 1" None]
                                      (connected 100 calm false))).
    { apply after_reachable.
      now apply (@connected_reachable scripted 100 calm false
                   (connection_init 100 100) (tick calm)). }
    destruct (@started_implies_transaction scripted _ Hreach) as [Hhandle _].
    apply Hhandle. reflexivity.
  - assert (Hreach : reachable
                       (@after steady [op_execute "SELECT 1" None; op_commit]
                          (@connected steady 100 start_fails false))).
    { apply after_reachable.
      now apply (@connected_reachable steady 100 start_fails false
                   (connection_init 100 100) (tick start_fails)). }
    destruct (@started_implies_transaction steady _ Hreach)
      as (_ & Hboth & _).
    apply Hboth. intros t w. exists w. reflexivity.
  - assert (Hreach : reachable (@connected scripted 100 start_fails false))
      by now apply (@connected_reachable scripted 100 start_fails false
                      (connection_init 100 100) (tick start_fails)).
    destruct (@started_implies_transaction scripted _ Hreach)
      as (_ & _ & Hraises).
    destruct (Hraises tt connection_lost (tick start_fails)
                (tick start_fails) eq_refl eq_refl eq_refl eq_refl)
      as (_ & _ & Hexecute & Hoff & Hhandle).
    rewrite (Hexecute "SELECT 1" None). split; [exact Hoff | exact Hhandle].
  - assert (Hreach : reachable
                       (@connected scripted 100 start_fails_closed false))
      by now apply (@connected_reachable scripted 100 start_fails_closed
                      false (connection_init 100 100)
                      (tick start_fails_closed)).
    destruct (@started_implies_transaction scripted _ Hreach)
      as (_ & _ & Hraises).
    destruct (Hraises tt connection_lost (tick start_fails_closed)
                (tick start_fails_closed) eq_refl eq_refl eq_refl eq_refl)
      as (_ & _ & Hexecute & _ & Hhandle).
    rewrite (Hexecute "SELECT 1" None). exact Hhandle.
Defined.

Lemma commit_rollback_cleanup_witness :
  commit idle = (Return tt, idle)
  /\ (exists e, fst (commit busy_end_fails) = Raise e)
  /\ _transaction (conn (snd (commit busy_end_fails))) = None
  /\ _started (conn (snd (rollback busy))) = false
  /\ exists rest,
       log (snd (commit busy)) = (log busy ++ call_commit tt :: rest)%list.
Proof.
  split; [|split; [|split; [|split]]].
  - destruct (@commit_rollback_cleanup scripted idle) as (Hidle & _).
    now destruct (Hidle eq_refl).
  - destruct (@commit_rollback_cleanup scripted busy_end_fails)
      as (_ & Hopen & _).
    destruct (Hopen eq_refl commit (or_introl eq_refl)) as ([Hret | He] & _);
      [vm_compute in Hret; discriminate | exact He].
  - destruct (@commit_rollback_cleanup scripted busy_end_fails)
      as (_ & Hopen & _).
    now destruct (Hopen eq_refl commit (or_introl eq_refl)) as (_ & Hnone & _).
  - destruct (@commit_rollback_cleanup scripted busy) as (_ & Hopen & _).
    now destruct (Hopen eq_refl rollback (or_intror eq_refl)) as (_ & _ & Hoff).
  - destruct (@commit_rollback_cleanup scripted busy) as (_ & _ & Hcalls).
    now destruct (Hcalls eq_refl tt eq_refl).
Defined.

Lemma handle_exception_translates_witness :
  (exists raised,
     fst (_handle_exception (A := unit) connection_lost idle) = Raise raised
     /\ exn_type raised = Error
     /\ exn_sqlstate raised = Some "08003"
     /\ exn_cause raised = Some connection_lost)
  /\ fst (_handle_exception (A := unit) IndexError idle) = Raise IndexError.
Proof.
  split.
  - destruct (@handle_exception_translates scripted unit connection_lost
                idle eq_refl)
      as (raised & Hraised & Hmapped & _).
    exists raised. split; [exact Hraised |].
    destruct (Hmapped
                [other_class "asyncpg.exceptions.ConnectionDoesNotExistError"]
                asyncpg_PostgresError
                [py_Exception; py_BaseException; py_object] Error eq_refl)
      as (_ & Htype & _ & Hstate & _ & Hcause).
    + repeat constructor.
    + reflexivity.
    + auto.
  - destruct (@handle_exception_translates scripted unit IndexError
                idle eq_refl)
      as (raised & Hraised & _ & Hunmapped).
    rewrite Hraised. f_equal. apply Hunmapped. repeat constructor.
Defined.

Lemma prepare_cases_witness :
  fst (_prepare "SELECT 1" 200 reload_down) = Raise connection_lost
  /\ _invalidate_schema_cache_asof (conn (snd (_prepare "SELECT 1" 200 idle)))
     = 200%Q
  /\ _check_type_cache_invalidation 0 idle = (Return tt, idle)
  /\ _prepared_statement_cache (conn (snd (_prepare "SELECT 1" 0 uncached)))
     = None
  /\ (fst (_prepare "SELECT 1" 0 busy)
      = Return ("SELECT 1", [{| attr_name := "id"; attr_type_oid := 23 |}])
      /\ log (snd (_prepare "SELECT 1" 0 busy)) = log busy)
  /\ (exists cache,
        _prepared_statement_cache (conn (snd (_prepare "SELECT 2" 0 busy)))
        = Some cache
        /\ assoc "SELECT 2" (entries cache)
           = Some ("SELECT 2",
                   [{| attr_name := "id"; attr_type_oid := 23 |}], 102%Q))
  /\ exists cache,
       _prepared_statement_cache (conn (snd (_prepare "SELECT 1" 150 busy)))
       = Some cache
       /\ assoc "SELECT 1" (entries cache)
          = Some ("SELECT 1",
                  [{| attr_name := "id"; attr_type_oid := 23 |}], 102%Q).
Proof.
  split; [|split; [|split; [|split; [|split; [|split]]]]].
  - destruct (@prepare_cases scripted "SELECT 1" 200 reload_down)
      as (_ & Hnewer & _).
    destruct (Hnewer eq_refl) as (_ & Hraised & _).
    now rewrite (Hraised connection_lost (the_world reload_down) eq_refl).
  - destruct (@prepare_cases scripted "SELECT 1" 200 idle)
      as (_ & Hnewer & _).
    destruct (Hnewer eq_refl) as (_ & _ & Hreloaded).
    now destruct (Hreloaded (the_world idle) eq_refl).
  - destruct (@prepare_cases scripted "SELECT 1" 0 idle)
      as (_ & _ & Hold & _).
    now apply Hold.
  - destruct (@prepare_cases scripted "SELECT 1" 0 uncached)
      as (_ & _ & _ & Hlookup).
    destruct (Hlookup uncached eq_refl) as (Hnone & _).
    now destruct (Hnone eq_refl "SELECT 1" (the_world uncached)
                    [{| attr_name := "id"; attr_type_oid := 23 |}]
                    (the_world uncached) eq_refl eq_refl).
  - destruct (@prepare_cases scripted "SELECT 1" 0 busy)
      as (_ & _ & _ & Hlookup).
    destruct (Hlookup busy eq_refl) as (_ & Hhit & _).
    destruct (Hhit {| capacity := 100;
                      entries :=
                        [("SELECT 1",
                          ("SELECT 1",
                           [{| attr_name := "id"; attr_type_oid := 23 |}],
                           101%Q))] |}
                   "SELECT 1" [{| attr_name := "id"; attr_type_oid := 23 |}]
                   101%Q eq_refl eq_refl eq_refl)
      as (Hreturned & Hlog & _).
    now split.
  - destruct (@prepare_cases scripted "SELECT 2" 0 busy)
      as (_ & _ & _ & Hlookup).
    destruct (Hlookup busy eq_refl) as (_ & _ & Hmiss).
    destruct (Hmiss {| capacity := 100;
                       entries :=
                         [("SELECT 1",
                           ("SELECT 1",
                            [{| attr_name := "id"; attr_type_oid := 23 |}],
                            101%Q))] |}
                    eq_refl ltac:(simpl; lia) (or_introl eq_refl)
                    "SELECT 2" (the_world busy)
                    [{| attr_name := "id"; attr_type_oid := 23 |}]
                    (the_world busy) 102%Q (tick (the_world busy))
                    eq_refl eq_refl eq_refl)
      as (_ & _ & Hstored).
    exact Hstored.
  - destruct (@prepare_cases scripted "SELECT 1" 150 busy)
      as (_ & _ & _ & Hlookup).
    destruct (Hlookup
                (with_conn (with_world busy (the_world busy)
                              [call_reload_schema_state])
                           (set_asof 150 (conn busy)))
                eq_refl) as (_ & _ & Hmiss).
    destruct (Hmiss {| capacity := 100;
                       entries :=
                         [("SELECT 1",
                           ("SELECT 1",
                            [{| attr_name := "id"; attr_type_oid := 23 |}],
                            101%Q))] |}
                    eq_refl ltac:(simpl; lia)
                    (or_intror
                       (ex_intro _ "SELECT 1"
                          (ex_intro _
                             [{| attr_name := "id"; attr_type_oid := 23 |}]
                             (ex_intro _ 101%Q (conj eq_refl eq_refl)))))
                    "SELECT 1" (the_world busy)
                    [{| attr_name := "id"; attr_type_oid := 23 |}]
                    (the_world busy) 102%Q (tick (the_world busy))
                    eq_refl eq_refl eq_refl)
      as (_ & _ & Hstored).
    exact Hstored.
Defined.

(** C4, as stated, fails: a [fetchmany(10)] on a server side cursor that
    holds no row in its buffer makes a fetch of 50, not of 10. *)
Lemma fetchmany_refills_empty_buffer :
  reachable streaming
  /\ 10 > Z.of_nat (List.length (buffered_rows (cur streaming)))
  /\ log (snd (ss_fetchmany 2 (Some 10) streaming))
     = (log streaming ++ [call_stream_fetch tt 50])%list
  /\ log (snd (ss_fetchmany 2 (Some 10) streaming))
     <> (log streaming
         ++ [call_stream_fetch
               tt (10 - Z.of_nat
                          (List.length (buffered_rows (cur streaming))))])%list.
Proof.
  split; [|split; [|split]].
  - apply after_reachable.
    now apply (@connected_reachable scripted 100 calm true
                 (connection_init 100 100) (tick calm)).
  - reflexivity.
  - reflexivity.
  - vm_compute. discriminate.
Qed.

(** A [fetchall()] before any other fetch finds [None] where it reads the
    buffer, and raises before it calls the stream. *)
Example fetchall_before_first_fetch :
  ss_fetchall 2 streaming
  = (Raise (TypeError "'NoneType' object is not iterable"), streaming).
Proof. reflexivity. Qed.

Lemma ss_fetch_batching_witness :
  log (snd (ss_fetchmany 2 (Some 5) buffered))
  = (log buffered ++ [call_stream_fetch tt 3])%list
  /\ fst (ss_fetchmany 2 (Some 5) buffered) = Return [49; 50; 51; 52; 53]
  /\ log (snd (ss_fetchmany 2 (Some 60) streaming))
     = (log streaming
        ++ [call_stream_fetch tt 50; call_stream_fetch tt 10])%list
  /\ fst (ss_fetchall 2 buffered) = Return (map Z.of_nat (seq 49 72)).
Proof.
  split; [|split; [|split]].
  - destruct (@ss_fetch_batching scripted buffered tt eq_refl)
      as (Hmany & _ & _).
    now destruct (Hmany 2%nat 5 49 [50] eq_refl eq_refl).
  - destruct (@ss_fetch_batching scripted buffered tt eq_refl)
      as (Hmany & _ & _).
    destruct (Hmany 2%nat 5 49 [50] eq_refl eq_refl) as (_ & Hrows).
    now destruct (Hrows [51; 52; 53] (take_rows 3 (the_world buffered))
                    eq_refl).
  - destruct (@ss_fetch_batching scripted streaming tt eq_refl)
      as (_ & Hempty & _).
    now rewrite (Hempty 2%nat 60 (map Z.of_nat (seq 1 50))
                   (take_rows 50 (the_world streaming)) eq_refl eq_refl).
  - destruct (@ss_fetch_batching scripted buffered tt eq_refl)
      as (_ & _ & Hall).
    rewrite (Hall 2%nat [49; 50] [map Z.of_nat (seq 51 70)]
               (take_rows 1000 (take_rows 1000 (the_world buffered)))
               eq_refl).
    + reflexivity.
    + apply (@drains_batch scripted tt (the_world buffered)
               (take_rows 1000 (the_world buffered))
               (take_rows 1000 (take_rows 1000 (the_world buffered)))
               51 (map Z.of_nat (seq 52 69)) []).
      * reflexivity.
      * now apply drains_done.
    + simpl. lia.
Defined.

(** * Further properties *)

(** ** What a run can change

    A relation between the state before and the state after, closed under
    the assignments and calls a method makes, holds of the method.  The
    hypotheses name the steps one by one, and a lemma depends on those of
    the steps its method takes. *)
Section Steps.
Context {native : Native}.
Variable R : state -> state -> Prop.
Variable allowed : native_call -> Prop.
Hypothesis R_refl : forall s, R s s.
Hypothesis R_trans : forall a b c, R a b -> R b c -> R a c.
Hypothesis R_call : forall s w c, allowed c -> R s (with_world s w [c]).
Hypothesis R_clock :
  forall s w,
    R s {| conn := conn s; cur := cur s; the_world := w; log := log s |}.
Hypothesis R_cur : forall s k, R s (with_cur s k).
Hypothesis R_asof :
  forall s t,
    gt t (_invalidate_schema_cache_asof (conn s)) = true ->
    R s (with_conn s (set_asof t (conn s))).
Hypothesis R_cache : forall s k, R s (with_conn s (set_cache k (conn s))).
Hypothesis R_clear :
  forall s,
    R s (with_conn s (set_started false (set_transaction None (conn s)))).
Hypothesis R_handle :
  forall s t, R s (with_conn s (set_transaction (Some t) (conn s))).
Hypothesis R_handle_none :
  forall s, R s (with_conn s (set_transaction None (conn s))).
Hypothesis R_started_on : forall s, R s (with_conn s (set_started true (conn s))).
Hypothesis R_started_off :
  forall s, R s (with_conn s (set_started false (conn s))).
Hypothesis R_isolation :
  forall s level setting,
    R s (with_conn s (set_isolation level setting (conn s))).
Hypothesis R_flags :
  forall s ro de, R s (with_conn s (set_flags ro de (conn s))).

Local Abbreviation steps := (steps R).

Lemma steps_ret (A : Type) (a : A) : steps (ret a).
Proof. intros s. apply R_refl. Qed.

Lemma steps_raise (A : Type) (e : exn) : steps (raise (A := A) e).
Proof. intros s. apply R_refl. Qed.

Lemma steps_out_of_fuel (A : Type) : steps (out_of_fuel (A := A)).
Proof. intros s. apply R_refl. Qed.

Lemma steps_lift_exn (A : Type) (r : exn + A) : steps (lift_exn r).
Proof. destruct r; intros s; apply R_refl. Qed.

Lemma steps_get_conn : steps get_conn.
Proof. intros s. apply R_refl. Qed.

Lemma steps_get_cur : steps get_cur.
Proof. intros s. apply R_refl. Qed.

Lemma steps_update_cur (f : cursor -> cursor) : steps (update_cur f).
Proof. intros s. apply (R_cur s (f (cur s))). Qed.

Lemma steps_now : steps now.
Proof.
  intros s. unfold now. destruct (time_time (the_world s)) as [t w].
  apply R_clock.
Qed.

Lemma steps_call (A : Type) (c : native_call)
    (f : world -> (exn + A) * world) :
  allowed c -> steps (call c f).
Proof.
  intros Hc s. unfold call. destruct (f (the_world s)) as [r w].
  apply (R_call s w Hc).
Qed.

Lemma steps_call_pure (A : Type) (c : native_call)
    (f : world -> A * world) :
  allowed c -> steps (call_pure c f).
Proof. intros Hc. unfold call_pure. now apply steps_call. Qed.

Lemma steps_bind (A B : Type) (m : M A) (k : A -> M B) :
  steps m -> (forall a, steps (k a)) -> steps (bind m k).
Proof.
  intros Hm Hk s. unfold bind. specialize (Hm s).
  destruct (m s) as [[a|e|] s1]; simpl in *; try assumption.
  apply (R_trans Hm). apply Hk.
Qed.

Lemma steps_try_except (A : Type) (body : M A) (handler : exn -> M A) :
  steps body -> (forall e, steps (handler e)) ->
  steps (try_except body handler).
Proof.
  intros Hb Hh s. unfold try_except. specialize (Hb s).
  destruct (body s) as [[a|e|] s1]; simpl in *; try assumption.
  destruct (isinstance e py_Exception); simpl; [|assumption].
  apply (R_trans Hb). apply Hh.
Qed.

Lemma steps_try_except_else (body : M unit) (handler : exn -> M unit)
    (orelse : M unit) :
  steps body -> (forall e, steps (handler e)) -> steps orelse ->
  steps (try_except_else body handler orelse).
Proof.
  intros Hb Hh Ho s. unfold try_except_else. specialize (Hb s).
  destruct (body s) as [[a|e|] s1]; simpl in *; try assumption.
  - apply (R_trans Hb). apply Ho.
  - destruct (isinstance e py_Exception); simpl; [|assumption].
    apply (R_trans Hb). apply Hh.
Qed.

Lemma steps_try_finally (A : Type) (body : M A) (final : M unit) :
  steps body -> steps final -> steps (try_finally body final).
Proof.
  intros Hb Hf s. unfold try_finally. specialize (Hb s).
  destruct (body s) as [[a|e|] s1]; simpl in *; try assumption;
    specialize (Hf s1); destruct (final s1) as [[[]|e'|] s2]; simpl in *;
    apply (R_trans Hb Hf).
Qed.

Lemma steps_handle_exception (A : Type) (error : exn) :
  allowed call_is_closed -> steps (_handle_exception (A := A) error).
Proof.
  intros Hc. unfold _handle_exception.
  apply steps_bind; [now apply steps_call_pure | intros closed].
  apply steps_bind; [|intros; apply steps_raise].
  destruct closed; [|apply steps_ret].
  intros s. apply R_clear.
Qed.

Lemma steps_check (t : Q) :
  allowed call_reload_schema_state ->
  steps (_check_type_cache_invalidation t).
Proof.
  intros Hc s. unfold _check_type_cache_invalidation, bind, get_conn.
  destruct (gt t (_invalidate_schema_cache_asof (conn s))) eqn:Hgt;
    [|apply R_refl].
  unfold call. destruct (reload_schema_state (the_world s)) as [[e|[]] w];
    simpl.
  - apply (R_call s w Hc).
  - apply (R_trans (R_call s w Hc)).
    apply (@R_asof (with_world s w [call_reload_schema_state]) t Hgt).
Qed.

Ltac stepper :=
  repeat first
    [ apply steps_ret | apply steps_raise | apply steps_out_of_fuel
    | apply steps_lift_exn | apply steps_get_conn | apply steps_get_cur
    | apply steps_update_cur | apply steps_now
    | apply steps_handle_exception; auto
    | apply steps_check; auto
    | apply steps_call; auto
    | apply steps_call_pure; auto
    | apply steps_bind; [|intros ?]
    | apply steps_try_except; [|intros ?]
    | apply steps_try_finally
    | match goal with
      | |- steps (if ?b then _ else _) => destruct b
      | |- steps (match ?x with _ => _ end) => destruct x
      | |- steps (let (_, _) := ?x in _) => destruct x
      end ].

Lemma steps_set_cache (k : option (LRUCache cache_entry)) :
  steps (update_conn (set_cache k)).
Proof. intros s. apply R_cache. Qed.

Lemma steps_prepare (operation : string) (t : Q) :
  (forall c, statement_call c = true -> allowed c) ->
  steps (_prepare operation t).
Proof.
  intros Hstmt. unfold _prepare, prepare_and_store.
  apply steps_bind; [apply steps_check; auto | intros _].
  apply steps_bind; [apply steps_get_conn | intros c].
  destruct (_prepared_statement_cache c) as [cache|].
  - destruct (lru_contains operation cache).
    + destruct (lru_getitem operation cache) as [[[[st at_] ts] cache']|];
        [|apply steps_raise].
      apply steps_bind; [apply steps_set_cache | intros _].
      destruct (gt ts t); [apply steps_ret |].
      apply steps_bind; [apply steps_call; auto | intros ?].
      apply steps_bind; [apply steps_call; auto | intros ?].
      apply steps_bind; [apply steps_now | intros ?].
      apply steps_bind; [apply steps_set_cache | intros; apply steps_ret].
    + apply steps_bind; [apply steps_call; auto | intros ?].
      apply steps_bind; [apply steps_call; auto | intros ?].
      apply steps_bind; [apply steps_now | intros ?].
      apply steps_bind; [apply steps_set_cache | intros; apply steps_ret].
  - apply steps_bind; [apply steps_call; auto | intros ?].
    apply steps_bind; [apply steps_call; auto | intros ?].
    apply steps_ret.
Qed.

Lemma execute_unfold (operation : string) (parameters : option (list param)) :
  execute operation parameters
  = bind get_conn
      (fun c =>
         bind (if negb (_started c) then _start_transaction else ret tt)
           (fun _ => execute_tail operation parameters)).
Proof. reflexivity. Qed.

Lemma steps_execute_tail (operation : string)
    (parameters : option (list param)) :
  (forall c, statement_call c = true -> allowed c) ->
  steps (execute_tail operation parameters).
Proof.
  intros Hstmt. unfold execute_tail, execute_body.
  apply steps_bind; [apply steps_get_cur | intros k].
  apply steps_bind; [destruct parameters; stepper | intros sql].
  apply steps_try_except; [|intros; apply steps_handle_exception; auto].
  apply steps_bind; [now apply steps_prepare | intros [st at_]].
  stepper.
Qed.

Lemma try_except_bind (A B : Type) (m : M A) (k : A -> M B)
    (handler : exn -> M B) (s : state) :
  try_except (bind m k) handler s
  = match m s with
    | (Return a, s1) => try_except (k a) handler s1
    | (Raise e, s1) =>
        if isinstance e py_Exception then handler e s1 else (Raise e, s1)
    | (OutOfFuel, s1) => (OutOfFuel, s1)
    end.
Proof.
  unfold try_except, bind. now destruct (m s) as [[a|e|] s1].
Qed.

(** What [execute] does after [_prepare] has run. *)
Lemma steps_execute_after_prepare (operation : string) (s : state) :
  (forall c, statement_call c = true -> allowed c) ->
  R (snd (_prepare operation (cursor_invalidate_schema_cache_asof (cur s)) s))
    (snd (execute_tail operation None s)).
Proof.
  intros Hstmt.
  change (execute_tail operation None s)
    with (try_except (execute_body operation [] (cur s))
            _handle_exception s).
  unfold execute_body. rewrite try_except_bind.
  destruct (_prepare operation _ s) as [[[st at_]|e|] s1]; simpl.
  - apply steps_try_except; [|intros; apply steps_handle_exception; auto].
    stepper.
  - destruct (isinstance e py_Exception); [|apply R_refl].
    apply steps_handle_exception. auto.
  - apply R_refl.
Qed.

Lemma steps_start_transaction :
  (forall c, transaction_call c = true -> allowed c) ->
  steps _start_transaction.
Proof.
  intros Htxn s.
  assert (Hclosed : allowed call_is_closed) by now apply Htxn.
  unfold _start_transaction, try_except_else, bind at 1, get_conn.
  destruct (String.eqb (isolation_level (conn s)) "autocommit");
    [apply R_refl |].
  set (c1 := call_transaction (isolation_level (conn s)) (readonly (conn s))
                              (deferrable (conn s))).
  assert (A1 : allowed c1) by now apply Htxn.
  unfold bind, call, update_conn. fold c1.
  destruct (conn_transaction _ _ _ _) as [[e|t] w]; simpl.
  - pose proof (@R_call s w c1 A1) as H1.
    destruct (isinstance e py_Exception); simpl; [|exact H1].
    apply (R_trans H1).
    apply (@steps_handle_exception unit e Hclosed (with_world s w [c1])).
  - assert (A2 : allowed (call_start t)) by now apply Htxn.
    set (s1 := with_conn (with_world s w [c1])
                         (set_transaction (Some t) (conn s))).
    assert (H1 : R s s1).
    { apply (R_trans (@R_call s w c1 A1)).
      apply (@R_handle (with_world s w [c1]) t). }
    destruct (txn_start t w) as [[e|[]] w1]; simpl.
    + pose proof (R_trans H1 (@R_call s1 w1 (call_start t) A2)) as H2.
      destruct (isinstance e py_Exception); simpl; [|exact H2].
      apply (R_trans H2).
      apply (@steps_handle_exception unit e Hclosed
               (with_world s1 w1 [call_start t])).
    + apply (R_trans H1).
      apply (R_trans (@R_call s1 w1 (call_start t) A2)).
      apply (@R_started_on (with_world s1 w1 [call_start t])).
Qed.

Lemma steps_clear_transaction : steps clear_transaction.
Proof.
  unfold clear_transaction. apply steps_bind; [|intros _].
  - intros s. apply R_handle_none.
  - intros s. apply R_started_off.
Qed.

Lemma steps_rollback :
  (forall c, transaction_call c = true -> allowed c) -> steps rollback.
Proof.
  intros Htxn. unfold rollback.
  apply steps_bind; [apply steps_get_conn | intros c].
  destruct (_started c); [|apply steps_ret].
  apply steps_try_finally; [|apply steps_clear_transaction].
  apply steps_try_except; [|intros; apply steps_handle_exception; auto].
  destruct (_transaction c); [apply steps_call; auto | apply steps_raise].
Qed.

Lemma steps_commit :
  (forall c, transaction_call c = true -> allowed c) -> steps commit.
Proof.
  intros Htxn. unfold commit.
  apply steps_bind; [apply steps_get_conn | intros c].
  destruct (_started c); [|apply steps_ret].
  apply steps_try_finally; [|apply steps_clear_transaction].
  apply steps_try_except; [|intros; apply steps_handle_exception; auto].
  destruct (_transaction c); [apply steps_call; auto | apply steps_raise].
Qed.

Lemma steps_executemany (operation : string) (seq : list (list param)) :
  (forall c, statement_call c = true -> allowed c) ->
  (forall c, transaction_call c = true -> allowed c) ->
  steps (executemany operation seq).
Proof.
  intros Hstmt Htxn. unfold executemany, _executemany.
  apply steps_bind; [apply steps_get_cur | intros k].
  destruct (server_side k); [apply steps_raise |].
  apply steps_bind; [apply steps_get_cur | intros k'].
  apply steps_bind; [apply steps_check; auto | intros _].
  apply steps_bind; [apply steps_get_conn | intros c].
  apply steps_bind;
    [destruct (negb (_started c));
     [now apply steps_start_transaction | apply steps_ret] | intros _].
  stepper.
Qed.

Lemma steps_execute (operation : string) (parameters : option (list param)) :
  (forall c, statement_call c = true -> allowed c) ->
  (forall c, transaction_call c = true -> allowed c) ->
  steps (execute operation parameters).
Proof.
  intros Hstmt Htxn. rewrite execute_unfold.
  apply steps_bind; [apply steps_get_conn | intros c].
  apply steps_bind;
    [destruct (negb (_started c));
     [now apply steps_start_transaction | apply steps_ret] | intros _].
  now apply steps_execute_tail.
Qed.

Lemma steps_cursor_fetch (n : Z) :
  (forall h m, allowed (call_stream_fetch h m)) -> steps (cursor_fetch n).
Proof. intros Hs. unfold cursor_fetch. stepper. Qed.

Lemma steps_all_loop (fuel : nat) :
  (forall h m, allowed (call_stream_fetch h m)) ->
  forall rows, steps (all_loop fuel rows).
Proof.
  intros Hs. induction fuel as [|fuel IH]; intros rows; simpl;
    [apply steps_out_of_fuel |].
  apply steps_bind; [now apply steps_cursor_fetch |].
  intros [|r batch]; [apply steps_ret | apply IH].
Qed.

Lemma steps_ss_fetchall (fuel : nat) :
  (forall h m, allowed (call_stream_fetch h m)) -> steps (ss_fetchall fuel).
Proof.
  intros Hs. unfold ss_fetchall, list_rowbuffer, _all.
  apply steps_bind; [stepper | intros buf].
  apply steps_bind; [now apply steps_all_loop | intros rows]. stepper.
Qed.

Lemma steps_buffer_rows :
  (forall h m, allowed (call_stream_fetch h m)) -> steps _buffer_rows.
Proof.
  intros Hs. unfold _buffer_rows.
  apply steps_bind; [now apply steps_cursor_fetch | intros; stepper].
Qed.

Lemma steps_ss_fetchmany (fuel : nat) (size : option Z) :
  (forall h m, allowed (call_stream_fetch h m)) ->
  steps (ss_fetchmany fuel size).
Proof.
  intros Hs. destruct size as [size|]; simpl; [|now apply steps_ss_fetchall].
  apply steps_bind; [apply steps_get_cur | intros k].
  apply steps_bind;
    [destruct (rowbuffer_empty k);
     [now apply steps_buffer_rows | apply steps_ret] | intros _].
  unfold list_rowbuffer.
  apply steps_bind; [stepper | intros buf].
  apply steps_bind; [|intros; stepper].
  destruct (size >? Z.of_nat (List.length buf)); [|apply steps_ret].
  apply steps_bind; [now apply steps_cursor_fetch | intros; apply steps_ret].
Qed.

Lemma steps_ss_fetchone :
  (forall h m, allowed (call_stream_fetch h m)) -> steps ss_fetchone.
Proof.
  intros Hs. unfold ss_fetchone.
  apply steps_bind; [apply steps_get_cur | intros k].
  apply steps_bind;
    [destruct (rowbuffer_empty k);
     [now apply steps_buffer_rows | apply steps_ret] | intros _].
  stepper.
Qed.

Lemma steps_set_isolation_level (level : string) :
  (forall c, transaction_call c = true -> allowed c) ->
  steps (set_isolation_level level).
Proof.
  intros Htxn. unfold set_isolation_level.
  apply steps_bind; [apply steps_get_conn | intros c].
  apply steps_bind;
    [destruct (_started c); [now apply steps_rollback | apply steps_ret] |].
  intros _ s. apply R_isolation.
Qed.

(** Every operation but [close] stays clear of the native [close]. *)
Lemma steps_perform (fuel : nat) (op : operation) :
  (forall c, (c = call_close -> op = op_close) -> allowed c) ->
  steps (perform fuel op).
Proof.
  intros Hall.
  assert (Hstmt : forall c, statement_call c = true -> allowed c)
    by (intros c Hc; apply Hall; intros ->; discriminate).
  assert (Htxn : forall c, transaction_call c = true -> allowed c)
    by (intros c Hc; apply Hall; intros ->; discriminate).
  assert (Hs : forall h m, allowed (call_stream_fetch h m))
    by (intros h m; apply Hall; discriminate).
  destruct op; simpl.
  - now apply steps_execute.
  - now apply steps_executemany.
  - now apply steps_start_transaction.
  - now apply steps_commit.
  - now apply steps_rollback.
  - unfold close. apply steps_bind; [now apply steps_rollback | intros _].
    apply steps_call. now apply Hall.
  - now apply steps_set_isolation_level.
  - intros s. unfold set_autocommit, update_conn. simpl.
    destruct value; apply R_isolation.
  - intros s. apply R_flags.
  - apply steps_update_cur.
  - apply steps_update_cur.
  - apply steps_update_cur.
  - apply steps_update_cur.
  - apply steps_bind; [apply steps_get_cur | intros k].
    destruct (server_side k); unfold forget, fetchone.
    + apply steps_bind; [now apply steps_ss_fetchone | intros; stepper].
    + stepper.
  - apply steps_bind; [apply steps_get_cur | intros k].
    destruct (server_side k); unfold forget, fetchmany.
    + apply steps_bind; [now apply steps_ss_fetchmany | intros; stepper].
    + stepper.
  - apply steps_bind; [apply steps_get_cur | intros k].
    destruct (server_side k); unfold forget, fetchall.
    + apply steps_bind; [now apply steps_ss_fetchall | intros; stepper].
    + stepper.
  - apply steps_bind; [apply steps_get_cur | intros k].
    destruct (server_side k); unfold ss_close, cursor_close; stepper.
Qed.

End Steps.

(** ** The log of native calls *)

Section Logs.
Context {native : Native}.

Lemma appends_refl (P : native_call -> Prop) (s : state) : appends P s s.
Proof. exists []. now rewrite app_nil_r. Qed.

Lemma appends_trans (P : native_call -> Prop) (a b c : state) :
  appends P a b -> appends P b c -> appends P a c.
Proof.
  intros (l1 & H1 & P1) (l2 & H2 & P2). exists (l1 ++ l2)%list.
  split; [now rewrite H2, H1, app_assoc | now apply Forall_app].
Qed.

Lemma appends_same_log (P : native_call -> Prop) (s s' : state) :
  log s' = log s -> appends P s s'.
Proof. intros H. exists []. now rewrite app_nil_r. Qed.

Lemma appends_call (P : native_call -> Prop) (s : state) (w : world)
    (c : native_call) :
  P c -> appends P s (with_world s w [c]).
Proof. intros Hc. exists [c]. split; [reflexivity | now constructor]. Qed.

Ltac log_steps :=
  first [ apply appends_refl
        | apply appends_trans
        | intros; apply appends_call; assumption
        | intros; apply appends_same_log; reflexivity ].

(** X1: every operation only appends to the log of native calls, and no
    operation other than [close] calls the native [close]. *)
Theorem only_close_closes (fuel : nat) (op : operation) (s : state) :
  (exists calls, log (snd (perform fuel op s)) = (log s ++ calls)%list)
  /\ (op <> op_close ->
      exists calls,
        log (snd (perform fuel op s)) = (log s ++ calls)%list
        /\ ~ In call_close calls).
Proof.
  split.
  - destruct (@steps_perform native (appends (fun _ => True))
                (fun _ => True)) with (fuel := fuel) (op := op) (s := s)
      as (calls & Hlog & _); try log_steps; auto.
    now exists calls.
  - intros Hop.
    destruct (@steps_perform native (appends (fun c => c <> call_close))
                (fun c => c <> call_close))
      with (fuel := fuel) (op := op) (s := s)
      as (calls & Hlog & Hcalls); try log_steps.
    + intros c Hc Heq. apply Hop. now apply Hc.
    + exists calls. split; [exact Hlog |].
      intros Hin. rewrite Forall_forall in Hcalls. now apply (Hcalls _ Hin).
Qed.

Lemma settled_refl (s : state) : settled s s.
Proof. unfold settled. tauto. Qed.

Lemma settled_trans (a b c : state) :
  settled a b -> settled b c -> settled a c.
Proof.
  unfold settled.
  intros (S1 & T1 & I1 & J1 & K1 & L1) (S2 & T2 & I2 & J2 & K2 & L2).
  repeat split; try congruence; auto.
  destruct T2 as [T2 | T2]; [rewrite T2; exact T1 | now right].
Qed.

Lemma settled_same_conn (s s' : state) : conn s' = conn s -> settled s s'.
Proof. intros H. unfold settled. rewrite H. tauto. Qed.

Lemma execute_tail_quiet (operation : string)
    (parameters : option (list param)) (s : state) :
  quiet s (snd (execute_tail operation parameters s)).
Proof.
  apply (@steps_execute_tail native quiet
           (fun c => start_call c = false)).
  - intros s0. split; [apply appends_refl | apply settled_refl].
  - intros a b c [A1 S1] [A2 S2].
    split; [now apply (appends_trans A1) | now apply (settled_trans S1)].
  - intros s0 w c Hc.
    split; [now apply appends_call | now apply settled_same_conn].
  - intros s0 w.
    split; [now apply appends_same_log | now apply settled_same_conn].
  - intros s0 k.
    split; [now apply appends_same_log | now apply settled_same_conn].
  - intros s0 t _. split; [now apply appends_same_log |].
    unfold settled. simpl. tauto.
  - intros s0 k. split; [now apply appends_same_log |].
    unfold settled. simpl. tauto.
  - intros s0. split; [now apply appends_same_log |].
    unfold settled. simpl. repeat split; auto. discriminate.
  - intros c Hc. now destruct c.
Qed.

Lemma execute_without_start (operation : string)
    (parameters : option (list param)) (s : state) :
  _started (conn s) = true \/ isolation_level (conn s) = "autocommit" ->
  execute operation parameters s = execute_tail operation parameters s.
Proof.
  intros Hcase. rewrite execute_unfold. unfold bind at 1 2, get_conn.
  destruct (_started (conn s)) eqn:Hstarted; simpl; [reflexivity |].
  destruct Hcase as [Hcase | Hauto]; [discriminate |].
  unfold _start_transaction, bind at 1, get_conn. rewrite Hauto.
  reflexivity.
Qed.

Lemma start_transaction_first_call (s : state) :
  String.eqb (isolation_level (conn s)) "autocommit" = false ->
  exists rest,
    log (snd (_start_transaction s))
    = (log s
       ++ call_transaction (isolation_level (conn s)) (readonly (conn s))
                           (deferrable (conn s)) :: rest)%list.
Proof.
  intros Hiso.
  unfold _start_transaction, try_except_else, _handle_exception, bind,
    call_pure, call, raise, update_conn, get_conn, ret.
  simpl. rewrite Hiso. simpl.
  destruct (conn_transaction _ _ _ _) as [[e|t] w]; simpl.
  - destruct (isinstance e py_Exception); simpl; [|now exists []].
    destruct (is_closed w) as [[|] w']; simpl;
      rewrite <- app_assoc; eexists; reflexivity.
  - destruct (txn_start t w) as [[e|[]] w1]; simpl.
    + destruct (isinstance e py_Exception); simpl.
      * destruct (is_closed w1) as [[|] w']; simpl;
          rewrite <- !app_assoc; eexists; reflexivity.
      * rewrite <- !app_assoc; eexists; reflexivity.
    + rewrite <- !app_assoc; eexists; reflexivity.
Qed.

(** X2: [execute] opens a transaction only where one is due.  On a
    connection that has one started, or that is in autocommit, it makes no
    [transaction] and no [start] call, the started flag does not turn on,
    and the isolation level, its sticky setting, [readonly] and
    [deferrable] are as before, whether it returns or raises.  On a
    connection with none started and not in autocommit, its first call is
    [transaction], with the isolation level and the flags of the
    connection. *)
Theorem execute_starts_when_due (operation : string)
    (parameters : option (list param)) (s : state) :
  (_started (conn s) = true \/ isolation_level (conn s) = "autocommit" ->
   (exists calls,
      log (snd (execute operation parameters s)) = (log s ++ calls)%list
      /\ Forall (fun c => start_call c = false) calls)
   /\ (_started (conn (snd (execute operation parameters s))) = true ->
       _started (conn s) = true)
   /\ isolation_level (conn (snd (execute operation parameters s)))
      = isolation_level (conn s)
   /\ _isolation_setting (conn (snd (execute operation parameters s)))
      = _isolation_setting (conn s)
   /\ readonly (conn (snd (execute operation parameters s)))
      = readonly (conn s)
   /\ deferrable (conn (snd (execute operation parameters s)))
      = deferrable (conn s))
  /\ (_started (conn s) = false ->
      isolation_level (conn s) <> "autocommit" ->
      exists rest,
        log (snd (execute operation parameters s))
        = (log s
           ++ call_transaction (isolation_level (conn s))
                (readonly (conn s)) (deferrable (conn s)) :: rest)%list).
Proof.
  split.
  - intros Hcase. rewrite (execute_without_start _ _ s Hcase).
    destruct (execute_tail_quiet operation parameters s)
      as [Happ (S & _ & I & J & K & L)].
    repeat split; assumption.
  - intros Hidle Hiso.
    assert (Hneq : String.eqb (isolation_level (conn s)) "autocommit" = false)
      by now apply String.eqb_neq.
    destruct (start_transaction_first_call s Hneq) as (rest & Hlog).
    rewrite execute_unfold. unfold bind at 1 2, get_conn.
    rewrite Hidle. cbn [negb].
    destruct (_start_transaction s) as [[[]|e|] s1]; simpl in *.
    + destruct (execute_tail_quiet operation parameters s1)
        as [(calls & Hcalls & _) _].
      rewrite Hcalls, Hlog, <- app_assoc. simpl. eexists; reflexivity.
    + now exists rest.
    + now exists rest.
Qed.

(** ** The remembered invalidation timestamp *)

Lemma gt_le (t r : Q) : gt t r = true -> (r <= t)%Q.
Proof.
  unfold gt. intros H. apply negb_true_iff in H.
  apply Qlt_le_weak, Qnot_le_lt. intros Hle.
  apply Qle_bool_iff in Hle. congruence.
Qed.

(** X3: no operation moves the invalidation timestamp that a connection
    remembers backwards, whatever the driver answers and whether the
    operation returns or raises. *)
Theorem remembered_timestamp_monotone (fuel : nat) (op : operation)
    (s : state) :
  (_invalidate_schema_cache_asof (conn s)
   <= _invalidate_schema_cache_asof (conn (snd (perform fuel op s))))%Q.
Proof.
  apply (@steps_perform native
           (fun a b => (_invalidate_schema_cache_asof (conn a)
                        <= _invalidate_schema_cache_asof (conn b))%Q)
           (fun _ => True));
    try (intros; simpl; apply Qle_refl); auto.
  - intros a b c. apply Qle_trans.
  - intros s0 t Hgt. simpl. now apply gt_le.
Qed.

End Logs.

(** ** Rows of the plain cursor *)

Section Cursors.
Context {native : Native}.

Lemma state_eta (s : state) :
  {| conn := conn s; cur := cur s; the_world := the_world s; log := log s |}
  = s.
Proof. now destruct s. Qed.

Lemma cursor_eta (k : cursor) : set_rows (_rows k) k = k.
Proof. now destruct k. Qed.

(** X4: [fetchmany] of the plain cursor splits the buffered rows: the rows
    it returns followed by the rows it leaves are the rows there were, for
    every size, negative or missing; a size from 0 up returns that many
    rows or all there are.  It calls nothing and touches neither the
    connection nor the world. *)
Theorem fetchmany_splits_rows (size : option Z) (s : state) :
  exists rows,
    fst (fetchmany size s) = Return rows
    /\ (rows ++ _rows (cur (snd (fetchmany size s))))%list = _rows (cur s)
    /\ (forall n, size = Some n -> 0 <= n ->
        List.length rows
        = Nat.min (Z.to_nat n) (List.length (_rows (cur s))))
    /\ conn (snd (fetchmany size s)) = conn s
    /\ the_world (snd (fetchmany size s)) = the_world s
    /\ log (snd (fetchmany size s)) = log s.
Proof.
  unfold fetchmany, bind, get_cur, update_cur, ret. simpl.
  eexists. split; [reflexivity |].
  split; [apply firstn_skipn |].
  split; [|repeat split].
  intros n -> Hn. unfold slice_to, slice_bound.
  replace (n <? 0) with false by (symmetry; apply Z.ltb_ge; lia).
  apply length_firstn.
Qed.

(** X5: the rows of the plain cursor come out once and in order.
    [fetchone] returns the first buffered row and leaves the others, or
    [None] when there is none; [fetchall] returns them all and leaves none;
    and running the iterator to its end does what [fetchall] does. *)
Theorem rows_come_out_in_order (s : state) :
  (forall r rs,
     _rows (cur s) = r :: rs ->
     fetchone s = (Return (Some r), with_cur s (set_rows rs (cur s))))
  /\ (_rows (cur s) = [] -> fetchone s = (Return None, s))
  /\ fetchall s
     = (Return (_rows (cur s)), with_cur s (set_rows [] (cur s)))
  /\ (forall fuel,
        (List.length (_rows (cur s)) <= fuel)%nat ->
        iterate fuel s = fetchall s)
  /\ fetchone (snd (fetchall s)) = (Return None, snd (fetchall s)).
Proof.
  split; [|split; [|split; [|split]]].
  - intros r rs Hrows. unfold fetchone, bind, get_cur. now rewrite Hrows.
  - intros Hrows. unfold fetchone, bind, get_cur. now rewrite Hrows.
  - reflexivity.
  - intros fuel. unfold fetchall, bind, get_cur, update_cur, ret.
    remember (_rows (cur s)) as rows eqn:Hrows.
    revert s Hrows. revert fuel.
    induction rows as [|r rows IH]; intros fuel s Hrows Hfuel.
    + destruct fuel; simpl; unfold bind, get_cur; rewrite <- Hrows;
        unfold ret; rewrite Hrows, cursor_eta, state_eta; reflexivity.
    + destruct fuel as [|fuel]; [simpl in Hfuel; lia |].
      simpl. unfold bind at 1, get_cur. rewrite <- Hrows.
      unfold bind at 1, update_cur. unfold bind at 1.
      rewrite IH; [reflexivity | reflexivity | simpl in Hfuel; lia].
  - reflexivity.
Qed.


(** ** Rows of the server side cursor *)

(** X6: a server side [fetchmany(k)] that finds at least k rows, and at
    least one, in the buffer serves them from the buffer without a call,
    and a [fetchone] that finds a row in the buffer pops it without a call.
    A [fetchone] on a buffer with no row fetches 50 once, returns the first
    row received and buffers the others, or returns [None] if none came. *)
Theorem ss_buffer_serves (s : state) :
  (forall fuel k r buf,
     _rowbuffer (cur s) = Some (r :: buf) ->
     0 <= k <= Z.of_nat (List.length (r :: buf)) ->
     ss_fetchmany fuel (Some k) s
     = (Return (firstn (Z.to_nat k) (r :: buf)),
        with_cur s
          (set_rowbuffer (Some (skipn (Z.to_nat k) (r :: buf))) (cur s))))
  /\ (forall r buf,
        _rowbuffer (cur s) = Some (r :: buf) ->
        ss_fetchone s
        = (Return (Some r), with_cur s (set_rowbuffer (Some buf) (cur s))))
  /\ (forall h rows w,
        rowbuffer_empty (cur s) = true ->
        _cursor (cur s) = Some h ->
        stream_fetch h 50 (the_world s) = (inr rows, w) ->
        fst (ss_fetchone s) = Return (hd_error rows)
        /\ _rowbuffer (cur (snd (ss_fetchone s))) = Some (tl rows)
        /\ log (snd (ss_fetchone s))
           = (log s ++ [call_stream_fetch h 50])%list).
Proof.
  split; [|split].
  - intros fuel k r buf Hbuf Hk.
    unfold ss_fetchmany, list_rowbuffer, rowbuffer_empty, bind, get_cur,
      update_cur, ret.
    rewrite Hbuf. cbv beta iota. rewrite Hbuf. cbv beta iota.
    replace (k >? Z.of_nat (List.length (r :: buf))) with false
      by (symmetry; rewrite Z.gtb_ltb; apply Z.ltb_ge; lia).
    cbv beta iota. unfold slice_to, slice_from, slice_bound.
    replace (k <? 0) with false by (symmetry; apply Z.ltb_ge; lia).
    reflexivity.
  - intros r buf Hbuf.
    unfold ss_fetchone, rowbuffer_empty, bind, get_cur, update_cur, ret.
    rewrite Hbuf. cbv beta iota. now rewrite Hbuf.
  - intros h rows w Hempty Hh Hfetch.
    unfold ss_fetchone, _buffer_rows, cursor_fetch, bind, get_cur, call,
      update_cur, ret.
    rewrite Hempty. cbv beta iota. rewrite Hh. cbv beta iota.
    rewrite Hfetch. simpl. now destruct rows.
Qed.

(** X7: a closed server side cursor has neither stream nor buffer:
    [fetchone] and [fetchmany(k)] raise [AttributeError] and [fetchall]
    raises [TypeError], none calling the driver or changing anything. *)
Theorem ss_closed_cursor_raises (s : state) (fuel : nat) (k : Z) :
  let closed := snd (ss_close s) in
  _cursor (cur closed) = None
  /\ _rowbuffer (cur closed) = None
  /\ log closed = log s
  /\ ss_fetchone closed = (Raise (AttributeError "fetch"), closed)
  /\ ss_fetchmany fuel (Some k) closed
     = (Raise (AttributeError "fetch"), closed)
  /\ ss_fetchall fuel closed
     = (Raise (TypeError "'NoneType' object is not iterable"), closed).
Proof.
  repeat split.
Qed.

End Cursors.

(** ** Isolation level, autocommit and close *)

Section Connections.
Context {native : Native}.

Ltac run_all :=
  unfold set_isolation_level, set_autocommit, close, commit, rollback,
    clear_transaction, try_finally, try_except, try_except_else,
    _handle_exception, bind, call_pure, call, raise, update_conn, get_conn,
    ret;
  simpl.

Lemma set_isolation_level_outcome (level : string) (s : state) :
  match fst (set_isolation_level level s) with
  | Return _ =>
      isolation_level (conn (snd (set_isolation_level level s))) = level
      /\ _isolation_setting (conn (snd (set_isolation_level level s)))
         = level
      /\ _started (conn (snd (set_isolation_level level s))) = false
  | Raise _ =>
      _started (conn s) = true
      /\ isolation_level (conn (snd (set_isolation_level level s)))
         = isolation_level (conn s)
      /\ _isolation_setting (conn (snd (set_isolation_level level s)))
         = _isolation_setting (conn s)
      /\ _started (conn (snd (set_isolation_level level s))) = false
      /\ _transaction (conn (snd (set_isolation_level level s))) = None
  | OutOfFuel => False
  end.
Proof.
  run_all. destruct (_started (conn s)) eqn:Hstarted; simpl;
    rewrite ?Hstarted; simpl.
  - destruct (_transaction (conn s)) as [t|]; simpl.
    + destruct (txn_rollback t (the_world s)) as [[e|[]] w]; simpl.
      * destruct (isinstance e py_Exception); simpl;
          [destruct (is_closed w) as [[|] w']; simpl |]; repeat split.
      * repeat split.
    + destruct (is_closed (the_world s)) as [[|] w]; simpl; repeat split.
  - repeat split.
Qed.

(** X8: [set_isolation_level] on a connection with no transaction started
    only assigns the level, current and sticky, and calls nothing.  With a
    transaction started it rolls back first: if the rollback raises, the
    level and the sticky setting are left as they were while the
    transaction state is cleared; if it returns, both are the new level.
    Either way no transaction is started afterwards. *)
Theorem set_isolation_level_rolls_back (level : string) (s : state) :
  (_started (conn s) = false ->
   set_isolation_level level s
   = (Return tt, with_conn s (set_isolation level level (conn s))))
  /\ (forall e,
        fst (set_isolation_level level s) = Raise e ->
        _started (conn s) = true
        /\ isolation_level (conn (snd (set_isolation_level level s)))
           = isolation_level (conn s)
        /\ _isolation_setting (conn (snd (set_isolation_level level s)))
           = _isolation_setting (conn s)
        /\ _transaction (conn (snd (set_isolation_level level s))) = None)
  /\ (fst (set_isolation_level level s) = Return tt ->
      isolation_level (conn (snd (set_isolation_level level s))) = level
      /\ _isolation_setting (conn (snd (set_isolation_level level s)))
         = level)
  /\ _started (conn (snd (set_isolation_level level s))) = false
  /\ (forall t,
        _started (conn s) = true -> _transaction (conn s) = Some t ->
        exists rest,
          log (snd (set_isolation_level level s))
          = (log s ++ call_rollback t :: rest)%list).
Proof.
  pose proof (set_isolation_level_outcome level s) as Hout.
  split; [|split; [|split; [|split]]].
  - intros Hidle. run_all. now rewrite Hidle.
  - intros e He. rewrite He in Hout. tauto.
  - intros Hret. rewrite Hret in Hout. tauto.
  - destruct (fst (set_isolation_level level s)); tauto.
  - intros t Hopen Ht. run_all.
    rewrite Hopen. simpl. rewrite Hopen, Ht. simpl.
    destruct (txn_rollback t (the_world s)) as [[e|[]] w]; simpl.
    + destruct (isinstance e py_Exception); simpl;
        [destruct (is_closed w) as [[|] w']; simpl |];
        rewrite <- ?app_assoc; eexists; reflexivity.
    + eexists; reflexivity.
Qed.

(** X9: the autocommit setter swaps the current level and keeps the sticky
    one: switching autocommit on and off again leaves the level at the
    sticky setting, and calls nothing.  Once [set_isolation_level] has set
    the level autocommit itself, which makes it sticky, switching
    autocommit off changes nothing: the connection stays in autocommit. *)
Theorem autocommit_toggle (s : state) :
  autocommit (conn (snd (set_autocommit true s))) = true
  /\ _isolation_setting (conn (snd (set_autocommit true s)))
     = _isolation_setting (conn s)
  /\ isolation_level
       (conn (snd (set_autocommit false (snd (set_autocommit true s)))))
     = _isolation_setting (conn s)
  /\ _isolation_setting
       (conn (snd (set_autocommit false (snd (set_autocommit true s)))))
     = _isolation_setting (conn s)
  /\ log (snd (set_autocommit false (snd (set_autocommit true s)))) = log s
  /\ (fst (set_isolation_level "autocommit" s) = Return tt ->
      autocommit
        (conn (snd (set_autocommit false
                      (snd (set_isolation_level "autocommit" s)))))
      = true).
Proof.
  repeat split.
  intros Hret. pose proof (set_isolation_level_outcome "autocommit" s) as Hout.
  rewrite Hret in Hout. destruct Hout as (_ & Hsticky & _).
  unfold autocommit, set_autocommit, update_conn. simpl.
  now rewrite Hsticky.
Qed.

(** X10: [close] on a connection with no transaction started makes one
    call, the native [close].  With a transaction started it rolls back
    first, and if that rollback raises, [close] raises too and the native
    connection is not closed; the transaction state is cleared all the
    same. *)
Theorem close_rolls_back_first (s : state) :
  (_started (conn s) = false ->
   log (snd (close s)) = (log s ++ [call_close])%list
   /\ conn (snd (close s)) = conn s)
  /\ (forall t e w,
        _started (conn s) = true -> _transaction (conn s) = Some t ->
        txn_rollback t (the_world s) = (inl e, w) ->
        isinstance e py_Exception = true ->
        fst (close s) = Raise (translate e)
        /\ log (snd (close s))
           = (log s ++ [call_rollback t; call_is_closed])%list
        /\ _transaction (conn (snd (close s))) = None
        /\ _started (conn (snd (close s))) = false)
  /\ (forall t w,
        _started (conn s) = true -> _transaction (conn s) = Some t ->
        txn_rollback t (the_world s) = (inr tt, w) ->
        log (snd (close s))
        = (log s ++ [call_rollback t; call_close])%list
        /\ _transaction (conn (snd (close s))) = None
        /\ _started (conn (snd (close s))) = false).
Proof.
  split; [|split].
  - intros Hidle. run_all. rewrite Hidle. simpl.
    now destruct (conn_close (the_world s)) as [[e|[]] w].
  - intros t e w Hopen Ht Hroll Hexc. run_all.
    rewrite Hopen, Ht. simpl. rewrite Hroll. simpl. rewrite Hexc. simpl.
    destruct (is_closed w) as [[|] w']; simpl; rewrite <- app_assoc;
      repeat split.
  - intros t w Hopen Ht Hroll. run_all.
    rewrite Hopen, Ht. simpl. rewrite Hroll. simpl.
    destruct (conn_close w) as [[e|[]] w']; simpl; rewrite <- app_assoc;
      repeat split.
Qed.

(** X11: when the native connection reports itself closed while an
    exception is handled, the transaction state is cleared, so that a
    [commit], a [rollback] or a [set_isolation_level] after it calls
    nothing; when it reports itself open, the connection is left as it
    was. *)
Theorem closed_connection_clears (A : Type) (error : exn) (s : state) :
  let handled := snd (_handle_exception (A := A) error s) in
  (fst (is_closed (the_world s)) = true ->
   _transaction (conn handled) = None
   /\ _started (conn handled) = false
   /\ commit handled = (Return tt, handled)
   /\ rollback handled = (Return tt, handled)
   /\ forall level,
        log (snd (set_isolation_level level handled)) = log handled)
  /\ (fst (is_closed (the_world s)) = false -> conn handled = conn s).
Proof.
  unfold _handle_exception, commit, rollback, set_isolation_level, bind,
    call_pure, call, raise, update_conn, get_conn, ret.
  simpl. destruct (is_closed (the_world s)) as [[|] w]; simpl; split;
    try discriminate; intros _; repeat split.
Qed.

(** ** Translated exceptions *)

Lemma isinstance_generic (generic : pyclass) (c : pyclass) :
  _asyncpg_error_translate c = Some generic ->
  existsb (pyclass_eqb Error) (generic_mro generic) = true.
Proof. destruct c; simpl; intros H; inversion H; reflexivity. Qed.

Lemma translate_walk_generic (error : exn) (mro : list pyclass) :
  translate_walk error mro = error
  \/ isinstance (translate_walk error mro) Error = true.
Proof.
  induction mro as [|c mro IH]; simpl; [now left |].
  destruct (_asyncpg_error_translate c) as [generic|] eqn:Hc; [|exact IH].
  right. unfold isinstance. simpl. rewrite new_exception_mro.
  exact (isinstance_generic c Hc).
Qed.

(** X12: translating is done once.  An instance of the generic [Error] is
    raised as it is; any other exception is either raised as it is or
    turned into an instance of [Error]; so translating a translated
    exception changes nothing: an exception handled twice is not wrapped
    twice. *)
Theorem translate_once (error : exn) :
  (isinstance error Error = true -> translate error = error)
  /\ (translate error = error \/ isinstance (translate error) Error = true)
  /\ translate (translate error) = translate error.
Proof.
  assert (H1 : isinstance error Error = true -> translate error = error)
    by (intros H; unfold translate; now rewrite H).
  assert (H2 : translate error = error
               \/ isinstance (translate error) Error = true).
  { unfold translate. destruct (isinstance error Error) eqn:Hg; simpl.
    - now left.
    - apply translate_walk_generic. }
  split; [exact H1 | split; [exact H2 |]].
  destruct H2 as [H2 | H2].
  - now rewrite H2.
  - unfold translate at 1. now rewrite H2.
Qed.

(** ** Edges of [executemany] *)

(** X13: [executemany] on a server side cursor raises
    [NotImplementedError] at once and changes nothing.  On a plain cursor
    its schema check runs before the [try]: a reload that raises is raised
    as the native exception it is and the connection is not asked whether
    it is closed, where [execute] on a started connection raises the
    translation after asking.  And with no parameter tuples at all it
    raises [IndexError] only after it has started the transaction. *)
Theorem executemany_edges (operation : string) (s : state) :
  (forall seq,
     server_side (cur s) = true ->
     executemany operation seq s
     = (Raise (NotImplementedError
                 "server side cursor doesn't support executemany yet"), s))
  /\ (forall seq e w,
        server_side (cur s) = false ->
        gt (cursor_invalidate_schema_cache_asof (cur s))
           (_invalidate_schema_cache_asof (conn s)) = true ->
        reload_schema_state (the_world s) = (inl e, w) ->
        executemany operation seq s
        = (Raise e, with_world s w [call_reload_schema_state])
        /\ (_started (conn s) = true ->
            isinstance e py_Exception = true ->
            fst (execute operation None s) = Raise (translate e)
            /\ log (snd (execute operation None s))
               = (log s ++ [call_reload_schema_state; call_is_closed])%list))
  /\ (forall t w1 w2,
        server_side (cur s) = false ->
        gt (cursor_invalidate_schema_cache_asof (cur s))
           (_invalidate_schema_cache_asof (conn s)) = false ->
        _started (conn s) = false ->
        String.eqb (isolation_level (conn s)) "autocommit" = false ->
        conn_transaction (isolation_level (conn s)) (readonly (conn s))
          (deferrable (conn s)) (the_world s) = (inr t, w1) ->
        txn_start t w1 = (inr tt, w2) ->
        fst (executemany operation [] s) = Raise IndexError
        /\ _started (conn (snd (executemany operation [] s))) = true
        /\ _transaction (conn (snd (executemany operation [] s))) = Some t
        /\ log (snd (executemany operation [] s))
           = (log s
              ++ [call_transaction (isolation_level (conn s))
                    (readonly (conn s)) (deferrable (conn s));
                  call_start t])%list).
Proof.
  split; [|split].
  - intros seq Hss. unfold executemany, bind, get_cur. now rewrite Hss.
  - intros seq e w Hplain Hgt Hreload. split.
    + unfold executemany, _executemany, _check_type_cache_invalidation,
        bind, get_cur, get_conn, call.
      rewrite Hplain. cbv beta iota. rewrite Hgt. cbv beta iota.
      now rewrite Hreload.
    + intros Hstarted Hexc.
      rewrite (execute_without_start _ _ s (or_introl Hstarted)).
      unfold execute_tail, execute_body, _prepare,
        _check_type_cache_invalidation, try_except, _handle_exception,
        bind, get_cur, get_conn, call_pure, call, raise, ret.
      simpl. rewrite Hgt. simpl. rewrite Hreload. simpl. rewrite Hexc.
      simpl. destruct (is_closed w) as [[|] w']; simpl;
        rewrite <- app_assoc; split; reflexivity.
  - intros t w1 w2 Hplain Hgt Hidle Hiso Htxn Hstart.
    unfold executemany, _executemany, _check_type_cache_invalidation,
      _start_transaction, try_except_else, bind, get_cur, get_conn, call,
      update_conn, raise, ret.
    simpl. rewrite Hplain. simpl. rewrite Hgt. simpl. rewrite Hidle. simpl.
    rewrite Hiso. simpl. rewrite Htxn. simpl. rewrite Hstart. simpl.
    rewrite <- app_assoc. repeat split.
Qed.

(** ** The cache over two calls *)


End Connections.

(** ** The dialect *)

Lemma replace_underscores_idempotent (s : string) :
  replace_underscores (replace_underscores s) = replace_underscores s.
Proof.
  induction s as [|c s IH]; simpl; [reflexivity |].
  rewrite IH. f_equal.
  destruct (Ascii.eqb c "_") eqn:Hc; [reflexivity | now rewrite Hc].
Qed.

Lemma isolation_lookup_names (key : string) :
  match _isolation_lookup key with
  | Some found =>
      In key isolation_names
      /\ In found
           ["autocommit"; "read_committed"; "repeatable_read"; "serializable"]
  | None => ~ In key isolation_names
  end.
Proof.
  unfold _isolation_lookup, isolation_names.
  destruct (String.eqb key "AUTOCOMMIT") eqn:H1;
    [apply String.eqb_eq in H1; subst; simpl; tauto |].
  destruct (String.eqb key "READ COMMITTED") eqn:H2;
    [apply String.eqb_eq in H2; subst; simpl; tauto |].
  destruct (String.eqb key "REPEATABLE READ") eqn:H3;
    [apply String.eqb_eq in H3; subst; simpl; tauto |].
  destruct (String.eqb key "SERIALIZABLE") eqn:H4;
    [apply String.eqb_eq in H4; subst; simpl; tauto |].
  apply String.eqb_neq in H1, H2, H3, H4.
  simpl. intros [H | [H | [H | [H | []]]]]; congruence.
Qed.

Section Dialects.
Context {native : Native}.

(** X15: the dialect accepts an isolation level exactly when its name,
    with underscores read as spaces, is one of AUTOCOMMIT, READ COMMITTED,
    REPEATABLE READ and SERIALIZABLE, in capitals.  An accepted name sets
    one of the four levels of the connection, and so does its spelling
    with spaces; a name not accepted raises [ArgumentError] and leaves
    the connection untouched: no rollback, no call. *)
Theorem dialect_isolation_level_checked (d : dialect) (level : string)
    (s : state) :
  (In (replace_underscores level) isolation_names ->
   exists found,
     In found
        ["autocommit"; "read_committed"; "repeatable_read"; "serializable"]
     /\ dialect_set_isolation_level d level s = set_isolation_level found s
     /\ dialect_set_isolation_level d (replace_underscores level) s
        = set_isolation_level found s)
  /\ (~ In (replace_underscores level) isolation_names ->
      exists e,
        dialect_set_isolation_level d level s = (Raise e, s)
        /\ exn_type e = other_class "sqlalchemy.exc.ArgumentError"
        /\ isinstance e Error = false).
Proof.
  pose proof (isolation_lookup_names (replace_underscores level)) as Hnames.
  unfold dialect_set_isolation_level.
  rewrite replace_underscores_idempotent.
  destruct (_isolation_lookup (replace_underscores level)) as [found|].
  - split; [|tauto]. intros _. exists found. tauto.
  - split; [tauto |]. intros _. eexists. repeat split.
Qed.

Lemma contains_app_r (sub p s : string) :
  contains sub s = true -> contains sub (p ++ s) = true.
Proof.
  intros Hs. induction p as [|c p IH]; simpl; [exact Hs |].
  rewrite IH. apply orb_true_r.
Qed.

Lemma contains_app_l (sub s q : string) :
  contains sub s = true -> contains sub (s ++ q) = true.
Proof.
  assert (Hprefix : forall a b, prefix a b = true -> prefix a (b ++ q) = true).
  { induction a as [|x a IHa]; intros b Hb;
      [now destruct (b ++ q) |].
    destruct b as [|y b]; simpl in *; [discriminate |].
    destruct (ascii_dec x y); [now apply IHa | discriminate]. }
  induction s as [|c s IH]; simpl.
  - intros H. destruct sub; [now destruct q | discriminate].
  - intros H. apply orb_true_iff in H. apply orb_true_iff.
    destruct H as [H | H]; [left | right; now apply IH].
    now apply (Hprefix sub (String c s)).
Qed.

(** The message of a translated exception holds the native message. *)
Lemma translate_keeps_message (error : exn) (sub : string) :
  contains sub (exn_message error) = true ->
  contains sub (exn_message (translate error)) = true.
Proof.
  intros Hsub. unfold translate.
  destruct (negb (isinstance error Error)); [|exact Hsub].
  induction (exn_mro error) as [|c mro IH]; simpl; [exact Hsub |].
  destruct (_asyncpg_error_translate c) as [generic|]; [|exact IH].
  simpl.
  assert (Hmsg : contains sub
                   (class_repr (exn_type error) ++ ": " ++ exn_message error)
                 = true)
    by (apply contains_app_r; now apply (contains_app_r sub ": ")).
  destruct generic; simpl; try exact Hmsg.
  now apply contains_app_l.
Qed.

Lemma translate_first_mapped (error : exn) (generic : pyclass) :
  isinstance error Error = false ->
  first_mapped (exn_mro error) = Some generic ->
  exn_mro (translate error) = generic_mro generic.
Proof.
  intros Hnative Hfirst. unfold translate. rewrite Hnative. simpl.
  pose proof (translate_walk_spec error (exn_mro error)) as Hwalk.
  rewrite Hfirst in Hwalk. now rewrite Hwalk.
Qed.

(** X16: [is_disconnect] with a connection at hand asks the native
    connection whether it is closed, and nothing else counts.  Without one
    it goes by the exception: a native exception whose first mapped class
    is asyncpg's [InterfaceError] and whose message holds the words
    connection is closed is a disconnect once translated, the translation
    keeping the native message; one mapped to any other generic class is
    not, whatever its message. *)
Theorem disconnect_detection (e : exn) (s : state) :
  is_disconnect e true s
  = (Return (fst (is_closed (the_world s))),
     with_world s (snd (is_closed (the_world s))) [call_is_closed])
  /\ (forall generic,
        isinstance e Error = false ->
        first_mapped (exn_mro e) = Some generic ->
        (generic = InterfaceError ->
         contains "connection is closed" (exn_message e) = true ->
         is_disconnect (translate e) false s = (Return true, s))
        /\ (generic <> InterfaceError ->
            is_disconnect (translate e) false s = (Return false, s))).
Proof.
  split.
  - unfold is_disconnect, call_pure, call.
    now destruct (is_closed (the_world s)).
  - intros generic Hnative Hfirst.
    pose proof (translate_first_mapped e Hnative Hfirst) as Hmro.
    unfold is_disconnect, ret, isinstance. rewrite Hmro.
    split.
    + intros -> Hmsg. simpl.
      now rewrite (translate_keeps_message e _ Hmsg).
    + intros Hother.
      assert (Hmapped : exists c, _asyncpg_error_translate c = Some generic).
      { apply first_mapped_split in Hfirst.
        destruct Hfirst as (_ & c & _ & _ & _ & Hc). now exists c. }
      destruct Hmapped as (c & Hc).
      destruct c; simpl in Hc; inversion Hc; subst; try reflexivity.
      now contradiction Hother.
Qed.

(** ** Invalidation of the schema caches *)

(** X17: a native exception that translates to
    [InvalidCachedStatementError] or to [InternalServerError] makes the
    execution context stamp the dialect with the time of the clock; one
    that translates to any other generic class leaves the dialect as it
    is.  Neither calls the driver. *)
Theorem stale_cache_errors_invalidate (e : exn) (d : dialect) (s : state) :
  forall generic,
    isinstance e Error = false ->
    first_mapped (exn_mro e) = Some generic ->
    (generic = InvalidCachedStatementError \/ generic = InternalServerError ->
     fst (handle_dbapi_exception (translate e) d s)
     = Return (stamped d (fst (time_time (the_world s))))
     /\ log (snd (handle_dbapi_exception (translate e) d s)) = log s)
    /\ (generic <> InvalidCachedStatementError ->
        generic <> InternalServerError ->
        handle_dbapi_exception (translate e) d s = (Return d, s)).
Proof.
  intros generic Hnative Hfirst.
  pose proof (translate_first_mapped e Hnative Hfirst) as Hmro.
  unfold handle_dbapi_exception, isinstance. rewrite Hmro.
  split.
  - intros [-> | ->]; simpl;
      unfold _invalidate_schema_cache, bind, now, ret;
      destruct (time_time (the_world s)); split; reflexivity.
  - intros H1 H2.
    assert (Hmapped : exists c, _asyncpg_error_translate c = Some generic).
    { apply first_mapped_split in Hfirst.
      destruct Hfirst as (_ & c & _ & _ & _ & Hc). now exists c. }
    destruct Hmapped as (c & Hc).
    destruct c; simpl in Hc; inversion Hc; subst; try reflexivity;
      congruence.
Qed.

Lemma execute_log_after_prepare (operation : string) (s : state) :
  exists calls,
    log (snd (execute_tail operation None s))
    = (log (snd (_prepare operation
                   (cursor_invalidate_schema_cache_asof (cur s)) s))
       ++ calls)%list.
Proof.
  destruct (@steps_execute_after_prepare native
              (appends (fun _ => True)) (fun _ => True))
    with (operation := operation) (s := s) as (calls & Hcalls & _);
    try (intros;
         first [ apply appends_refl
               | eapply appends_trans; eassumption
               | apply appends_call; exact I
               | apply appends_same_log; reflexivity ]);
    auto.
  now exists calls.
Qed.

Lemma pre_exec_ddl (compiled : bool) (d : dialect) (s : state) :
  pre_exec true compiled d s
  = (Return (stamped d (fst (time_time (the_world s))),
             if compiled then Some [ENUM] else None),
     {| conn := conn s;
        cur := set_cursor_asof (fst (time_time (the_world s))) (cur s);
        the_world := snd (time_time (the_world s));
        log := log s |}).
Proof.
  unfold pre_exec, _invalidate_schema_cache, bind, now, update_cur, ret.
  destruct (time_time (the_world s)) as [t w]. now destruct compiled.
Qed.

(** X18: [pre_exec] hands the timestamp of the dialect to the cursor, and
    for a DDL statement stamps the dialect with the time of the clock
    first; it excludes [ENUM] from the input sizes of a compiled statement.
    The [execute] that follows on a started connection that remembers an
    older timestamp reloads the schema state before anything else. *)
Theorem ddl_invalidation_reaches_connection (compiled : bool) (d : dialect)
    (operation : string) (s : state) :
  let t := fst (time_time (the_world s)) in
  fst (pre_exec true compiled d s)
  = Return (stamped d t, if compiled then Some [ENUM] else None)
  /\ cursor_invalidate_schema_cache_asof
       (cur (snd (pre_exec true compiled d s))) = t
  /\ pre_exec false compiled d s
     = (Return (d, if compiled then Some [ENUM] else None),
        with_cur s
          (set_cursor_asof (dialect_invalidate_schema_cache_asof d) (cur s)))
  /\ conn (snd (pre_exec true compiled d s)) = conn s
  /\ log (snd (pre_exec true compiled d s)) = log s
  /\ (_started (conn s) = true ->
      gt t (_invalidate_schema_cache_asof (conn s)) = true ->
      exists rest,
        log (snd (execute operation None (snd (pre_exec true compiled d s))))
        = (log s ++ call_reload_schema_state :: rest)%list).
Proof.
  intros t. rewrite pre_exec_ddl. fold t. simpl.
  split; [reflexivity | split; [reflexivity | split]].
  - unfold pre_exec, bind, update_cur, ret. now destruct compiled.
  - split; [reflexivity | split; [reflexivity |]].
    intros Hstarted Hnewer.
    set (ready := {| conn := conn s; cur := set_cursor_asof t (cur s);
                     the_world := snd (time_time (the_world s));
                     log := log s |}).
    rewrite (execute_without_start operation None ready
               (or_introl Hstarted)).
    destruct (execute_log_after_prepare operation ready) as (calls & Hcalls).
    destruct (@prepare_log_reload native operation t ready Hnewer)
      as (rest & Hrest).
    rewrite Hcalls. simpl cursor_invalidate_schema_cache_asof.
    rewrite Hrest, <- app_assoc. simpl. eexists; reflexivity.
Qed.

End Dialects.

(** ** The JSON codec and the type tags *)

(** X19: the JSON decoder reads back what [str.encode] wrote: decoding
    the UTF-8 bytes of a text hands that text to the deserializer.  The
    JSONB decoder is the JSON decoder on what follows the first byte,
    whichever byte that is; on an empty payload it deserializes the empty
    text; and given a JSON payload, which has no prefix, it loses the
    first character when that is an ASCII one. *)
Theorem json_codec_round_trip (value : Type)
    (deserializer : pystr -> exn + value) (s : pystr) :
  (forallb is_scalar s = true ->
   exists payload,
     str_encode s = inr payload
     /\ _json_decoder deserializer payload = deserializer s
     /\ forall c, 0 <= c < 128 ->
          exists prefixed,
            str_encode (c :: s) = inr prefixed
            /\ _jsonb_decoder deserializer prefixed = deserializer s)
  /\ (forall b payload,
        _jsonb_decoder deserializer (b :: payload)
        = _json_decoder deserializer payload)
  /\ _jsonb_decoder deserializer [] = deserializer [].
Proof.
  split; [|split; reflexivity].
  intros Hscalar. destruct (str_encode_scalar s Hscalar) as (payload & Henc).
  assert (Hdec : bytes_decode payload = inr s)
    by (apply decode_loop_encode; [assumption | apply Nat.le_refl]).
  exists payload. split; [exact Henc | split].
  - unfold _json_decoder. now rewrite Hdec.
  - intros c Hc. exists (c :: payload). split.
    + simpl. unfold encode_char, is_scalar.
      replace (0 <=? c) with true by (symmetry; apply Z.leb_le; lia).
      replace (c <=? 1114111) with true by (symmetry; apply Z.leb_le; lia).
      replace (55296 <=? c) with false by (symmetry; apply Z.leb_gt; lia).
      replace (c <? 128) with true by (symmetry; apply Z.ltb_lt; lia).
      simpl. now rewrite Henc.
    + unfold _jsonb_decoder. simpl skipn. now rewrite Hdec.
Qed.

Lemma append_cancel_l (x a b : string) : (x ++ a = x ++ b)%string -> a = b.
Proof.
  induction x as [|c x IH]; simpl; intros H; [exact H |].
  apply IH. congruence.
Qed.

(** X20: every type tag has a cast name in [_pg_types], not empty, and
    no two tags share one: where input sizes declare tags only, every
    placeholder carries a cast, and the placeholders that two different
    tags give at one position differ. *)
Theorem every_tag_casts (P : Type) (params : list P) :
  (forall a b, _pg_types (Some a) = _pg_types (Some b) -> a = b)
  /\ (forall tags i tag,
        nth_error tags i = Some tag ->
        exists name,
          _pg_types (Some tag) = Some name
          /\ name <> ""
          /\ nth_error
               (_parameter_placeholders (Some (map Some tags)) params) i
             = Some ("$" ++ fmt_d (Z.of_nat i + 1) ++ "::" ++ name))
  /\ (forall tags tags' i a b,
        nth_error tags i = Some a ->
        nth_error tags' i = Some b ->
        a <> b ->
        nth_error (_parameter_placeholders (Some (map Some tags)) params) i
        <> nth_error
             (_parameter_placeholders (Some (map Some tags')) params) i).
Proof.
  assert (Hinj : forall a b, _pg_types (Some a) = _pg_types (Some b) -> a = b)
    by (intros a b; destruct a, b; simpl; intros H; try reflexivity;
        discriminate).
  assert (Hcast : forall tags i tag,
             nth_error tags i = Some tag ->
             exists name,
               _pg_types (Some tag) = Some name
               /\ name <> ""
               /\ nth_error
                    (_parameter_placeholders (Some (map Some tags)) params) i
                  = Some ("$" ++ fmt_d (Z.of_nat i + 1) ++ "::" ++ name)).
  { intros tags i tag Hi.
    assert (Hname : exists name,
               _pg_types (Some tag) = Some name /\ name <> "")
      by (destruct tag; simpl; eexists; split; try reflexivity;
          discriminate).
    destruct Hname as (name & Hname & Hne). exists name.
    split; [exact Hname | split; [exact Hne |]].
    assert (Hdeclared : truthy_tuple (Some (map Some tags)) = true)
      by (destruct tags; [now destruct i | reflexivity]).
    unfold _parameter_placeholders. rewrite Hdeclared. simpl negb. cbv iota.
    rewrite nth_error_map.
    rewrite (enumerate_nth _ 1 i (x := Some name)).
    + cbv beta iota delta [option_map].
      rewrite (_pg_types_truthy _ Hname). simpl fmt_s.
      now rewrite (Z.add_comm 1).
    + rewrite !nth_error_map, Hi. simpl option_map. now rewrite <- Hname. }
  split; [exact Hinj | split; [exact Hcast |]].
  intros tags tags' i a b Ha Hb Hab Heq.
  destruct (Hcast tags i a Ha) as (na & Hna & _ & Hpa).
  destruct (Hcast tags' i b Hb) as (nb & Hnb & _ & Hpb).
  rewrite Hpa, Hpb in Heq. apply Hab, Hinj. rewrite Hna, Hnb. f_equal.
  injection Heq as Heq.
  apply (append_cancel_l "::"), (append_cancel_l (fmt_d (Z.of_nat i + 1))).
  exact Heq.
Qed.

(** ** What [executemany] and transaction control leave alone *)

Section Batches.
Context {native : Native}.

(** X21: [executemany] goes past the prepared statement cache and reports
    nothing on the cursor: whatever the driver answers, and whether it
    returns or raises, the cache of the connection and the cursor, with
    the rows, the description and the row count of an earlier [execute],
    are as before.  [commit], [rollback] and [set_isolation_level] leave
    them alone too, so rows fetched by a statement outlive the end of its
    transaction. *)
Theorem executemany_leaves_cursor (operation : string)
    (seq : list (list param)) (level : string) (s : state) :
  let same (s' : state) :=
    cur s' = cur s
    /\ _prepared_statement_cache (conn s')
       = _prepared_statement_cache (conn s) in
  same (snd (executemany operation seq s))
  /\ same (snd (commit s))
  /\ same (snd (rollback s))
  /\ same (snd (set_isolation_level level s)).
Proof.
  set (R := fun a b : state =>
              cur b = cur a
              /\ _prepared_statement_cache (conn b)
                 = _prepared_statement_cache (conn a)).
  assert (R_refl : forall a, R a a) by (intros a; split; reflexivity).
  assert (R_trans : forall a b c, R a b -> R b c -> R a c)
    by (intros a b c [C1 P1] [C2 P2]; split; congruence).
  assert (R_call : forall a w c, True -> R a (with_world a w [c]))
    by (intros; split; reflexivity).
  intros same.
  split; [|split; [|split]].
  - apply (@steps_executemany native R (fun _ => True)); auto;
      intros; split; reflexivity.
  - apply (@steps_commit native R (fun _ => True)); auto;
      intros; split; reflexivity.
  - apply (@steps_rollback native R (fun _ => True)); auto;
      intros; split; reflexivity.
  - apply (@steps_set_isolation_level native R (fun _ => True)); auto;
      intros; split; reflexivity.
Qed.

End Batches.

(** ** Runs of the further properties on the scripted driver *)

Lemma fetchmany_splits_rows_witness :
  fst (fetchmany (Some 2) busy) = Return [1; 2]
  /\ List.length (_rows (cur (snd (fetchmany (Some 2) busy)))) = 118%nat.
Proof.
  destruct (@fetchmany_splits_rows scripted (Some 2) busy)
    as (rows & Hrows & Hsplit & Hlen & _).
  specialize (Hlen 2 eq_refl ltac:(lia)).
  split; [reflexivity |].
  apply (f_equal (@List.length Z)) in Hsplit.
  rewrite length_app, Hlen in Hsplit.
  vm_compute in Hsplit |- *. lia.
Defined.

Lemma rows_come_out_in_order_witness :
  fst (fetchone busy) = Return (Some 1)
  /\ fetchone idle = (Return None, idle)
  /\ iterate 120 busy = fetchall busy.
Proof.
  destruct (@rows_come_out_in_order scripted busy) as (Hfirst & _ & _ & Hiter & _).
  destruct (@rows_come_out_in_order scripted idle) as (_ & Hnone & _).
  split; [|split].
  - now rewrite (Hfirst 1 (map Z.of_nat (seq 2 119)) eq_refl).
  - now apply Hnone.
  - apply Hiter. vm_compute. lia.
Defined.

Lemma translate_once_witness :
  translate (translate connection_lost) = translate connection_lost
  /\ translate (new_exception IntegrityError "duplicate key")
     = new_exception IntegrityError "duplicate key".
Proof.
  split.
  - now apply translate_once.
  - now apply translate_once.
Defined.

Lemma only_close_closes_witness :
  exists calls,
    log (snd (perform 2 op_commit busy)) = (log busy ++ calls)%list
    /\ ~ In call_close calls.
Proof.
  apply (proj2 (@only_close_closes scripted 2 op_commit busy)).
  discriminate.
Defined.

Lemma execute_starts_when_due_witness :
  (_started (conn (snd (execute "SELECT 2" None busy))) = true ->
   _started (conn busy) = true)
  /\ isolation_level (conn (snd (execute "SELECT 2" None busy)))
     = "read_committed"
  /\ exists rest,
       log (snd (execute "SELECT 2" None idle))
       = (log idle
          ++ call_transaction "read_committed" false false :: rest)%list.
Proof.
  destruct (@execute_starts_when_due scripted "SELECT 2" None busy)
    as (Hstarted & _).
  destruct (@execute_starts_when_due scripted "SELECT 2" None idle)
    as (_ & Hidle).
  destruct (Hstarted (or_introl eq_refl)) as (_ & Hflag & Hlevel & _).
  split; [exact Hflag | split; [exact Hlevel |]].
  apply Hidle; [reflexivity | discriminate].
Defined.

Lemma ss_buffer_serves_witness :
  fst (ss_fetchmany 2 (Some 2) buffered) = Return [49; 50]
  /\ log (snd (ss_fetchmany 2 (Some 2) buffered)) = log buffered
  /\ fst (ss_fetchone buffered) = Return (Some 49)
  /\ fst (ss_fetchone streaming) = Return (Some 1)
  /\ log (snd (ss_fetchone streaming))
     = (log streaming ++ [call_stream_fetch tt 50])%list.
Proof.
  destruct (@ss_buffer_serves scripted buffered) as (Hmany & Hone & _).
  destruct (@ss_buffer_serves scripted streaming) as (_ & _ & Hrefill).
  rewrite (Hmany 2%nat 2 49 [50] eq_refl ltac:(simpl; lia)).
  rewrite (Hone 49 [50] eq_refl).
  destruct (Hrefill tt (firstn 50 (pending (the_world streaming)))
              (take_rows 50 (the_world streaming)) eq_refl eq_refl eq_refl)
    as (Hfirst & _ & Hlog).
  split; [reflexivity | split; [reflexivity | split; [reflexivity |]]].
  split; [exact Hfirst | exact Hlog].
Defined.

Lemma set_isolation_level_rolls_back_witness :
  set_isolation_level "serializable" idle
  = (Return tt, with_conn idle (set_isolation "serializable" "serializable"
                                  (conn idle)))
  /\ isolation_level
       (conn (snd (set_isolation_level "serializable" busy_end_fails)))
     = "read_committed"
  /\ isolation_level (conn (snd (set_isolation_level "serializable" busy)))
     = "serializable"
  /\ exists rest,
       log (snd (set_isolation_level "serializable" busy))
       = (log busy ++ call_rollback tt :: rest)%list.
Proof.
  destruct (@set_isolation_level_rolls_back scripted "serializable" idle)
    as (Hidle & _).
  destruct (@set_isolation_level_rolls_back scripted "serializable"
              busy_end_fails) as (_ & Hraised & _).
  destruct (@set_isolation_level_rolls_back scripted "serializable" busy)
    as (_ & _ & Hreturned & _ & Hlog).
  split; [now apply Hidle | split; [|split]].
  - destruct (Hraised _ eq_refl) as (_ & Hlevel & _). exact Hlevel.
  - now destruct (Hreturned eq_refl).
  - exact (Hlog tt eq_refl eq_refl).
Defined.

Lemma autocommit_toggle_witness :
  isolation_level
    (conn (snd (set_autocommit false (snd (set_autocommit true busy)))))
  = "read_committed"
  /\ autocommit
       (conn (snd (set_autocommit false
                     (snd (set_isolation_level "autocommit" idle)))))
     = true.
Proof.
  destruct (@autocommit_toggle scripted busy) as (_ & _ & Hback & _).
  destruct (@autocommit_toggle scripted idle) as (_ & _ & _ & _ & _ & Hsticky).
  split; [exact Hback | exact (Hsticky eq_refl)].
Defined.

Lemma close_rolls_back_first_witness :
  log (snd (close idle)) = (log idle ++ [call_close])%list
  /\ fst (close busy_end_fails) = Raise (translate connection_lost)
  /\ log (snd (close busy_end_fails))
     = (log busy_end_fails ++ [call_rollback tt; call_is_closed])%list
  /\ log (snd (close busy)) = (log busy ++ [call_rollback tt; call_close])%list.
Proof.
  destruct (@close_rolls_back_first scripted idle) as (Hidle & _).
  destruct (@close_rolls_back_first scripted busy_end_fails)
    as (_ & Hfails & _).
  destruct (@close_rolls_back_first scripted busy) as (_ & _ & Hbusy).
  destruct (Hidle eq_refl) as (Hlog & _).
  destruct (Hfails tt connection_lost (the_world busy_end_fails)
              eq_refl eq_refl eq_refl eq_refl) as (Hraise & Hlog' & _).
  destruct (Hbusy tt (the_world busy) eq_refl eq_refl eq_refl)
    as (Hlog'' & _).
  repeat split; assumption.
Defined.

Lemma closed_connection_clears_witness :
  _started (conn (snd (_handle_exception (A := unit) connection_lost dropped)))
  = false
  /\ (forall level,
        log (snd (set_isolation_level level
                    (snd (_handle_exception (A := unit) connection_lost
                            dropped))))
        = log (snd (_handle_exception (A := unit) connection_lost dropped)))
  /\ conn (snd (_handle_exception (A := unit) connection_lost busy))
     = conn busy.
Proof.
  destruct (@closed_connection_clears scripted unit connection_lost dropped)
    as (Hclosed & _).
  destruct (@closed_connection_clears scripted unit connection_lost busy)
    as (_ & Hopen).
  destruct (Hclosed eq_refl) as (_ & Hoff & _ & _ & Hquiet).
  split; [exact Hoff | split; [exact Hquiet | exact (Hopen eq_refl)]].
Defined.

Lemma executemany_edges_witness :
  fst (executemany "INSERT INTO t VALUES ($1)" [[1]; [2]] streaming)
  = Raise (NotImplementedError
             "server side cursor doesn't support executemany yet")
  /\ fst (executemany "INSERT INTO t VALUES ($1)" [[1]; [2]]
            stale_reload_down)
     = Raise connection_lost
  /\ fst (executemany "INSERT INTO t VALUES ($1)" [] idle) = Raise IndexError
  /\ _started (conn (snd (executemany "INSERT INTO t VALUES ($1)" [] idle)))
     = true.
Proof.
  destruct (@executemany_edges scripted "INSERT INTO t VALUES ($1)" streaming)
    as (Hss & _).
  destruct (@executemany_edges scripted "INSERT INTO t VALUES ($1)"
              stale_reload_down) as (_ & Hreload & _).
  destruct (@executemany_edges scripted "INSERT INTO t VALUES ($1)" idle)
    as (_ & _ & Hempty).
  rewrite (Hss [[1]; [2]] eq_refl).
  destruct (Hreload [[1]; [2]] connection_lost (the_world stale_reload_down)
              eq_refl eq_refl eq_refl) as (Hraised & _).
  rewrite Hraised.
  destruct (Hempty tt (the_world idle) (the_world idle)
              eq_refl eq_refl eq_refl eq_refl eq_refl eq_refl)
    as (Hindex & Hstarted & _).
  split; [reflexivity | split; [reflexivity | split; assumption]].
Defined.


Lemma dialect_isolation_level_checked_witness :
  dialect_set_isolation_level postgresql "REPEATABLE_READ" busy
  = set_isolation_level "repeatable_read" busy
  /\ exists e,
       dialect_set_isolation_level postgresql "repeatable read" busy
       = (Raise e, busy)
       /\ isinstance e Error = false.
Proof.
  destruct (@dialect_isolation_level_checked scripted postgresql
              "REPEATABLE_READ" busy) as (Hknown & _).
  destruct (@dialect_isolation_level_checked scripted postgresql
              "repeatable read" busy) as (_ & Hunknown).
  split.
  - destruct Hknown as (found & Hfound & Hset & _);
      [simpl; tauto |].
    rewrite Hset. vm_compute in Hset.
    simpl in Hfound.
    destruct Hfound as [<- | [<- | [<- | [<- | []]]]];
      try (vm_compute in Hset; discriminate); reflexivity.
  - destruct Hunknown as (e & Hraise & _ & Hnot);
      [simpl; intuition discriminate |].
    exists e. split; assumption.
Defined.

Lemma disconnect_detection_witness :
  fst (is_disconnect connection_lost true dropped) = Return true
  /\ is_disconnect (translate connection_is_closed) false busy
     = (Return true, busy)
  /\ is_disconnect (translate connection_lost) false busy
     = (Return false, busy).
Proof.
  destruct (@disconnect_detection scripted connection_lost dropped)
    as (Hasked & _).
  destruct (@disconnect_detection scripted connection_is_closed busy)
    as (_ & Hclosed).
  destruct (@disconnect_detection scripted connection_lost busy)
    as (_ & Hlost).
  split; [now rewrite Hasked | split].
  - destruct (Hclosed InterfaceError eq_refl eq_refl) as (Hyes & _).
    exact (Hyes eq_refl eq_refl).
  - destruct (Hlost Error eq_refl eq_refl) as (_ & Hno).
    apply Hno. discriminate.
Defined.

Lemma stale_cache_errors_invalidate_witness :
  fst (handle_dbapi_exception (translate plan_invalid) postgresql busy)
  = Return (stamped postgresql 102%Q)
  /\ handle_dbapi_exception (translate connection_lost) postgresql busy
     = (Return postgresql, busy).
Proof.
  destruct (@stale_cache_errors_invalidate scripted plan_invalid postgresql
              busy InvalidCachedStatementError eq_refl eq_refl)
    as (Hstale & _).
  destruct (@stale_cache_errors_invalidate scripted connection_lost
              postgresql busy Error eq_refl eq_refl) as (_ & Hother).
  split.
  - now destruct (Hstale (or_introl eq_refl)).
  - apply Hother; discriminate.
Defined.

Lemma ddl_invalidation_reaches_connection_witness :
  cursor_invalidate_schema_cache_asof
    (cur (snd (pre_exec true true postgresql busy))) = 102%Q
  /\ exists rest,
       log (snd (execute "SELECT 1" None
                   (snd (pre_exec true true postgresql busy))))
       = (log busy ++ call_reload_schema_state :: rest)%list.
Proof.
  destruct (@ddl_invalidation_reaches_connection scripted true postgresql
              "SELECT 1" busy) as (_ & Hstamp & _ & _ & _ & Hreload).
  split; [exact Hstamp | exact (Hreload eq_refl eq_refl)].
Defined.

Lemma json_codec_round_trip_witness :
  exists payload,
    str_encode json_a_1 = inr payload
    /\ _json_decoder (fun text => inr (List.length text)) payload = inr 7%nat
    /\ exists prefixed,
         str_encode (1 :: json_a_1) = inr prefixed
         /\ _jsonb_decoder (fun text => inr (List.length text)) prefixed
            = inr 7%nat.
Proof.
  destruct (@json_codec_round_trip nat (fun text => inr (List.length text))
              json_a_1) as (Hround & _).
  destruct (Hround eq_refl) as (payload & Henc & Hdec & Hprefixed).
  exists payload. split; [exact Henc | split; [exact Hdec |]].
  apply Hprefixed. lia.
Defined.

Lemma every_tag_casts_witness :
  nth_error (_parameter_placeholders (Some [Some INTEGER; Some JSON]) [7; 8])
    1
  <> nth_error
       (_parameter_placeholders (Some [Some INTEGER; Some JSONB]) [7; 8]) 1.
Proof.
  destruct (@every_tag_casts Z [7; 8]) as (_ & _ & Hdiffer).
  apply (Hdiffer [INTEGER; JSON] [INTEGER; JSONB] 1%nat JSON JSONB);
    [reflexivity | reflexivity | discriminate].
Defined.
